(** * Unposted: the local journaling state engine

  A shallow embedding of the journal store ([store/journals.ts]), its
  Dexie persistence layer ([store/db.ts]), the recorder component
  ([components/Recorder.tsx]) and the entry construction of the
  Journals page ([pages/Journals.tsx]), followed by the properties the
  specification states about them; then the views that read the store
  (the journal card, the detail view, the Streaks and Settings pages)
  and further properties of all of this code.

  Conventions of the embedding:
  - an optional field [f?: T] is an [option T] ([None] is [undefined]);
  - a JavaScript time value is an [option Z] of milliseconds since the
    epoch ([None] is [NaN]);
  - [async] functions run to completion; a call of the persistence store
    either succeeds or rejects, as decided by a boolean handed to the
    operation, and a rejection propagates as a thrown error;
  - the browser's blob URL store and the Dexie table are part of the
    modelled world, together with a chronological log of the calls made to
    them. *)

From Stdlib Require Import ZArith String Ascii List Lia Bool PrimFloat.
From Stdlib Require Import Sorting.Permutation Sorting.Sorted.
From Stdlib Require Import Structures.OrderedTypeEx.
From stdpp Require Import base option gmap strings list fin_maps sorting pretty.

Open Scope string_scope.
Open Scope list_scope.

(* ===================================================================== *)
(** * The host: dates                                                     *)
(* ===================================================================== *)

Module Date.

Open Scope Z_scope.

(** [1000 * 60 * 60 * 24], the divisor in [getStreakCount]. *)
Definition MS_PER_DAY : Z := 1000 * 60 * 60 * 24.

Definition digit (c : ascii) : option Z :=
  let n := Z.of_N (N_of_ascii c) in
  if (48 <=? n) && (n <=? 57) then Some (n - 48) else None.

(** Reads a string against a layout: a [d] of the layout stands for one
    decimal digit, every other character for itself. *)
Fixpoint scan (layout s : string) : option (list Z) :=
  match layout, s with
  | EmptyString, EmptyString => Some []
  | String l layout', String c s' =>
      if Ascii.eqb l "d" then
        match digit c, scan layout' s' with
        | Some d, Some ds => Some (d :: ds)
        | _, _ => None
        end
      else if Ascii.eqb l c then scan layout' s' else None
  | _, _ => None
  end.

(** The layout [Date.prototype.toISOString] writes, which is how
    [createdAt] is produced ([new Date().toISOString()]). *)
Definition ISO_LAYOUT : string := "dddd-dd-ddTdd:dd:dd.dddZ".

Definition isLeap (y : Z) : bool :=
  ((y mod 4 =? 0) && negb (y mod 100 =? 0)) || (y mod 400 =? 0).

Definition daysInMonth (y m : Z) : Z :=
  if m =? 2 then (if isLeap y then 29 else 28)
  else if (m =? 4) || (m =? 6) || (m =? 9) || (m =? 11) then 30
  else 31.

(** ECMAScript's [DayFromYear]: the day number of January 1st of [y]. *)
Definition dayFromYear (y : Z) : Z :=
  365 * (y - 1970) + (y - 1969) / 4 - (y - 1901) / 100 + (y - 1601) / 400.

(** Days of the year before the first of month [m] (1-based). *)
Definition daysBeforeMonth (y m : Z) : Z :=
  let common :=
    if m =? 1 then 0 else if m =? 2 then 31 else if m =? 3 then 59
    else if m =? 4 then 90 else if m =? 5 then 120 else if m =? 6 then 151
    else if m =? 7 then 181 else if m =? 8 then 212 else if m =? 9 then 243
    else if m =? 10 then 273 else if m =? 11 then 304 else 334 in
  if isLeap y && (2 <? m) then common + 1 else common.

Record fields := {
  year : Z; month : Z; day : Z;
  hours : Z; minutes : Z; seconds : Z; millis : Z
}.

Definition fields_of_digits (ds : list Z) : option fields :=
  match ds with
  | [y1; y2; y3; y4; m1; m2; d1; d2; h1; h2; n1; n2; s1; s2; f1; f2; f3] =>
      Some {| year := ((y1 * 10 + y2) * 10 + y3) * 10 + y4;
              month := m1 * 10 + m2;
              day := d1 * 10 + d2;
              hours := h1 * 10 + h2;
              minutes := n1 * 10 + n2;
              seconds := s1 * 10 + s2;
              millis := (f1 * 10 + f2) * 10 + f3 |}
  | _ => None
  end.

(** Out-of-range fields make the string an invalid date. Hour 24 is
    accepted only as [24:00:00.000], the end of the day. *)
Definition in_range (f : fields) : bool :=
  (1 <=? month f) && (month f <=? 12)
  && (1 <=? day f) && (day f <=? daysInMonth (year f) (month f))
  && (minutes f <=? 59) && (seconds f <=? 59)
  && ((hours f <=? 23)
      || ((hours f =? 24) && (minutes f =? 0) && (seconds f =? 0)
          && (millis f =? 0))).

Definition timeValue (f : fields) : Z :=
  (dayFromYear (year f) + daysBeforeMonth (year f) (month f) + (day f - 1))
    * MS_PER_DAY
  + hours f * 3600000 + minutes f * 60000 + seconds f * 1000 + millis f.

Definition parse_fields (s : string) : option fields :=
  match scan ISO_LAYOUT s with
  | Some ds =>
      match fields_of_digits ds with
      | Some f => if in_range f then Some f else None
      | None => None
      end
  | None => None
  end.

(** [new Date(s).getTime()] for the strings the code writes: the time
    value of a date-time string in the [toISOString] layout
    ([YYYY-MM-DDTHH:mm:ss.sssZ], which is what [new Date().toISOString()]
    in [handleRecordingReady] produces), and [None] (that is [NaN]) for a
    string that is no date. Only this layout is read as a date here: the
    other forms [new Date] accepts (a date without a time, a time without
    milliseconds, fields the host rolls over, the host's own formats) are
    not parsed and come out as [None] as well, so for them this function
    says less than the host does. Statements about dates below are about
    strings in the [toISOString] layout. *)
Definition getTime (s : string) : option Z :=
  match parse_fields s with
  | Some f => Some (timeValue f)
  | None => None
  end.

(** The calendar day (UTC day number) of a time value. *)
Definition dayNumber (t : Z) : Z := t / MS_PER_DAY.

(** [Math.ceil(x / MS_PER_DAY)] for an integer [x]. For time values of
    four-digit years the floating-point quotient is never rounded onto
    an integer, so the result is the integer ceiling. *)
Definition ceilDays (x : Z) : Z := - ((- x) / MS_PER_DAY).

End Date.

(* ===================================================================== *)
(** * The data model ([types/journal.ts])                                 *)
(* ===================================================================== *)

(** A [Blob] is its bytes. *)
Definition Blob := string.

(** A JavaScript [number] (IEEE 754 binary64): the seconds of a
    duration, stored, handed on and counted up by the recorder's timer. *)
Definition number := float.

Record JournalEntry := {
  id : string;
  createdAt : string;
  transcript : string;
  duration : number;
  audioBlob : option Blob;
  audioUrl : option string;
  encrypted : bool;
  title : option string;
  emotion : option string
}.

Definition with_audioUrl (u : option string) (e : JournalEntry) : JournalEntry :=
  {| id := id e; createdAt := createdAt e; transcript := transcript e;
     duration := duration e; audioBlob := audioBlob e; audioUrl := u;
     encrypted := encrypted e; title := title e; emotion := emotion e |}.

(** [Partial<JournalEntry>]: [None] is a key the patch does not have. A
  key of an optional field may be present and hold [undefined]
  ([Some None]). *)
Record Patch := {
  p_id : option string;
  p_createdAt : option string;
  p_transcript : option string;
  p_duration : option number;
  p_audioBlob : option (option Blob);
  p_audioUrl : option (option string);
  p_encrypted : option bool;
  p_title : option (option string);
  p_emotion : option (option string)
}.

(** [{ ...existing, ...patch }] *)
Definition spread (existing : JournalEntry) (patch : Patch) : JournalEntry :=
  {| id := default (id existing) (p_id patch);
     createdAt := default (createdAt existing) (p_createdAt patch);
     transcript := default (transcript existing) (p_transcript patch);
     duration := default (duration existing) (p_duration patch);
     audioBlob := default (audioBlob existing) (p_audioBlob patch);
     audioUrl := default (audioUrl existing) (p_audioUrl patch);
     encrypted := default (encrypted existing) (p_encrypted patch);
     title := default (title existing) (p_title patch);
     emotion := default (emotion existing) (p_emotion patch) |}.

Definition emptyPatch : Patch :=
  {| p_id := None; p_createdAt := None; p_transcript := None;
     p_duration := None; p_audioBlob := None; p_audioUrl := None;
     p_encrypted := None; p_title := None; p_emotion := None |}.

(* ===================================================================== *)
(** * The host: arrays and object URLs                                    *)
(* ===================================================================== *)

(** [Array.prototype.sort] with a comparator: a stable sort in which [a]
    goes after [b] exactly when [cmp a b > 0]; a [NaN] result counts as
    [+0]. With a consistent comparator every stable sort returns the list
    computed here. *)
Definition goesAfter {A} (cmp : A -> A -> option Z) (a b : A) : bool :=
  match cmp a b with
  | Some v => (0 <? v)%Z
  | None => false
  end.

Fixpoint insertSorted {A} (cmp : A -> A -> option Z) (x : A) (l : list A) : list A :=
  match l with
  | [] => [x]
  | y :: l' => if goesAfter cmp x y then y :: insertSorted cmp x l' else x :: l
  end.

Definition Array_sort {A} (cmp : A -> A -> option Z) (l : list A) : list A :=
  foldr (insertSorted cmp) [] l.

Module URL.

(** The browser's blob URL store: the URLs minted so far are counted, and
    [live] maps each URL that was not revoked to its blob. *)
Record registry := {
  minted : nat;
  live : gmap string Blob
}.

Definition fresh : registry := {| minted := 0; live := ∅ |}.

(** The [n]-th URL the store mints: scheme [blob:], then a name never
    used before. *)
Definition nth_url (n : nat) : string := "blob:" +:+ pretty n.

(** [URL.createObjectURL(blob)] *)
Definition createObjectURL (b : Blob) (r : registry) : string * registry :=
  let u := nth_url (minted r) in
  (u, {| minted := S (minted r); live := <[u := b]> (live r) |}).

(** [URL.revokeObjectURL(url)]; a URL that is not live is ignored. *)
Definition revokeObjectURL (u : string) (r : registry) : registry :=
  {| minted := minted r; live := delete u (live r) |}.

End URL.

(* ===================================================================== *)
(** * The world of the store: zustand state, Dexie table, URL store       *)
(* ===================================================================== *)

(** The data of [JournalState]; its functions are the definitions below. *)
Record JournalState := {
  entries : list JournalEntry;
  hydrated : bool
}.

(** What a call did to the world outside the zustand state, in the order
    it happened. A persistence call is logged with whether it succeeded. *)
Inductive Effect :=
  | Created (u : string)
  | Revoked (u : string)
  | Put (ok : bool) (record : JournalEntry)
  | Delete (ok : bool) (key : string)
  | ClearTable (ok : bool)
  | ToArray (ok : bool).

Record World := {
  state : JournalState;
  journals : gmap string JournalEntry;
  urls : URL.registry;
  log : list Effect
}.

Definition with_state (st : JournalState) (w : World) : World :=
  {| state := st; journals := journals w; urls := urls w; log := log w |}.

Definition with_journals (t : gmap string JournalEntry) (w : World) : World :=
  {| state := state w; journals := t; urls := urls w; log := log w |}.

Definition with_urls (r : URL.registry) (w : World) : World :=
  {| state := state w; journals := journals w; urls := r; log := log w |}.

Definition logged (ev : Effect) (w : World) : World :=
  {| state := state w; journals := journals w; urls := urls w;
     log := log w ++ [ev] |}.

(** A page load: the table is what earlier sessions left, nothing is in
    memory and no object URL exists. *)
Definition boot (table : gmap string JournalEntry) : World :=
  {| state := {| entries := []; hydrated := false |};
     journals := table; urls := URL.fresh; log := [] |}.

(** The rejection of a Dexie promise. *)
Inductive Error := PersistenceError.

(** How a call ends. *)
Inductive Completion (A : Type) :=
  | Returns (a : A)
  | Throws (err : Error).
Arguments Returns {A} a.
Arguments Throws {A} err.

(** An [async] function run to completion over the world. *)
Definition Async (A : Type) : Type := World -> Completion A * World.

Definition ret {A} (a : A) : Async A := fun w => (Returns a, w).

Definition bind {A B} (m : Async A) (k : A -> Async B) : Async B :=
  fun w =>
    match m w with
    | (Returns a, w') => k a w'
    | (Throws err, w') => (Throws err, w')
    end.

Notation "x <- m ;; k" := (bind m (fun x => k))
  (at level 100, m at next level, right associativity).
Notation "m ;;; k" := (bind m (fun _ => k))
  (at level 100, right associativity).

Fixpoint mapAsync {A B} (f : A -> Async B) (l : list A) : Async (list B) :=
  match l with
  | [] => ret []
  | x :: l' => y <- f x ;; ys <- mapAsync f l' ;; ret (y :: ys)
  end.

(** [get()] and [set(...)] of the zustand store. *)
Definition get : Async JournalState := fun w => (Returns (state w), w).

Definition set (f : JournalState -> JournalState) : Async unit :=
  fun w => (Returns tt, with_state (f (state w)) w).

Definition createObjectURL (b : Blob) : Async string :=
  fun w =>
    let (u, r) := URL.createObjectURL b (urls w) in
    (Returns u, logged (Created u) (with_urls r w)).

Definition revokeObjectURL (u : string) : Async unit :=
  fun w =>
    (Returns tt, logged (Revoked u) (with_urls (URL.revokeObjectURL u (urls w)) w)).

(* ===================================================================== *)
(** * The persistence layer ([store/db.ts])                               *)
(* ===================================================================== *)

(** The table [journals: "id, createdAt"]: primary key [id], one index on
    [createdAt]. [table.put(record)] stores the record under its [id]. *)
Definition table_put (ok : bool) (record : JournalEntry) : Async unit :=
  fun w =>
    if ok
    then (Returns tt,
          logged (Put true record)
            (with_journals (<[id record := record]> (journals w)) w))
    else (Throws PersistenceError, logged (Put false record) w).

Definition table_delete (ok : bool) (key : string) : Async unit :=
  fun w =>
    if ok
    then (Returns tt,
          logged (Delete true key) (with_journals (delete key (journals w)) w))
    else (Throws PersistenceError, logged (Delete false key) w).

Definition table_clear (ok : bool) : Async unit :=
  fun w =>
    if ok
    then (Returns tt, logged (ClearTable true) (with_journals ∅ w))
    else (Throws PersistenceError, logged (ClearTable false) w).

(** The order of the [createdAt] index read backwards: keys are compared
    as strings, and records of one key by primary key. [indexBefore a b]
    says that [a] is met no later than [b]. *)
Definition indexBefore (a b : JournalEntry) : bool :=
  match String.compare (createdAt b) (createdAt a) with
  | Lt => true
  | Eq => String.leb (id b) (id a)
  | Gt => false
  end.

Definition indexOrder (a b : JournalEntry) : Prop := Is_true (indexBefore a b).

#[global] Instance indexOrder_dec (a b : JournalEntry) : Decision (indexOrder a b).
Proof. unfold indexOrder. apply _. Defined.

Definition records (t : gmap string JournalEntry) : list JournalEntry :=
  snd <$> map_to_list t.

(** [journals.orderBy("createdAt").reverse().toArray()] *)
Definition orderBy_createdAt_reverse_toArray (ok : bool) : Async (list JournalEntry) :=
  fun w =>
    if ok
    then (Returns (merge_sort indexOrder (records (journals w))),
          logged (ToArray true) w)
    else (Throws PersistenceError, logged (ToArray false) w).

(** [entry.audioUrl ?? (entry.audioBlob ? URL.createObjectURL(entry.audioBlob) : undefined)],
    as [getAllJournals] and [addEntry] both write it. *)
Definition audioUrlOrDerived (entry : JournalEntry) : Async (option string) :=
  match audioUrl entry with
  | Some u => ret (Some u)
  | None =>
      match audioBlob entry with
      | Some b => u <- createObjectURL b ;; ret (Some u)
      | None => ret None
      end
  end.

(** The function [getAllJournals] maps over the records. *)
Definition loadRecord (entry : JournalEntry) : Async JournalEntry :=
  audioUrl <- audioUrlOrDerived entry ;;
  ret (with_audioUrl audioUrl entry).

Definition getAllJournals (ok : bool) : Async (list JournalEntry) :=
  records <- orderBy_createdAt_reverse_toArray ok ;;
  mapAsync loadRecord records.

(** [const { audioUrl, ...persistable } = entry; put({ ...persistable, audioUrl: undefined })] *)
Definition saveJournal (ok : bool) (entry : JournalEntry) : Async unit :=
  table_put ok (with_audioUrl None entry).

Definition deleteJournal (ok : bool) (key : string) : Async unit :=
  table_delete ok key.

Definition clearJournals (ok : bool) : Async unit :=
  table_clear ok.

(** [entry.audioUrl && entry.audioUrl.startsWith("blob:")] *)
Definition isBlobUrl (entry : JournalEntry) : option string :=
  match audioUrl entry with
  | Some u => if String.prefix "blob:" u then Some u else None
  | None => None
  end.

Definition revokeAudioUrl (entry : JournalEntry) : Async unit :=
  match isBlobUrl entry with
  | Some u => revokeObjectURL u
  | None => ret tt
  end.

(* ===================================================================== *)
(** * The journal store ([store/journals.ts])                             *)
(* ===================================================================== *)

Definition with_entries (l : list JournalEntry) (st : JournalState) : JournalState :=
  {| entries := l; hydrated := hydrated st |}.

Definition hasId (key : string) (entry : JournalEntry) : bool :=
  String.eqb (id entry) key.

Definition addEntry (ok : bool) (entry : JournalEntry) : Async unit :=
  derivedAudioUrl <- audioUrlOrDerived entry ;;
  let nextEntry := with_audioUrl derivedAudioUrl entry in
  saveJournal ok nextEntry ;;;
  set (fun st => with_entries (nextEntry :: entries st) st).

Definition updateEntry (ok : bool) (key : string) (patch : Patch) : Async unit :=
  st <- get ;;
  match List.find (hasId key) (entries st) with
  | None => ret tt
  | Some existing =>
      updated <-
        match p_audioBlob patch with
        | Some (Some blob) =>
            audioUrl <- createObjectURL blob ;;
            revokeAudioUrl existing ;;;
            ret (with_audioUrl (Some audioUrl) (spread existing patch))
        | _ => ret (spread existing patch)
        end ;;
      saveJournal ok updated ;;;
      set (fun st =>
             with_entries
               ((fun entry => if hasId key entry then updated else entry)
                  <$> entries st)
               st)
  end.

Definition removeEntry (ok : bool) (key : string) : Async unit :=
  deleteJournal ok key ;;;
  st <- get ;;
  match List.find (hasId key) (entries st) with
  | Some entry => revokeAudioUrl entry
  | None => ret tt
  end ;;;
  set (fun st =>
         with_entries (filter (fun item => id item <> key) (entries st)) st).

Definition clearAll (ok : bool) : Async unit :=
  clearJournals ok ;;;
  st <- get ;;
  mapAsync revokeAudioUrl (entries st) ;;;
  set (fun st => with_entries [] st).

Definition hydrate (ok : bool) : Async unit :=
  st <- get ;;
  if hydrated st then ret tt
  else
    loaded <- getAllJournals ok ;;
    set (fun _ => {| entries := loaded; hydrated := true |}).

(** [new Date(e.createdAt).getTime()] *)
Definition getTime (e : JournalEntry) : option Z := Date.getTime (createdAt e).

(** The comparator
    [(a, b) => new Date(b.createdAt).getTime() - new Date(a.createdAt).getTime()];
    the difference is [NaN] when either date is invalid. *)
Definition newestFirst (a b : JournalEntry) : option Z :=
  match getTime b, getTime a with
  | Some tb, Some ta => Some (tb - ta)%Z
  | _, _ => None
  end.

(** [Math.ceil((current.getTime() - nextDate.getTime()) / (1000 * 60 * 60 * 24))] *)
Definition diffDays (current next : option Z) : option Z :=
  match current, next with
  | Some c, Some n => Some (Date.ceilDays (c - n))
  | _, _ => None
  end.

(** The [for] loop from index 1 on: [current] is the cursor, [streak]
    the count so far. *)
Fixpoint walk (current : option Z) (rest : list JournalEntry) (streak : nat) : nat :=
  match rest with
  | [] => streak
  | e :: rest' =>
      let nextDate := getTime e in
      match diffDays current nextDate with
      | Some 0%Z => walk current rest' streak
      | Some 1%Z => walk nextDate rest' (S streak)
      | _ => streak
      end
  end.

(** [getStreakCount] reads the state and sorts a copy of its list. *)
Definition getStreakCount (st : JournalState) : nat :=
  let sorted := Array_sort newestFirst (entries st) in
  match sorted with
  | [] => 0
  | e0 :: rest => walk (getTime e0) rest 1
  end.

Definition getEntry (key : string) (st : JournalState) : option JournalEntry :=
  List.find (hasId key) (entries st).

(** [all()] of the specification: the in-memory list. *)
Definition all (w : World) : list JournalEntry := entries (state w).

(** The operations of the repository, each with the fate of its
    persistence call. *)
Inductive Op :=
  | Add (ok : bool) (entry : JournalEntry)
  | Update (ok : bool) (key : string) (patch : Patch)
  | Remove (ok : bool) (key : string)
  | Clear (ok : bool)
  | Hydrate (ok : bool).

Definition perform (o : Op) : Async unit :=
  match o with
  | Add ok entry => addEntry ok entry
  | Update ok key patch => updateEntry ok key patch
  | Remove ok key => removeEntry ok key
  | Clear ok => clearAll ok
  | Hydrate ok => hydrate ok
  end.

(** The world after a call, whether it returned or threw. *)
Definition after {A} (m : Async A) (w : World) : World := snd (m w).

Definition outcome {A} (m : Async A) (w : World) : Completion A := fst (m w).

Definition run (ops : list Op) (w : World) : World :=
  foldl (fun w o => after (perform o) w) w ops.

(** The effects a call added to the log. *)
Definition effects {A} (m : Async A) (w : World) : list Effect :=
  drop (length (log w)) (log (after m w)).

(* ===================================================================== *)
(** * [getStreakCount] over the host's arrays                             *)
(* ===================================================================== *)

(** An array of the host is an object known by its reference. The state
    holds the reference of its [entries]; [[...a]] allocates a new array
    with the elements of [a]; [Array.prototype.sort] sorts the array it
    is called on in place and returns the reference it was called on. *)
Module Arrays.

Record Heap := {
  arrays : gmap nat (list JournalEntry);
  nextRef : nat
}.

(** Every array of the heap was allocated before [nextRef]. *)
Definition valid (h : Heap) : Prop :=
  forall r, is_Some (arrays h !! r) -> r < nextRef h.

Definition elements (r : nat) (h : Heap) : list JournalEntry :=
  default [] (arrays h !! r).

(** [[...a]] *)
Definition spreadCopy (r : nat) (h : Heap) : nat * Heap :=
  (nextRef h,
   {| arrays := <[nextRef h := elements r h]> (arrays h);
      nextRef := S (nextRef h) |}).

(** [a.sort(cmp)] *)
Definition sort (cmp : JournalEntry -> JournalEntry -> option Z) (r : nat)
    (h : Heap) : nat * Heap :=
  (r,
   {| arrays := <[r := Array_sort cmp (elements r h)]> (arrays h);
      nextRef := nextRef h |}).

(** [getStreakCount], with [get().entries] the array at [entriesRef]:
    the count and the heap it leaves. *)
Definition getStreakCount (entriesRef : nat) (h : Heap) : nat * Heap :=
  let (copy, h) := spreadCopy entriesRef h in
  let (entries, h) := sort newestFirst copy h in
  (match elements entries h with
   | [] => 0
   | e0 :: rest => walk (getTime e0) rest 1
   end, h).

End Arrays.

(* ===================================================================== *)
(** * The streak in the specification's words                             *)
(* ===================================================================== *)

(** Over a newest-first list: the cursor is a calendar day and the gap a
    difference of day numbers. *)
Definition dayOf (e : JournalEntry) : option Z :=
  Date.dayNumber <$> getTime e.

Definition gapDays (cursor entryDate : option Z) : option Z :=
  match cursor, entryDate with
  | Some c, Some d => Some (c - d)%Z
  | _, _ => None
  end.

Fixpoint calendarWalk (cursor : option Z) (rest : list JournalEntry) (count : nat) : nat :=
  match rest with
  | [] => count
  | e :: rest' =>
      match gapDays cursor (dayOf e) with
      | Some 0%Z => calendarWalk cursor rest' count
      | Some 1%Z => calendarWalk (dayOf e) rest' (S count)
      | _ => count
      end
  end.

Definition calendarStreak (newestFirstEntries : list JournalEntry) : nat :=
  match newestFirstEntries with
  | [] => 0
  | e0 :: rest => calendarWalk (dayOf e0) rest 1
  end.

(* ===================================================================== *)
(** * Building an entry ([handleRecordingReady] of [pages/Journals.tsx])  *)
(* ===================================================================== *)

(** [s.split(" ")]: the pieces between single spaces; never empty. *)
Fixpoint split (s : string) : list string :=
  match s with
  | EmptyString => [EmptyString]
  | String c s' =>
      if Ascii.eqb c " " then EmptyString :: split s'
      else
        match split s' with
        | piece :: pieces => String c piece :: pieces
        | [] => [String c EmptyString]
        end
  end.

(** [l.join(" ")] *)
Fixpoint join (l : list string) : string :=
  match l with
  | [] => EmptyString
  | [piece] => piece
  | piece :: l' => piece +:+ " " +:+ join l'
  end.

(** [l.slice(0, n)] *)
Definition slice0 {A} (n : nat) (l : list A) : list A := take n l.

(** The body of the transcription response; either field may be missing,
    and so may the body ([data?.]). *)
Record Transcription := {
  t_transcript : option string;
  t_duration : option number
}.

(** A string is truthy when it is not empty. *)
Definition truthy (s : option string) : bool :=
  match s with
  | Some EmptyString => false
  | Some _ => true
  | None => false
  end.

(** The object literal of [handleRecordingReady]; [uuid] is what
    [crypto.randomUUID()] returned and [now] what
    [new Date().toISOString()] returned. *)
Definition buildEntry (uuid now : string) (data : option Transcription)
    (blob : Blob) (duration : number) (url : string) : JournalEntry :=
  let transcript := data ≫= t_transcript in
  {| id := uuid;
     createdAt := now;
     transcript := default "" transcript;
     duration := default duration (data ≫= t_duration);
     audioBlob := Some blob;
     audioUrl := Some url;
     encrypted := false;
     title :=
       if truthy transcript
       then Some (join (slice0 5 (split (default "" transcript))))
       else None;
     emotion := None |}.

(** [handleRecordingReady]: [response] is [None] when the request
    rejects. Every error is caught; the result is the message the page
    then shows, if any. *)
Definition handleRecordingReady (response : option (option Transcription))
    (uuid now : string) (ok : bool) (blob : Blob) (duration : number)
    : World -> option string * World :=
  fun w =>
    match response with
    | None => (Some "Transcription failed. Try again or check the backend logs.", w)
    | Some data =>
        match (url <- createObjectURL blob ;;
               addEntry ok (buildEntry uuid now data blob duration url)) w with
        | (Returns _, w') => (None, w')
        | (Throws _, w') =>
            (Some "Transcription failed. Try again or check the backend logs.", w')
        end
    end.

(** "The first five words" in the specification's words: the transcript
    up to its [n]-th space, that space left out. *)
Fixpoint upToSpace (n : nat) (s : string) : string :=
  match s with
  | EmptyString => EmptyString
  | String c s' =>
      if Ascii.eqb c " " then
        match n with
        | 0 | 1 => EmptyString
        | S n' => String c (upToSpace n' s')
        end
      else String c (upToSpace n s')
  end.

(** A word: not empty, no space in it. *)
Fixpoint spaceFree (s : string) : bool :=
  match s with
  | EmptyString => true
  | String c s' => negb (Ascii.eqb c " ") && spaceFree s'
  end.

Definition isWord (s : string) : bool :=
  negb (String.eqb s EmptyString) && spaceFree s.

(* ===================================================================== *)
(** * The recorder ([components/Recorder.tsx])                            *)
(* ===================================================================== *)

Module Recorder.

Inductive RecorderStatus := idle | recording | paused | preview | error.

(** [MediaRecorder.state] *)
Inductive RecordingState := inactive | rec_recording | rec_paused.

(** The component: its React state, its refs and the part of the host it
    touches. State updates take effect before the next handler runs. The
    recorder the component holds is known by its state; a stream is a
    number, open while its tracks run; an interval is a number, listed
    while it is active ([setInterval] returns positive ids, so a stored
    id is truthy). [emitted] collects the calls of [onRecordingReady]. *)
Record Component := {
  status : RecorderStatus;
  elapsed : number;
  errorMessage : option string;
  previewUrl : option string;
  previewDuration : number;
  mediaRecorderRef : option RecordingState;
  streamRef : option nat;
  chunksRef : list Blob;
  timerRef : option nat;
  elapsedRef : number;
  urls : URL.registry;
  intervals : list nat;
  nextInterval : nat;
  openStreams : list nat;
  nextStream : nat;
  emitted : list (Blob * number)
}.

Definition initial : Component :=
  {| status := idle; elapsed := 0%float; errorMessage := None;
     previewUrl := None; previewDuration := 0%float;
     mediaRecorderRef := None; streamRef := None; chunksRef := [];
     timerRef := None; elapsedRef := 0%float;
     urls := URL.fresh; intervals := []; nextInterval := 1;
     openStreams := []; nextStream := 0; emitted := [] |}.

(** [new Blob(chunks, ...)]: the chunks one after the other. *)
Definition Blob_of (chunks : list Blob) : Blob :=
  foldr String.append EmptyString chunks.

Definition clearInterval (t : nat) (l : list nat) : list nat :=
  List.filter (fun t' => negb (Nat.eqb t' t)) l.

Definition stopTracks (c : Component) : Component :=
  {| status := status c; elapsed := elapsed c; errorMessage := errorMessage c;
     previewUrl := previewUrl c; previewDuration := previewDuration c;
     mediaRecorderRef := None;
     streamRef := None;
     chunksRef := chunksRef c;
     timerRef := None;
     elapsedRef := elapsedRef c;
     urls := urls c;
     intervals :=
       match timerRef c with
       | Some t => clearInterval t (intervals c)
       | None => intervals c
       end;
     nextInterval := nextInterval c;
     openStreams :=
       match streamRef c with
       | Some s => List.filter (fun s' => negb (Nat.eqb s' s)) (openStreams c)
       | None => openStreams c
       end;
     nextStream := nextStream c;
     emitted := emitted c |}.

Definition resetState (c : Component) : Component :=
  let c := stopTracks c in
  {| status := idle; elapsed := 0%float; errorMessage := errorMessage c;
     previewUrl := None;
     previewDuration := 0%float;
     mediaRecorderRef := mediaRecorderRef c;
     streamRef := streamRef c;
     chunksRef := [];
     timerRef := timerRef c;
     elapsedRef := 0%float;
     urls :=
       if truthy (previewUrl c)
       then URL.revokeObjectURL (default "" (previewUrl c)) (urls c)
       else urls c;
     intervals := intervals c;
     nextInterval := nextInterval c;
     openStreams := openStreams c;
     nextStream := nextStream c;
     emitted := emitted c |}.

(** [window.setInterval(..., 1000)] stored in [timerRef]. *)
Definition startTimer (c : Component) : Component :=
  {| status := status c; elapsed := elapsed c; errorMessage := errorMessage c;
     previewUrl := previewUrl c; previewDuration := previewDuration c;
     mediaRecorderRef := mediaRecorderRef c; streamRef := streamRef c;
     chunksRef := chunksRef c;
     timerRef := Some (nextInterval c);
     elapsedRef := elapsedRef c;
     urls := urls c;
     intervals := nextInterval c :: intervals c;
     nextInterval := S (nextInterval c);
     openStreams := openStreams c; nextStream := nextStream c;
     emitted := emitted c |}.

(** One firing of interval [t]: nothing when it was cleared. *)
Definition tick (t : nat) (c : Component) : Component :=
  if existsb (Nat.eqb t) (intervals c) then
    let next := (elapsed c + 1)%float in
    {| status := status c; elapsed := next; errorMessage := errorMessage c;
       previewUrl := previewUrl c; previewDuration := previewDuration c;
       mediaRecorderRef := mediaRecorderRef c; streamRef := streamRef c;
       chunksRef := chunksRef c; timerRef := timerRef c;
       elapsedRef := next;
       urls := urls c; intervals := intervals c;
       nextInterval := nextInterval c;
       openStreams := openStreams c; nextStream := nextStream c;
       emitted := emitted c |}
  else c.

(** Where a call of [startRecording] that was granted the microphone
    throws into its [catch]: at [new MediaRecorder(stream)], or at
    [recorder.start()]. *)
Inductive StartFailure := inConstructor | inStart.

(** [startRecording]: [granted] says whether [getUserMedia] resolved, and
    [thrown] where the call throws after that, if it does. The stream is
    stored in [streamRef] as soon as it is granted, and the [catch] sets
    the error without stopping it. *)
Definition startRecording (granted : bool) (thrown : option StartFailure)
    (c : Component) : Component :=
  if granted then
    match thrown with
    | None =>
        startTimer
          {| status := recording; elapsed := 0%float; errorMessage := errorMessage c;
             previewUrl := previewUrl c; previewDuration := previewDuration c;
             mediaRecorderRef := Some rec_recording;
             streamRef := Some (nextStream c);
             chunksRef := [];
             timerRef := timerRef c;
             elapsedRef := 0%float;
             urls := urls c; intervals := intervals c;
             nextInterval := nextInterval c;
             openStreams := nextStream c :: openStreams c;
             nextStream := S (nextStream c);
             emitted := emitted c |}
    | Some inConstructor =>
        {| status := error; elapsed := elapsed c;
           errorMessage := Some "Microphone permissions are required to record audio.";
           previewUrl := previewUrl c; previewDuration := previewDuration c;
           mediaRecorderRef := mediaRecorderRef c;
           streamRef := Some (nextStream c);
           chunksRef := chunksRef c; timerRef := timerRef c;
           elapsedRef := elapsedRef c;
           urls := urls c; intervals := intervals c;
           nextInterval := nextInterval c;
           openStreams := nextStream c :: openStreams c;
           nextStream := S (nextStream c);
           emitted := emitted c |}
    | Some inStart =>
        {| status := error; elapsed := elapsed c;
           errorMessage := Some "Microphone permissions are required to record audio.";
           previewUrl := previewUrl c; previewDuration := previewDuration c;
           mediaRecorderRef := Some inactive;
           streamRef := Some (nextStream c);
           chunksRef := [];
           timerRef := timerRef c;
           elapsedRef := 0%float;
           urls := urls c; intervals := intervals c;
           nextInterval := nextInterval c;
           openStreams := nextStream c :: openStreams c;
           nextStream := S (nextStream c);
           emitted := emitted c |}
    end
  else
    {| status := error; elapsed := elapsed c;
       errorMessage := Some "Microphone permissions are required to record audio.";
       previewUrl := previewUrl c; previewDuration := previewDuration c;
       mediaRecorderRef := mediaRecorderRef c; streamRef := streamRef c;
       chunksRef := chunksRef c; timerRef := timerRef c;
       elapsedRef := elapsedRef c;
       urls := urls c; intervals := intervals c;
       nextInterval := nextInterval c;
       openStreams := openStreams c; nextStream := nextStream c;
       emitted := emitted c |}.

Definition with_recorder (r : RecordingState) (st : RecorderStatus) (c : Component) : Component :=
  {| status := st; elapsed := elapsed c; errorMessage := errorMessage c;
     previewUrl := previewUrl c; previewDuration := previewDuration c;
     mediaRecorderRef := Some r; streamRef := streamRef c;
     chunksRef := chunksRef c; timerRef := timerRef c;
     elapsedRef := elapsedRef c;
     urls := urls c; intervals := intervals c;
     nextInterval := nextInterval c;
     openStreams := openStreams c; nextStream := nextStream c;
     emitted := emitted c |}.

Definition with_intervals (l : list nat) (c : Component) : Component :=
  {| status := status c; elapsed := elapsed c; errorMessage := errorMessage c;
     previewUrl := previewUrl c; previewDuration := previewDuration c;
     mediaRecorderRef := mediaRecorderRef c; streamRef := streamRef c;
     chunksRef := chunksRef c; timerRef := timerRef c;
     elapsedRef := elapsedRef c;
     urls := urls c; intervals := l;
     nextInterval := nextInterval c;
     openStreams := openStreams c; nextStream := nextStream c;
     emitted := emitted c |}.

Definition handlePause (c : Component) : Component :=
  match mediaRecorderRef c with
  | None => c
  | Some rec_recording =>
      with_recorder rec_paused paused
        (match timerRef c with
         | Some t => with_intervals (clearInterval t (intervals c)) c
         | None => c
         end)
  | Some rec_paused =>
      with_recorder rec_recording recording (startTimer c)
  | Some inactive => c
  end.

(** [recorder.ondataavailable] *)
Definition ondataavailable (data : Blob) (c : Component) : Component :=
  if String.eqb data EmptyString then c
  else
    {| status := status c; elapsed := elapsed c; errorMessage := errorMessage c;
       previewUrl := previewUrl c; previewDuration := previewDuration c;
       mediaRecorderRef := mediaRecorderRef c; streamRef := streamRef c;
       chunksRef := chunksRef c ++ [data];
       timerRef := timerRef c; elapsedRef := elapsedRef c;
       urls := urls c; intervals := intervals c;
       nextInterval := nextInterval c;
       openStreams := openStreams c; nextStream := nextStream c;
       emitted := emitted c |}.

(** [recorder.onstop] *)
Definition onstop (c : Component) : Component :=
  let c := stopTracks c in
  let blob := Blob_of (chunksRef c) in
  let (url, registry) := URL.createObjectURL blob (urls c) in
  {| status := preview; elapsed := elapsed c; errorMessage := errorMessage c;
     previewUrl := Some url;
     previewDuration := elapsedRef c;
     mediaRecorderRef := mediaRecorderRef c; streamRef := streamRef c;
     chunksRef := chunksRef c; timerRef := timerRef c;
     elapsedRef := elapsedRef c;
     urls := registry; intervals := intervals c;
     nextInterval := nextInterval c;
     openStreams := openStreams c; nextStream := nextStream c;
     emitted := emitted c |}.

(** [handleStop]: [recorder.stop()] delivers the data gathered since the
    start, then the stop event, before the next handler runs. A recorder
    that is already inactive delivers nothing. *)
Definition handleStop (data : Blob) (c : Component) : Component :=
  match mediaRecorderRef c with
  | None => c
  | Some inactive => c
  | Some _ => onstop (ondataavailable data c)
  end.

Definition handleDiscard (c : Component) : Component := resetState c.

Definition emit (out : Blob * number) (c : Component) : Component :=
  {| status := status c; elapsed := elapsed c; errorMessage := errorMessage c;
     previewUrl := previewUrl c; previewDuration := previewDuration c;
     mediaRecorderRef := mediaRecorderRef c; streamRef := streamRef c;
     chunksRef := chunksRef c; timerRef := timerRef c;
     elapsedRef := elapsedRef c;
     urls := urls c; intervals := intervals c;
     nextInterval := nextInterval c;
     openStreams := openStreams c; nextStream := nextStream c;
     emitted := emitted c ++ [out] |}.

Definition handleSave (c : Component) : Component :=
  if negb (truthy (previewUrl c)) then c
  else
    let blob := Blob_of (chunksRef c) in
    resetState (emit (blob, previewDuration c) c).

(** What can happen to the component: the five handlers and the timer.
    [Start granted] is a call of [startRecording] that runs to its end or
    is denied the microphone, [StartThrows] one that is granted the
    microphone and then throws. *)
Inductive Action :=
  | Start (granted : bool)
  | Pause
  | Stop (data : Blob)
  | Discard
  | Save
  | Tick (t : nat)
  | StartThrows (thrown : StartFailure).

Definition act (a : Action) (c : Component) : Component :=
  match a with
  | Start granted => startRecording granted None c
  | Pause => handlePause c
  | Stop data => handleStop data c
  | Discard => handleDiscard c
  | Save => handleSave c
  | Tick t => tick t c
  | StartThrows thrown => startRecording true (Some thrown) c
  end.

Definition run (acts : list Action) (c : Component) : Component :=
  foldl (fun c a => act a c) c acts.

(** A call of [startRecording]. *)
Definition isStart (a : Action) : bool :=
  match a with
  | Start _ | StartThrows _ => true
  | _ => false
  end.

(** The buttons the component renders in a state, by the handler each
    one calls. *)
Definition offered (c : Component) (a : Action) : bool :=
  match status c, a with
  | idle, Start _ => true
  | idle, StartThrows _ => true
  | recording, Pause => true
  | recording, Stop _ => true
  | paused, Pause => true
  | preview, Discard => truthy (previewUrl c)
  | preview, Save => truthy (previewUrl c)
  | _, _ => false
  end.

End Recorder.

(* ===================================================================== *)
(** * The vocabulary of the properties                                    *)
(* ===================================================================== *)

(** [a] is logged before [b]. *)
Definition precedes (a b : Effect) (l : list Effect) : Prop :=
  exists l1 l2 l3, l = l1 ++ a :: l2 ++ b :: l3.

(** No preview is pending and the component holds no recorder. *)
Definition settled (c : Recorder.Component) : Prop :=
  Recorder.previewUrl c = None /\ Recorder.mediaRecorderRef c = None.

(** An entry whose [createdAt] is a date in the [toISOString] layout, the
    one [Date.getTime] reads. This is narrower than the dates of the
    host: an entry whose [createdAt] the host parses from another layout
    is not [dated]. *)
Definition dated (e : JournalEntry) : Prop := is_Some (getTime e).

Definition timeOf (e : JournalEntry) : Z := default 0%Z (getTime e).

(** [a] is at least as new as [b]. *)
Definition notOlder (a b : JournalEntry) : Prop := (timeOf b <= timeOf a)%Z.

(** [a]'s [createdAt] is not before [b]'s, as strings. *)
Definition createdAtDesc (a b : JournalEntry) : Prop :=
  String.leb (createdAt b) (createdAt a) = true.

(** Every live URL was minted by the store. *)
Definition registry_ok (r : URL.registry) : Prop :=
  forall u, is_Some (URL.live r !! u) ->
            exists k, k < URL.minted r /\ u = URL.nth_url k.

(** The persisted part of an entry: what [saveJournal] writes. *)
Definition persisted (e : JournalEntry) : JournalEntry := with_audioUrl None e.

(** [w'] is [w] after some URLs were minted: memory and table are the
    same, and every URL that was live still is. *)
Definition mints (w w' : World) : Prop :=
  state w' = state w /\ journals w' = journals w
  /\ registry_ok (urls w')
  /\ URL.minted (urls w) <= URL.minted (urls w')
  /\ (forall u b, URL.live (urls w) !! u = Some b ->
                  URL.live (urls w') !! u = Some b).

(** [e] is record [r] read back in world [w]: same persisted fields, and
    the URL the record had or, when it had none, a live URL of its blob. *)
Definition loadedFrom (w : World) (r e : JournalEntry) : Prop :=
  persisted e = persisted r
  /\ match audioUrl r, audioBlob r with
     | Some u, _ => audioUrl e = Some u
     | None, Some b =>
         exists u, audioUrl e = Some u
                   /\ String.prefix "blob:" u = true
                   /\ URL.live (urls w) !! u = Some b
     | None, None => audioUrl e = None
     end.

(** Every record of the table is stored under its own [id], as a table
    with key path [id] has it. *)
Definition keyed (t : gmap string JournalEntry) : Prop :=
  forall k r, t !! k = Some r -> id r = k.

(** [u] is the [audioUrl] of an entry of [l]. *)
Definition referenced (l : list JournalEntry) (u : string) : Prop :=
  exists e, e ∈ l /\ audioUrl e = Some u.

(** The handles are in order: ids in memory are unique, and every live
    URL was minted by the store and is the [audioUrl] of an entry in
    memory. An entry has one [audioUrl], so it has at most one live
    handle, and no live handle is without an entry. *)
Definition hygienic (w : World) : Prop :=
  NoDup (id <$> all w)
  /\ keyed (journals w)
  /\ registry_ok (urls w)
  /\ (forall u, is_Some (URL.live (urls w) !! u) -> referenced (all w) u).

(** The calls of the store under which the handles stay in order. An
    entry added directly brings no [audioUrl] of its own: the store
    derives the handle. An entry that brings the URL its caller minted is
    a [Recorded] call, below. *)
Definition careful (w : World) (o : Op) : Prop :=
  match o with
  | Add ok entry =>
      (id entry ∉ (id <$> all w))
      /\ audioUrl entry = None
      /\ (ok = true \/ audioBlob entry = None)
  | Update ok key patch =>
      p_id patch = None
      /\ match p_audioBlob patch with
         | Some (Some _) => ok = true
         | _ => p_audioUrl patch = None
         end
  | Remove _ _ => True
  | Clear _ => True
  | Hydrate _ => hydrated (state w) = true \/ all w = []
  end.

(** [P] holds of every call of [ops] in the world it is made in. *)
Fixpoint along (P : World -> Op -> Prop) (ops : list Op) (w : World) : Prop :=
  match ops with
  | [] => True
  | o :: ops' => P w o /\ along P ops' (after (perform o) w)
  end.

(** What the application does to the store and the URL store: a call of
    an operation of the store, or a recording handed to
    [handleRecordingReady] of the Journals page, which mints the URL of
    the blob itself and passes it to [addEntry] in the entry. *)
Inductive Call :=
  | Store (o : Op)
  | Recorded (response : option (option Transcription)) (uuid now : string)
      (ok : bool) (blob : Blob) (duration : number).

Definition call (c : Call) (w : World) : World :=
  match c with
  | Store o => after (perform o) w
  | Recorded response uuid now ok blob duration =>
      snd (handleRecordingReady response uuid now ok blob duration w)
  end.

Definition session (calls : list Call) (w : World) : World :=
  foldl (fun w c => call c w) w calls.

(** The calls under which the handles stay in order: a careful call of
    the store, or a recording whose id is not in memory and whose write
    succeeds (a recording whose transcription request failed mints
    nothing and adds nothing). *)
Definition carefulCall (w : World) (c : Call) : Prop :=
  match c with
  | Store o => careful w o
  | Recorded response uuid _ ok _ _ =>
      match response with
      | None => True
      | Some _ => (uuid ∉ (id <$> all w)) /\ ok = true
      end
  end.

(** [P] holds of every call of [calls] in the world it is made in. *)
Fixpoint throughout (P : World -> Call -> Prop) (calls : list Call) (w : World)
    : Prop :=
  match calls with
  | [] => True
  | c :: calls' => P w c /\ throughout P calls' (call c w)
  end.

(** Newest first by [createdAt], with ids unique in memory and in the
    table. *)
Definition ordered (w : World) : Prop :=
  StronglySorted createdAtDesc (all w)
  /\ NoDup (id <$> all w)
  /\ keyed (journals w).

(** The calls under which head insertion keeps the list sorted. *)
Definition keepsOrder (w : World) (o : Op) : Prop :=
  match o with
  | Add _ entry =>
      (id entry ∉ (id <$> all w))
      /\ match all w with
         | [] => True
         | newest :: _ => createdAtDesc entry newest
         end
  | Update _ _ patch => p_id patch = None /\ p_createdAt patch = None
  | _ => True
  end.

(** No record of the table holds a playback handle. *)
Definition durable (t : gmap string JournalEntry) : Prop :=
  forall k r, t !! k = Some r -> audioUrl r = None.

(** Digit lists, for comparing date strings with the instants they
    denote. *)
Section DateVocabulary.

Import Date.
Open Scope Z_scope.

(** Lexicographic comparison of digit lists. *)
Fixpoint lexZ (l1 l2 : list Z) : comparison :=
  match l1, l2 with
  | [], [] => Eq
  | [], _ :: _ => Lt
  | _ :: _, [] => Gt
  | x :: l1', y :: l2' =>
      match x ?= y with
      | Eq => lexZ l1' l2'
      | c => c
      end
  end.

(** The number a digit list writes. *)
Fixpoint value (ds : list Z) : Z :=
  match ds with
  | [] => 0
  | d :: ds' => d * 10 ^ Z.of_nat (length ds') + value ds'
  end.

Definition isDigit (d : Z) : Prop := 0 <= d <= 9.

(** The fields packed the way the string writes them. *)
Definition packed (f : fields) : Z :=
  (((((year f * 100 + month f) * 100 + day f) * 100 + hours f) * 100
    + minutes f) * 100 + seconds f) * 1000 + millis f.

Definition fieldsBounded (f : fields) : Prop :=
  0 <= year f /\ 0 <= month f < 100 /\ 0 <= day f < 100
  /\ 0 <= hours f < 100 /\ 0 <= minutes f < 100 /\ 0 <= seconds f < 100
  /\ 0 <= millis f < 1000.

Definition leapDay (y : Z) : Z := if isLeap y then 1 else 0.

End DateVocabulary.

(* ===================================================================== *)
(** * Example data                                                        *)
(* ===================================================================== *)

Definition mkEntry (i c : string) (b : option Blob) : JournalEntry :=
  {| id := i; createdAt := c; transcript := ""; duration := 0%float;
     audioBlob := b; audioUrl := None; encrypted := false;
     title := None; emotion := None |}.

Definition march3 : JournalEntry :=
  mkEntry "a" "2025-03-03T10:01:00.000Z" (Some "first take").
Definition march3_later : JournalEntry :=
  mkEntry "b" "2025-03-03T10:02:00.000Z" (Some "second take").
Definition march2 : JournalEntry :=
  mkEntry "c" "2025-03-02T09:00:00.000Z" None.

(** An entry whose [createdAt] is no date: [new Date("not a date")] is an
    invalid date and its time value is [NaN]. *)
Definition undated : JournalEntry := mkEntry "d" "not a date" None.

(** A heap that holds one array, at reference 0. *)
Definition heapOf (l : list JournalEntry) : Arrays.Heap :=
  {| Arrays.arrays := {[0 := l]}; Arrays.nextRef := 1 |}.

(** A patch that replaces the audio payload. *)
Definition newAudio (b : Blob) : Patch :=
  {| p_id := None; p_createdAt := None; p_transcript := None;
     p_duration := None; p_audioBlob := Some (Some b); p_audioUrl := None;
     p_encrypted := None; p_title := None; p_emotion := None |}.

(** A table two entries were written to in an earlier session. *)
Definition savedTable : gmap string JournalEntry :=
  <[id march3 := march3]> (<[id march2 := march2]> ∅).

(* ===================================================================== *)
(** * The views that read the store                                       *)
(* ===================================================================== *)

(** The Journals page shows "No journals yet. Tap record to begin." when
    [!entries.length && hydrated]. *)
Definition showsNoJournalsYet (st : JournalState) : bool :=
  Nat.eqb (length (entries st)) 0 && hydrated st.

(** [JournalCard] ([components/JournalCard.tsx]): the title a card shows,
    [entry.title || entry.transcript?.split(" ").slice(0, 5).join(" ") || created.toLocaleString()];
    [localeString] is what [created.toLocaleString()] returns. *)
Definition cardTitle (entry : JournalEntry) (localeString : string) : string :=
  if truthy (title entry) then default EmptyString (title entry)
  else
    let firstWords := join (slice0 5 (split (transcript entry))) in
    if truthy (Some firstWords) then firstWords else localeString.

(** [Streaks] ([pages/Streaks.tsx]): the entries of the "Recent
    check-ins" list, [entries.slice(0, 10)], each with the words its line
    quotes, [entry.transcript.split(" ").slice(0, 6).join(" ")]. *)
Definition recentCheckIns (st : JournalState) : list (JournalEntry * string) :=
  (fun entry => (entry, join (slice0 6 (split (transcript entry)))))
    <$> slice0 10 (entries st).

(** The browser as the detail view uses it: the blob URL store and the
    files that clicks on download anchors saved, as name and content. *)
Record Browser := {
  objectUrls : URL.registry;
  saved : list (string * Blob)
}.

(** [downloadBlob] of [components/JournalDetail.tsx]: the click on the
    anchor saves what its URL holds under [filename]. *)
Definition downloadBlob (blob : Blob) (filename : string) (br : Browser) : Browser :=
  let (url, registry) := URL.createObjectURL blob (objectUrls br) in
  let files :=
    match URL.live registry !! url with
    | Some content => [(filename, content)]
    | None => []
    end in
  {| objectUrls := URL.revokeObjectURL url registry;
     saved := saved br ++ files |}.

(** [fetch(url).then((response) => response.blob())]: a [blob:] URL is
    answered by the URL store, any other URL by the network [net];
    [None] is a rejection. *)
Definition fetchBlob (net : string -> option Blob) (url : string) (br : Browser)
    : option Blob :=
  if String.prefix "blob:" url then URL.live (objectUrls br) !! url else net url.

(** A rejected [fetch] is caught and logged: nothing is saved. *)
Definition handleDownloadAudio (net : string -> option Blob) (entry : JournalEntry)
    (br : Browser) : Browser :=
  match audioBlob entry with
  | Some blob => downloadBlob blob (id entry +:+ ".webm") br
  | None =>
      if truthy (audioUrl entry) then
        match fetchBlob net (default EmptyString (audioUrl entry)) br with
        | Some blob => downloadBlob blob (id entry +:+ ".webm") br
        | None => br
        end
      else br
  end.

(** [new Blob([entry.transcript], { type: "text/plain" })] holds the
    transcript. *)
Definition handleExportTranscript (entry : JournalEntry) (br : Browser) : Browser :=
  downloadBlob (transcript entry) (id entry +:+ ".txt") br.

(** The effect of [JournalDetail] that chooses the audio source: the
    source, the URL store after the effect, and the URL that the cleanup
    of the effect revokes, if any. *)
Definition audioSrcEffect (entry : JournalEntry) (registry : URL.registry)
    : option string * URL.registry * option string :=
  if truthy (audioUrl entry) then (audioUrl entry, registry, None)
  else
    match audioBlob entry with
    | None => (None, registry, None)
    | Some blob =>
        let (url, registry') := URL.createObjectURL blob registry in
        (Some url, registry', Some url)
    end.

Definition cleanup (url : option string) (registry : URL.registry) : URL.registry :=
  match url with
  | Some u => URL.revokeObjectURL u registry
  | None => registry
  end.

(** What the Settings page shows when [handleClear] is through. *)
Record SettingsView := {
  isClearing : bool;
  message : option string
}.

(** [handleClear] of [pages/Settings.tsx]:
    [try { await clearAll(); setMessage(...) } finally { setIsClearing(false) }]. *)
Definition handleClear (ok : bool) (w : World)
    : Completion unit * World * SettingsView :=
  match clearAll ok w with
  | (Returns _, w') =>
      (Returns tt, w',
       {| isClearing := false; message := Some "All journals cleared." |})
  | (Throws err, w') =>
      (Throws err, w', {| isClearing := false; message := None |})
  end.

(** [handleDelete] of [pages/JournalDetail.tsx]:
    [await removeEntry(entryId); navigate("/journals")], with the route
    navigated to, if any. *)
Definition handleDelete (ok : bool) (entryId : string) (w : World)
    : Completion unit * World * option string :=
  match removeEntry ok entryId w with
  | (Returns _, w') => (Returns tt, w', Some "/journals")
  | (Throws err, w') => (Throws err, w', None)
  end.

(* ===================================================================== *)
(** * More of the recorder: the clock and the unmount                     *)
(* ===================================================================== *)

(** The cleanup of the recorder's effect, run when the component is
    unmounted: [return () => { resetState(); }]. [resetState] stops the
    tracks and the timer and clears the refs. Its state setters are calls
    on a component that is being removed, which is not rendered again:
    the React state is left as it is. The revoke of the preview URL sits
    inside the updater passed to [setPreviewUrl], which React need not
    run for such a component: the registry is left as it is, and nothing
    is derived from a revoke at unmount. *)
Definition unmount (c : Recorder.Component) : Recorder.Component :=
  let c := Recorder.stopTracks c in
  {| Recorder.status := Recorder.status c;
     Recorder.elapsed := Recorder.elapsed c;
     Recorder.errorMessage := Recorder.errorMessage c;
     Recorder.previewUrl := Recorder.previewUrl c;
     Recorder.previewDuration := Recorder.previewDuration c;
     Recorder.mediaRecorderRef := Recorder.mediaRecorderRef c;
     Recorder.streamRef := Recorder.streamRef c;
     Recorder.chunksRef := [];
     Recorder.timerRef := Recorder.timerRef c;
     Recorder.elapsedRef := 0%float;
     Recorder.urls := Recorder.urls c;
     Recorder.intervals := Recorder.intervals c;
     Recorder.nextInterval := Recorder.nextInterval c;
     Recorder.openStreams := Recorder.openStreams c;
     Recorder.nextStream := Recorder.nextStream c;
     Recorder.emitted := Recorder.emitted c |}.

Fixpoint zeros (k : nat) : string :=
  match k with
  | 0 => EmptyString
  | S k' => String "0" (zeros k')
  end.

(** [s.padStart(n, "0")] *)
Definition padStart (n : nat) (s : string) : string :=
  zeros (n - String.length s) +:+ s.

(** [formatTime] of [components/Recorder.tsx], on a whole number of
    seconds: the component passes it [elapsed] and [previewDuration],
    which count timer ticks. [Math.floor(seconds / 60)] is then the
    quotient, [Math.floor(seconds % 60)] the remainder, and [toString]
    writes them in decimal digits. *)
Definition formatTime (seconds : N) : string :=
  let minutes := padStart 2 (pretty (seconds / 60)%N) in
  let remaining := padStart 2 (pretty (seconds mod 60)%N) in
  minutes +:+ ":" +:+ remaining.

(* ===================================================================== *)
(** * More vocabulary                                                     *)
(* ===================================================================== *)

(** The decimal digit of a number below ten. *)
Definition digitChar (d : N) : ascii := pretty_N_char d.

(** Each entry of the list was made after the next one, and no more than
    a day after it. *)
Fixpoint withinADay (l : list JournalEntry) : Prop :=
  match l with
  | a :: (b :: _) as l' =>
      (0 < timeOf a - timeOf b <= Date.MS_PER_DAY)%Z /\ withinADay l'
  | _ => True
  end.

(** The in-memory list mirrors the table: ids in memory are unique, every
    entry in memory is the record stored under its id (playback handle
    apart) and, once hydrated, every record has its entry in memory. *)
Definition mirrors (w : World) : Prop :=
  NoDup (id <$> all w)
  /\ keyed (journals w)
  /\ (forall e, e ∈ all w ->
        persisted <$> journals w !! id e = Some (persisted e))
  /\ (hydrated (state w) = true ->
      forall k r, journals w !! k = Some r -> exists e, e ∈ all w /\ id e = k).

(** Calls that respect the key: an added entry has an id that is not in
    memory, a patch leaves [id] alone. *)
Definition tidy (w : World) (o : Op) : Prop :=
  match o with
  | Add _ entry => id entry ∉ (id <$> all w)
  | Update _ _ patch => p_id patch = None
  | _ => True
  end.

(** A record with a recording. *)
Definition hasAudio (r : JournalEntry) : bool :=
  match audioBlob r with
  | Some _ => true
  | None => false
  end.

(** A run of the recorder that the rendered buttons allow: every handler
    is called from a button the component shows in the state the call is
    made in; the timer may fire at any time. *)
Fixpoint clickable (acts : list Recorder.Action) (c : Recorder.Component) : Prop :=
  match acts with
  | [] => True
  | a :: acts' =>
      match a with
      | Recorder.Tick _ => True
      | _ => Recorder.offered c a = true
      end
      /\ clickable acts' (Recorder.act a c)
  end.

(** Nothing is held: no recorder, no stream, no timer. *)
Definition quiet (c : Recorder.Component) : Prop :=
  Recorder.mediaRecorderRef c = None /\ Recorder.streamRef c = None
  /\ Recorder.timerRef c = None /\ Recorder.intervals c = []
  /\ Recorder.openStreams c = [].

(** What the recorder holds in each status. In the error status the
    stream of a start that threw after it was granted is still open. *)
Definition wellFormed (c : Recorder.Component) : Prop :=
  Recorder.elapsed c = Recorder.elapsedRef c
  /\ match Recorder.status c with
     | Recorder.idle =>
         quiet c /\ Recorder.previewUrl c = None
         /\ URL.live (Recorder.urls c) = ∅
         /\ Recorder.elapsedRef c = 0%float
     | Recorder.error =>
         Recorder.timerRef c = None /\ Recorder.intervals c = []
         /\ Recorder.previewUrl c = None
         /\ URL.live (Recorder.urls c) = ∅
         /\ (Recorder.mediaRecorderRef c = None
             \/ Recorder.mediaRecorderRef c = Some Recorder.inactive)
         /\ ((Recorder.streamRef c = None /\ Recorder.openStreams c = []
              /\ Recorder.mediaRecorderRef c = None)
             \/ exists s, Recorder.streamRef c = Some s
                          /\ Recorder.openStreams c = [s])
     | Recorder.recording =>
         Recorder.mediaRecorderRef c = Some Recorder.rec_recording
         /\ (exists s, Recorder.streamRef c = Some s /\ Recorder.openStreams c = [s])
         /\ (exists t, Recorder.timerRef c = Some t /\ Recorder.intervals c = [t])
         /\ Recorder.previewUrl c = None
         /\ URL.live (Recorder.urls c) = ∅
     | Recorder.paused =>
         Recorder.mediaRecorderRef c = Some Recorder.rec_paused
         /\ (exists s, Recorder.streamRef c = Some s /\ Recorder.openStreams c = [s])
         /\ Recorder.intervals c = []
         /\ Recorder.previewUrl c = None
         /\ URL.live (Recorder.urls c) = ∅
     | Recorder.preview =>
         quiet c
         /\ (exists u, Recorder.previewUrl c = Some u /\ truthy (Some u) = true
                       /\ URL.live (Recorder.urls c)
                          = {[u := Recorder.Blob_of (Recorder.chunksRef c)]})
         /\ Recorder.previewDuration c = Recorder.elapsedRef c
     end.

(** The recordings started: the calls of [startRecording] that were
    granted the microphone and ran to their end. *)
Definition grantedStarts (acts : list Recorder.Action) : nat :=
  length (List.filter
            (fun a => match a with Recorder.Start true => true | _ => false end)
            acts).

(** What can still come out of the recordings started so far: the pairs
    emitted, a pending preview, a recorder in use. *)
Definition pending (c : Recorder.Component) : nat :=
  length (Recorder.emitted c)
  + (if truthy (Recorder.previewUrl c) then 1 else 0)
  + (match Recorder.mediaRecorderRef c with
     | Some Recorder.rec_recording | Some Recorder.rec_paused => 1
     | _ => 0
     end).

(* ===================================================================== *)
(** * More example data                                                   *)
(* ===================================================================== *)

(** A patch that gives an entry a title. *)
Definition retitled (t : string) : Patch :=
  {| p_id := None; p_createdAt := None; p_transcript := None;
     p_duration := None; p_audioBlob := None; p_audioUrl := None;
     p_encrypted := None; p_title := Some (Some t); p_emotion := None |}.

(** A browser in which no object URL exists and nothing was saved. *)
Definition newBrowser : Browser := {| objectUrls := URL.fresh; saved := [] |}.

(** A recording of one second, stopped: the recorder shows its preview. *)
Definition oneSecondTake : list Recorder.Action :=
  [Recorder.Start true; Recorder.Tick 1; Recorder.Pause; Recorder.Tick 1;
   Recorder.Pause; Recorder.Stop "take"].

(** The same recording, discarded: the recorder is idle again. *)
Definition discardedTake : list Recorder.Action :=
  oneSecondTake ++ [Recorder.Discard].

(* ===================================================================== *)
(** * Proof tactics                                                       *)
(* ===================================================================== *)

Ltac unfold_async :=
  unfold after, outcome, effects, perform, addEntry, updateEntry, removeEntry,
    clearAll, hydrate, getAllJournals, loadRecord, saveJournal, deleteJournal,
    clearJournals, audioUrlOrDerived, revokeAudioUrl,
    orderBy_createdAt_reverse_toArray, table_put, table_delete, table_clear,
    createObjectURL, revokeObjectURL, set, get, bind, ret,
    URL.createObjectURL, URL.revokeObjectURL in *.

Ltac wsimpl :=
  cbn [after outcome fst snd state journals urls log entries hydrated
       with_state with_journals with_urls with_entries logged perform
       URL.minted URL.live] in *.

(* ===================================================================== *)
(** * Facts about the monad and the persistence layer                     *)
(* ===================================================================== *)

Section WriteFails.

Variable w : World.

Lemma addEntry_rejected (entry : JournalEntry) :
  outcome (addEntry false entry) w = Throws PersistenceError
  /\ state (after (addEntry false entry) w) = state w
  /\ journals (after (addEntry false entry) w) = journals w.
Proof.
  unfold_async.
  destruct (audioUrl entry) as [u|]; [|destruct (audioBlob entry) as [b|]];
    wsimpl; auto.
Qed.

Lemma updateEntry_rejected (key : string) (patch : Patch) :
  outcome (updateEntry false key patch) w
    = match getEntry key (state w) with
      | Some _ => Throws PersistenceError
      | None => Returns tt
      end
  /\ state (after (updateEntry false key patch) w) = state w
  /\ journals (after (updateEntry false key patch) w) = journals w.
Proof.
  unfold_async. unfold getEntry.
  destruct (List.find (hasId key) (entries (state w))) as [existing|]; wsimpl; auto.
  destruct (p_audioBlob patch) as [[blob|]|]; wsimpl; auto.
  destruct (isBlobUrl existing) as [u|]; wsimpl; auto.
Qed.

Lemma removeEntry_rejected (key : string) :
  outcome (removeEntry false key) w = Throws PersistenceError
  /\ state (after (removeEntry false key) w) = state w
  /\ journals (after (removeEntry false key) w) = journals w.
Proof. unfold_async. wsimpl. auto. Qed.

End WriteFails.

(* ===================================================================== *)
(** * The order of effects in [updateEntry]                               *)
(* ===================================================================== *)

Lemma effects_app {A} (m : Async A) (w : World) (evs : list Effect) :
  log (after m w) = log w ++ evs -> effects m w = evs.
Proof. unfold effects. intros ->. apply drop_app_length. Qed.

Lemma updateEntry_effects (w : World) (ok : bool) (key : string)
    (patch : Patch) (blob : Blob) (existing : JournalEntry) :
  getEntry key (state w) = Some existing ->
  p_audioBlob patch = Some (Some blob) ->
  let fresh := URL.nth_url (URL.minted (urls w)) in
  let updated := with_audioUrl (Some fresh) (spread existing patch) in
  effects (updateEntry ok key patch) w
    = Created fresh
      :: match isBlobUrl existing with
         | Some old => [Revoked old]
         | None => []
         end
      ++ [Put ok (with_audioUrl None updated)].
Proof.
  intros Hfind Hblob fresh updated. apply effects_app.
  unfold getEntry in Hfind. unfold_async. rewrite Hfind, Hblob. simpl.
  destruct (isBlobUrl existing) as [old|]; destruct ok; simpl;
    rewrite <- ?app_assoc; reflexivity.
Qed.

(* ===================================================================== *)
(** * Facts about the recorder                                            *)
(* ===================================================================== *)

Section RecorderFacts.

Import Recorder.

Lemma resetState_settled (c : Component) :
  settled (resetState c) /\ status (resetState c) = idle
  /\ emitted (resetState c) = emitted c.
Proof. unfold settled, resetState, stopTracks. simpl. auto. Qed.

Lemma act_settled (a : Action) (c : Component) :
  isStart a = false -> settled c ->
  settled (act a c) /\ emitted (act a c) = emitted c.
Proof.
  intros Ha [Hp Hm]. destruct a as [g| |data| | |t|f]; simpl in *.
  - discriminate.
  - unfold handlePause. rewrite Hm. split; [split|]; auto.
  - unfold handleStop. rewrite Hm. split; [split|]; auto.
  - unfold handleDiscard. destruct (resetState_settled c) as (H1 & _ & H3). auto.
  - unfold handleSave. rewrite Hp. simpl. split; [split|]; auto.
  - unfold tick. destruct (existsb (Nat.eqb t) (intervals c)); simpl;
      split; try split; auto.
  - discriminate.
Qed.

Lemma run_settled (acts : list Action) (c : Component) :
  forallb (fun a => negb (isStart a)) acts = true -> settled c ->
  settled (Recorder.run acts c) /\ emitted (Recorder.run acts c) = emitted c.
Proof.
  revert c. induction acts as [|a acts IH]; intros c Hacts Hc; simpl in *.
  - auto.
  - apply andb_prop in Hacts as [Ha Hacts]. apply negb_true_iff in Ha.
    destruct (act_settled a c Ha Hc) as [Hs He].
    destruct (IH (act a c) Hacts Hs) as [Hs' He']. split; [auto | congruence].
Qed.

Lemma handleSave_emits (c : Component) (out : Blob * number) :
  emitted (handleSave c) = emitted c ++ [out] ->
  truthy (previewUrl c) = true
  /\ out = (Blob_of (chunksRef c), previewDuration c).
Proof.
  unfold handleSave. destruct (truthy (previewUrl c)); simpl.
  - intros H. apply app_inv_head in H. split; congruence.
  - intros H. exfalso. apply (f_equal (@length _)) in H.
    rewrite length_app in H. simpl in H. lia.
Qed.

End RecorderFacts.

(* ===================================================================== *)
(** * Facts about [split], [join] and the first words                     *)
(* ===================================================================== *)

Lemma split_nonempty (s : string) : split s <> [].
Proof.
  destruct s as [|c s]; simpl; [discriminate|].
  destruct (Ascii.eqb c " "); [discriminate|].
  destruct (split s); discriminate.
Qed.

Lemma join_cons_char (c : ascii) (piece : string) (l : list string) :
  join (String c piece :: l) = String c (join (piece :: l)).
Proof. destruct l; reflexivity. Qed.

Lemma join_slice_split (n : nat) (s : string) :
  join (slice0 (S n) (split s)) = upToSpace (S n) s.
Proof.
  unfold slice0. revert n. induction s as [|c s IH]; intros n; simpl.
  - destruct n; reflexivity.
  - destruct (Ascii.eqb c " ") eqn:Hc.
    + apply Ascii.eqb_eq in Hc. subst c. simpl.
      destruct n as [|n]; [reflexivity|].
      rewrite <- IH.
      destruct (split s) as [|piece pieces] eqn:Hs;
        [exfalso; eapply split_nonempty; eauto|].
      reflexivity.
    + rewrite <- IH.
      destruct (split s) as [|piece pieces] eqn:Hs;
        [exfalso; eapply split_nonempty; eauto|].
      simpl. apply join_cons_char.
Qed.

Lemma split_spaceFree (piece : string) :
  spaceFree piece = true -> split piece = [piece].
Proof.
  induction piece as [|c piece IH]; simpl; [reflexivity|].
  intros H. apply andb_prop in H as [Hc Hp]. apply negb_true_iff in Hc.
  rewrite Hc, (IH Hp). reflexivity.
Qed.

Lemma split_spaceFree_app (piece s : string) :
  spaceFree piece = true ->
  split (piece +:+ " " +:+ s) = piece :: split s.
Proof.
  induction piece as [|c piece IH]; simpl; [reflexivity|].
  intros H. apply andb_prop in H as [Hc Hp]. apply negb_true_iff in Hc.
  rewrite Hc, (IH Hp). reflexivity.
Qed.

Lemma split_join_words (ws : list string) :
  ws <> [] -> Forall (fun piece => isWord piece = true) ws ->
  split (join ws) = ws.
Proof.
  induction ws as [|piece ws IH]; intros Hne Hws; [congruence|].
  inversion Hws as [|? ? Hpiece Hrest]; subst.
  unfold isWord in Hpiece. apply andb_prop in Hpiece as [_ Hfree].
  destruct ws as [|piece' ws].
  - simpl. apply split_spaceFree; assumption.
  - change (join (piece :: piece' :: ws))
      with (piece +:+ " " +:+ join (piece' :: ws)).
    rewrite split_spaceFree_app by assumption.
    rewrite IH; [reflexivity | discriminate | assumption].
Qed.

Lemma join_words_truthy (ws : list string) :
  ws <> [] -> Forall (fun piece => isWord piece = true) ws ->
  truthy (Some (join ws)) = true.
Proof.
  intros Hne Hws. destruct ws as [|piece ws]; [congruence|].
  inversion Hws as [|? ? Hpiece _]; subst.
  unfold isWord in Hpiece. apply andb_prop in Hpiece as [Hpiece _].
  destruct piece as [|c piece]; [discriminate|].
  destruct ws; reflexivity.
Qed.

(* ===================================================================== *)
(** * Facts about [Array_sort] and the streak                             *)
(* ===================================================================== *)

Lemma insertSorted_Permutation {A} (cmp : A -> A -> option Z) (x : A) (l : list A) :
  insertSorted cmp x l ≡ₚ x :: l.
Proof.
  induction l as [|y l IH]; simpl; [reflexivity|].
  destruct (goesAfter cmp x y); [|reflexivity].
  rewrite IH. apply Permutation_swap.
Qed.

Lemma Array_sort_Permutation {A} (cmp : A -> A -> option Z) (l : list A) :
  Array_sort cmp l ≡ₚ l.
Proof.
  induction l as [|x l IH]; simpl; [reflexivity|].
  rewrite insertSorted_Permutation. by rewrite IH.
Qed.

Lemma dated_getTime (e : JournalEntry) : dated e -> getTime e = Some (timeOf e).
Proof. intros [t Ht]. unfold timeOf. rewrite Ht. reflexivity. Qed.

Lemma goesAfter_newestFirst (a b : JournalEntry) :
  dated a -> dated b ->
  goesAfter newestFirst a b = (timeOf a <? timeOf b)%Z.
Proof.
  intros Ha Hb. unfold goesAfter, newestFirst.
  rewrite (dated_getTime a Ha), (dated_getTime b Hb).
  destruct (Z.ltb_spec 0 (timeOf b - timeOf a)),
           (Z.ltb_spec (timeOf a) (timeOf b)); auto; lia.
Qed.

Lemma insertSorted_Sorted (x : JournalEntry) (l : list JournalEntry) :
  dated x -> Forall dated l ->
  Sorted notOlder l -> Sorted notOlder (insertSorted newestFirst x l).
Proof.
  intros Hx Hl Hs. induction l as [|y l IH]; simpl.
  - repeat constructor.
  - inversion Hl as [|? ? Hy Hl']; subst.
    inversion Hs as [|? ? Hs' Hhd]; subst.
    rewrite goesAfter_newestFirst by assumption.
    destruct (Z.ltb_spec (timeOf x) (timeOf y)) as [Hlt|Hge].
    + constructor; [auto|].
      specialize (IH Hl' Hs').
      destruct l as [|z l]; simpl in *.
      * constructor. unfold notOlder. lia.
      * inversion Hl' as [|? ? Hz _]; subst.
        rewrite goesAfter_newestFirst by assumption.
        destruct (Z.ltb_spec (timeOf x) (timeOf z)).
        -- constructor. inversion Hhd; assumption.
        -- constructor. unfold notOlder. lia.
    + constructor; [assumption|]. constructor. unfold notOlder. lia.
Qed.

Lemma Forall_dated_sort (l : list JournalEntry) :
  Forall dated l -> Forall dated (Array_sort newestFirst l).
Proof. intros H. by rewrite Array_sort_Permutation. Qed.

#[local] Instance notOlder_trans : Transitive notOlder.
Proof. unfold notOlder. intros a b c. lia. Qed.

Lemma Array_sort_Sorted (l : list JournalEntry) :
  Forall dated l -> StronglySorted notOlder (Array_sort newestFirst l).
Proof.
  intros H. apply Sorted_StronglySorted; [apply _|].
  induction H as [|x l Hx Hl IH]; simpl; [constructor|].
  apply insertSorted_Sorted; auto using Forall_dated_sort.
Qed.

Lemma walk_times (c : option Z) (r1 r2 : list JournalEntry) (n : nat) :
  getTime <$> r1 = getTime <$> r2 -> walk c r1 n = walk c r2 n.
Proof.
  revert c r2 n. induction r1 as [|a r1 IH]; intros c [|b r2] n H;
    simpl in *; try discriminate; [reflexivity|].
  injection H as Hab Hrest. rewrite Hab.
  destruct (diffDays c (getTime b)) as [[|[]|]|]; auto.
Qed.

#[local] Instance Zge_antisym : AntiSymm eq (fun x y : Z => (y <= x)%Z).
Proof. intros x y. lia. Qed.

Lemma sorted_times_unique (l l' : list JournalEntry) :
  Forall dated l -> l ≡ₚ l' ->
  getTime <$> Array_sort newestFirst l = getTime <$> Array_sort newestFirst l'.
Proof.
  intros Hl Hperm.
  assert (Hl' : Forall dated l') by (by rewrite <- Hperm).
  assert (Ht : timeOf <$> Array_sort newestFirst l
               = timeOf <$> Array_sort newestFirst l').
  { apply (StronglySorted_unique (fun x y : Z => (y <= x)%Z)).
    - eapply StronglySorted_fmap, Array_sort_Sorted; [|assumption]. auto.
    - eapply StronglySorted_fmap, Array_sort_Sorted; [|assumption]. auto.
    - apply fmap_Permutation.
      by rewrite !Array_sort_Permutation. }
  assert (Hsome : forall k, Forall dated k ->
                    getTime <$> k = Some <$> (timeOf <$> k)).
  { intros k Hk. induction Hk as [|e k He Hk IH]; [reflexivity|].
    rewrite !fmap_cons, IH, (dated_getTime e He). reflexivity. }
  rewrite !Hsome by auto using Forall_dated_sort. by rewrite Ht.
Qed.

(* ===================================================================== *)
(** * Facts about the order of strings and of the index                   *)
(* ===================================================================== *)

Lemma compare_refl (x : string) : String.compare x x = Eq.
Proof. by apply String_as_OT.cmp_eq. Qed.

Lemma leb_iff (x y : string) :
  String.leb x y = true <-> String_as_OT.lt x y \/ x = y.
Proof.
  unfold String.leb. destruct (String.compare x y) eqn:Hc.
  - apply String_as_OT.cmp_eq in Hc. tauto.
  - apply String_as_OT.cmp_lt in Hc. tauto.
  - split; [discriminate|]. intros [H| ->].
    + apply String_as_OT.cmp_lt in H. unfold String_as_OT.cmp in H. congruence.
    + rewrite compare_refl in Hc. discriminate.
Qed.

Lemma lt_irrefl (x : string) : ~ String_as_OT.lt x x.
Proof. intros H. by apply String_as_OT.lt_not_eq in H. Qed.

Lemma leb_refl (x : string) : String.leb x x = true.
Proof. apply leb_iff. auto. Qed.

Lemma leb_trans (x y z : string) :
  String.leb x y = true -> String.leb y z = true -> String.leb x z = true.
Proof.
  rewrite !leb_iff. intros [H1| ->] [H2| ->]; auto.
  left. eapply String_as_OT.lt_trans; eauto.
Qed.

Lemma indexBefore_iff (a b : JournalEntry) :
  indexOrder a b <->
  String_as_OT.lt (createdAt b) (createdAt a)
  \/ (createdAt b = createdAt a /\ String.leb (id b) (id a) = true).
Proof.
  unfold indexOrder, indexBefore.
  destruct (String.compare (createdAt b) (createdAt a)) eqn:Hc.
  - apply String_as_OT.cmp_eq in Hc. rewrite Is_true_true.
    split; [auto|]. intros [H|[_ H]]; [|done].
    rewrite Hc in H. by apply lt_irrefl in H.
  - apply String_as_OT.cmp_lt in Hc. simpl. tauto.
  - simpl. split; [done|]. intros [H|[H _]].
    + apply String_as_OT.cmp_lt in H. unfold String_as_OT.cmp in H. congruence.
    + rewrite H, compare_refl in Hc. discriminate.
Qed.

#[local] Instance indexOrder_trans : Transitive indexOrder.
Proof.
  intros a b c. rewrite !indexBefore_iff.
  intros [H1|[E1 L1]] [H2|[E2 L2]].
  - left. eapply String_as_OT.lt_trans; eauto.
  - left. congruence.
  - left. congruence.
  - right. split; [congruence|]. eapply leb_trans; eauto.
Qed.

#[local] Instance indexOrder_total : Total indexOrder.
Proof.
  intros a b. unfold indexOrder, indexBefore.
  rewrite (String.compare_antisym (createdAt b) (createdAt a)).
  destruct (String.compare (createdAt a) (createdAt b)); simpl; auto.
  destruct (String.leb_total (id a) (id b)) as [H|H]; rewrite H; simpl; auto.
Qed.

Lemma indexOrder_createdAtDesc (a b : JournalEntry) :
  indexOrder a b -> createdAtDesc a b.
Proof.
  rewrite indexBefore_iff. unfold createdAtDesc.
  intros [H|[H _]]; apply leb_iff; auto.
Qed.

#[local] Instance createdAtDesc_trans : Transitive createdAtDesc.
Proof. intros a b c H1 H2. unfold createdAtDesc in *. eapply leb_trans; eauto. Qed.

Lemma toArray_sorted (t : gmap string JournalEntry) :
  StronglySorted indexOrder (merge_sort indexOrder (records t)).
Proof. apply StronglySorted_merge_sort; apply _. Qed.

(* ===================================================================== *)
(** * Facts about object URLs and loading records                         *)
(* ===================================================================== *)

Lemma nth_url_inj (j k : nat) : URL.nth_url j = URL.nth_url k -> j = k.
Proof.
  unfold URL.nth_url. intros H. apply String.app_inj in H.
  by apply pretty_nat_inj in H.
Qed.

Lemma nth_url_blob (k : nat) : String.prefix "blob:" (URL.nth_url k) = true.
Proof. unfold URL.nth_url, append. cbn. by destruct (pretty k). Qed.

Lemma fresh_registry_ok : registry_ok URL.fresh.
Proof. intros u [b Hb]. simpl in Hb. by rewrite lookup_empty in Hb. Qed.

Lemma next_url_not_live (r : URL.registry) :
  registry_ok r -> URL.live r !! URL.nth_url (URL.minted r) = None.
Proof.
  intros Hr. destruct (URL.live r !! URL.nth_url (URL.minted r)) eqn:E; [|done].
  destruct (Hr _ (mk_is_Some _ _ E)) as (k & Hk & Heq).
  apply nth_url_inj in Heq. lia.
Qed.

Lemma mints_refl (w : World) : registry_ok (urls w) -> mints w w.
Proof. unfold mints. auto 10. Qed.

Lemma mints_trans (w1 w2 w3 : World) : mints w1 w2 -> mints w2 w3 -> mints w1 w3.
Proof.
  unfold mints. intros (S1 & J1 & _ & M1 & L1) (S2 & J2 & R2 & M2 & L2).
  repeat split; try congruence; auto. lia.
Qed.

Lemma loadedFrom_mints (w w' : World) (r e : JournalEntry) :
  mints w w' -> loadedFrom w r e -> loadedFrom w' r e.
Proof.
  intros (_ & _ & _ & _ & HL) [Hp Hu]. split; [assumption|].
  destruct (audioUrl r), (audioBlob r); auto.
  destruct Hu as (u & H1 & H2 & H3). eauto 10.
Qed.

Lemma loadRecord_spec (r : JournalEntry) (w : World) :
  registry_ok (urls w) ->
  exists e w',
    loadRecord r w = (Returns e, w')
    /\ mints w w' /\ loadedFrom w' r e
    /\ (forall u, is_Some (URL.live (urls w') !! u) ->
                  is_Some (URL.live (urls w) !! u) \/ audioUrl e = Some u).
Proof.
  intros Hw. unfold loadRecord, audioUrlOrDerived, loadedFrom.
  destruct (audioUrl r) as [u|] eqn:Hu; [|destruct (audioBlob r) as [b|] eqn:Hb].
  - exists (with_audioUrl (Some u) r), w. unfold_async.
    repeat split; auto using mints_refl.
  - eexists _, _. unfold_async. simpl. split; [reflexivity|].
    pose proof (next_url_not_live _ Hw) as Hfresh.
    split; [|split].
    + repeat split; simpl; auto.
      * intros u [b' Hb']. cbn in *.
        destruct (decide (u = URL.nth_url (URL.minted (urls w)))) as [->|Hne].
        -- exists (URL.minted (urls w)). split; [lia|done].
        -- rewrite lookup_insert_ne in Hb' by done.
           destruct (Hw u (mk_is_Some _ _ Hb')) as (k & Hk & ->).
           exists k. split; [lia|done].
      * intros u b' Hb'. rewrite lookup_insert_ne; [done|].
        intros <-. congruence.
    + split; [reflexivity|]. simpl.
      exists (URL.nth_url (URL.minted (urls w))). split; [done|].
      split; [apply nth_url_blob|]. by rewrite lookup_insert_eq.
    + simpl. intros u Hu'.
      destruct (decide (u = URL.nth_url (URL.minted (urls w)))) as [->|Hne]; [auto|].
      rewrite lookup_insert_ne in Hu' by done. auto.
  - exists (with_audioUrl None r), w. unfold_async.
    repeat split; auto using mints_refl.
Qed.

Lemma loadRecords_spec (l : list JournalEntry) (w : World) :
  registry_ok (urls w) ->
  exists l' w',
    mapAsync loadRecord l w = (Returns l', w')
    /\ mints w w' /\ Forall2 (loadedFrom w') l l'
    /\ (forall u, is_Some (URL.live (urls w') !! u) ->
                  is_Some (URL.live (urls w) !! u)
                  \/ exists e, e ∈ l' /\ audioUrl e = Some u).
Proof.
  revert w. induction l as [|r l IH]; intros w Hw.
  - exists [], w. repeat split; auto using mints_refl.
  - destruct (loadRecord_spec r w Hw) as (e & w1 & Hrun1 & Hm1 & Hl1 & Hu1).
    assert (Hw1 : registry_ok (urls w1)) by apply Hm1.
    destruct (IH w1 Hw1) as (l' & w2 & Hrun2 & Hm2 & Hl2 & Hu2).
    exists (e :: l'), w2. split; [|split; [|split]].
    + simpl. unfold bind at 1. rewrite Hrun1.
      unfold bind at 1. rewrite Hrun2. reflexivity.
    + eapply mints_trans; eauto.
    + constructor; [eapply loadedFrom_mints; eauto | assumption].
    + intros u Hu. destruct (Hu2 u Hu) as [H|(e' & He' & Hurl)].
      * destruct (Hu1 u H) as [H'|H']; [auto|].
        right. exists e. split; [apply list_elem_of_here | assumption].
      * right. exists e'. split; [by apply list_elem_of_further | assumption].
Qed.

Lemma bind_returns {A B} (m : Async A) (k : A -> Async B) (w w' : World) (a : A) :
  m w = (Returns a, w') -> bind m k w = k a w'.
Proof. unfold bind. by intros ->. Qed.

Lemma bind_throws {A B} (m : Async A) (k : A -> Async B) (w w' : World) (err : Error) :
  m w = (Throws err, w') -> bind m k w = (Throws err, w').
Proof. unfold bind. by intros ->. Qed.

Lemma loadRecords_persisted (l : list JournalEntry) (w : World) :
  exists l' w',
    mapAsync loadRecord l w = (Returns l', w')
    /\ persisted <$> l' = persisted <$> l
    /\ state w' = state w /\ journals w' = journals w.
Proof.
  revert w. induction l as [|r l IH]; intros w.
  - exists [], w. auto.
  - assert (H1 : exists e w1, loadRecord r w = (Returns e, w1)
                   /\ persisted e = persisted r
                   /\ state w1 = state w /\ journals w1 = journals w).
    { unfold loadRecord, audioUrlOrDerived.
      destruct (audioUrl r) as [u|]; [|destruct (audioBlob r) as [b|]];
        eexists _, _; unfold_async; simpl; auto. }
    destruct H1 as (e & w1 & Hrun1 & Hp1 & Hs1 & Hj1).
    destruct (IH w1) as (l' & w2 & Hrun2 & Hp2 & Hs2 & Hj2).
    exists (e :: l'), w2. split.
    { simpl.
      by rewrite (bind_returns _ _ _ _ _ Hrun1), (bind_returns _ _ _ _ _ Hrun2). }
    rewrite !fmap_cons, Hp1, Hp2. repeat split; congruence.
Qed.

(** [hydrate] on a state that is not hydrated, when the read succeeds. *)
Lemma hydrate_loads (w : World) :
  hydrated (state w) = false ->
  exists loaded w1,
    mapAsync loadRecord (merge_sort indexOrder (records (journals w)))
             (logged (ToArray true) w) = (Returns loaded, w1)
    /\ hydrate true w
       = (Returns tt, with_state {| entries := loaded; hydrated := true |} w1).
Proof.
  intros Hh.
  destruct (loadRecords_persisted (merge_sort indexOrder (records (journals w)))
              (logged (ToArray true) w)) as (loaded & w1 & Hrun & _).
  exists loaded, w1. split; [assumption|].
  unfold hydrate. unfold bind at 1. unfold get. rewrite Hh.
  erewrite bind_returns; [reflexivity|].
  unfold getAllJournals. erewrite bind_returns; [exact Hrun|reflexivity].
Qed.

Lemma hydrate_hydrated (ok : bool) (w : World) :
  hydrated (state w) = true -> hydrate ok w = (Returns tt, w).
Proof. intros H. unfold hydrate, get, bind, ret. by rewrite H. Qed.

Lemma hydrate_rejected (w : World) :
  hydrated (state w) = false ->
  outcome (hydrate false) w = Throws PersistenceError
  /\ state (after (hydrate false) w) = state w
  /\ urls (after (hydrate false) w) = urls w
  /\ journals (after (hydrate false) w) = journals w.
Proof. intros H. unfold_async. rewrite H. wsimpl. auto. Qed.

Lemma StronglySorted_persisted (R : relation JournalEntry) (l : list JournalEntry) :
  (forall a b, R a b <-> R (persisted a) (persisted b)) ->
  StronglySorted R l <-> StronglySorted R (persisted <$> l).
Proof.
  intros HR. induction l as [|a l IH].
  - split; constructor.
  - rewrite fmap_cons. split; intros H; inversion H as [|? ? Hs Hf]; subst.
    + constructor; [by apply IH|].
      apply Forall_fmap. eapply Forall_impl; [exact Hf|]. intros b. apply HR.
    + constructor; [by apply IH|].
      rewrite Forall_fmap in Hf. eapply Forall_impl; [exact Hf|].
      intros b. apply HR.
Qed.

Lemma createdAtDesc_persisted (a b : JournalEntry) :
  createdAtDesc a b <-> createdAtDesc (persisted a) (persisted b).
Proof.
  unfold createdAtDesc, persisted, with_audioUrl. cbn [createdAt]. tauto.
Qed.

Lemma notOlder_persisted (a b : JournalEntry) :
  notOlder a b <-> notOlder (persisted a) (persisted b).
Proof.
  unfold notOlder, timeOf, getTime, persisted, with_audioUrl.
  cbn [createdAt]. tauto.
Qed.

Lemma toArray_createdAtDesc (t : gmap string JournalEntry) :
  StronglySorted createdAtDesc (merge_sort indexOrder (records t)).
Proof.
  pose proof (toArray_sorted t) as H.
  induction H as [|a l Hs IH Hf]; constructor; [assumption|].
  eapply Forall_impl; [exact Hf|]. apply indexOrder_createdAtDesc.
Qed.

Lemma revokeAll_state (l : list JournalEntry) (w : World) :
  exists x w',
    mapAsync revokeAudioUrl l w = (Returns x, w')
    /\ state w' = state w /\ journals w' = journals w.
Proof.
  revert w. induction l as [|e l IH]; intros w.
  - exists [], w. auto.
  - assert (H1 : exists w1, revokeAudioUrl e w = (Returns tt, w1)
                   /\ state w1 = state w /\ journals w1 = journals w).
    { unfold revokeAudioUrl, revokeObjectURL, ret.
      destruct (isBlobUrl e); eexists; eauto. }
    destruct H1 as (w1 & Hr1 & Hs1 & Hj1).
    destruct (IH w1) as (x & w2 & Hr2 & Hs2 & Hj2).
    exists (tt :: x), w2. split; [|split; congruence].
    cbn [mapAsync].
    by rewrite (bind_returns _ _ _ _ _ Hr1), (bind_returns _ _ _ _ _ Hr2).
Qed.

(** Once hydrated, always hydrated: no operation resets the flag. *)
Lemma hydrated_stable (o : Op) (w : World) :
  hydrated (state w) = true -> hydrated (state (after (perform o) w)) = true.
Proof.
  intros H. destruct o as [ok entry|ok key patch|ok key|ok|ok]; cbn [perform].
  - unfold_async.
    destruct (audioUrl entry); [|destruct (audioBlob entry)];
      destruct ok; wsimpl; auto.
  - unfold_async.
    destruct (List.find (hasId key) (entries (state w))) as [existing|]; wsimpl; auto.
    destruct (p_audioBlob patch) as [[blob|]|]; wsimpl;
      try (destruct ok; wsimpl; auto).
    all: destruct (isBlobUrl existing); wsimpl; auto.
  - unfold_async. destruct ok; wsimpl; auto.
    destruct (List.find (hasId key) (entries (state w))) as [e|]; wsimpl; auto.
    destruct (isBlobUrl e); wsimpl; auto.
  - unfold after, clearAll, clearJournals, table_clear. destruct ok.
    + erewrite bind_returns; [|reflexivity].
      erewrite bind_returns; [|reflexivity].
      destruct (revokeAll_state
                  (entries (state (logged (ClearTable true) (with_journals ∅ w))))
                  (logged (ClearTable true) (with_journals ∅ w)))
        as (x & w1 & Hr & Hs & _).
      erewrite bind_returns; [|exact Hr].
      unfold set. wsimpl. rewrite Hs. wsimpl. assumption.
    + erewrite bind_throws; [|reflexivity]. wsimpl. assumption.
  - unfold after. rewrite hydrate_hydrated by assumption. assumption.
Qed.

Lemma hydrated_run (ops : list Op) (w : World) :
  hydrated (state w) = true -> hydrated (state (run ops w)) = true.
Proof.
  revert w. induction ops as [|o ops IH]; intros w H; simpl; [assumption|].
  apply IH, hydrated_stable, H.
Qed.

(* ===================================================================== *)
(** * Handle hygiene                                                      *)
(* ===================================================================== *)

Lemma keyed_insert (t : gmap string JournalEntry) (r : JournalEntry) :
  keyed t -> keyed (<[id r := r]> t).
Proof.
  intros Ht k r' H. destruct (decide (id r = k)) as [<-|Hne].
  - rewrite lookup_insert_eq in H. congruence.
  - rewrite lookup_insert_ne in H by done. by apply Ht.
Qed.

Lemma keyed_delete (t : gmap string JournalEntry) (key : string) :
  keyed t -> keyed (delete key t).
Proof.
  intros Ht k r H. destruct (decide (key = k)) as [<-|Hne].
  - by rewrite lookup_delete_eq in H.
  - rewrite lookup_delete_ne in H by done. by apply Ht.
Qed.

Lemma keyed_empty : keyed ∅.
Proof. intros k r H. by rewrite lookup_empty in H. Qed.

Lemma registry_ok_mint (b : Blob) (r : URL.registry) :
  registry_ok r -> registry_ok (URL.createObjectURL b r).2.
Proof.
  intros Hr u [b' Hb']. cbn in *.
  destruct (decide (u = URL.nth_url (URL.minted r))) as [->|Hne].
  - exists (URL.minted r). split; [lia|done].
  - rewrite lookup_insert_ne in Hb' by done.
    destruct (Hr u (mk_is_Some _ _ Hb')) as (k & Hk & ->).
    exists k. split; [lia|done].
Qed.

Lemma registry_ok_revoke (u : string) (r : URL.registry) :
  registry_ok r -> registry_ok (URL.revokeObjectURL u r).
Proof.
  intros Hr v [b Hb]. cbn in *.
  destruct (decide (u = v)) as [->|Hne].
  - by rewrite lookup_delete_eq in Hb.
  - rewrite lookup_delete_ne in Hb by done. exact (Hr v (mk_is_Some _ _ Hb)).
Qed.

Lemma live_prefix (r : URL.registry) (u : string) :
  registry_ok r -> is_Some (URL.live r !! u) -> String.prefix "blob:" u = true.
Proof. intros Hr Hu. destruct (Hr u Hu) as (k & _ & ->). apply nth_url_blob. Qed.

Lemma ids_unique (l : list JournalEntry) (a b : JournalEntry) :
  NoDup (id <$> l) -> a ∈ l -> b ∈ l -> id a = id b -> a = b.
Proof.
  induction l as [|x l IH]; intros Hnd Ha Hb Hid; [by apply elem_of_nil in Ha|].
  rewrite fmap_cons in Hnd. apply NoDup_cons in Hnd as [Hx Hnd].
  apply elem_of_cons in Ha as [->|Ha]; apply elem_of_cons in Hb as [->|Hb]; auto.
  - exfalso. apply Hx. rewrite Hid. by apply list_elem_of_fmap_2.
  - exfalso. apply Hx. rewrite <- Hid. by apply list_elem_of_fmap_2.
Qed.

Lemma find_hasId (key : string) (l : list JournalEntry) (e : JournalEntry) :
  List.find (hasId key) l = Some e -> e ∈ l /\ id e = key.
Proof.
  intros H. apply find_some in H as [Hin Hid]. split.
  - by apply list_elem_of_In.
  - unfold hasId in Hid. by apply String.eqb_eq.
Qed.

Lemma find_hasId_none (key : string) (l : list JournalEntry) (e : JournalEntry) :
  List.find (hasId key) l = None -> e ∈ l -> id e <> key.
Proof.
  intros H Hin Hid. apply list_elem_of_In in Hin.
  pose proof (find_none _ _ H e Hin) as Hf. unfold hasId in Hf.
  apply String.eqb_neq in Hf. contradiction.
Qed.

Lemma hasId_true (key : string) (e : JournalEntry) : hasId key e = true <-> id e = key.
Proof. unfold hasId. apply String.eqb_eq. Qed.

Lemma isBlobUrl_live (r : URL.registry) (e : JournalEntry) (u : string) :
  registry_ok r -> audioUrl e = Some u -> is_Some (URL.live r !! u) ->
  isBlobUrl e = Some u.
Proof.
  intros Hr He Hu. unfold isBlobUrl. rewrite He.
  by rewrite (live_prefix r u Hr Hu).
Qed.

Lemma isBlobUrl_audioUrl (e : JournalEntry) (u : string) :
  isBlobUrl e = Some u -> audioUrl e = Some u.
Proof.
  unfold isBlobUrl. destruct (audioUrl e) as [v|]; [|done].
  destruct (String.prefix "blob:" v); congruence.
Qed.

Lemma referenced_cons (e : JournalEntry) (l : list JournalEntry) (u : string) :
  referenced l u -> referenced (e :: l) u.
Proof. intros (x & Hx & Hu). exists x. split; [by apply list_elem_of_further|done]. Qed.

Lemma referenced_here (e : JournalEntry) (l : list JournalEntry) (u : string) :
  audioUrl e = Some u -> referenced (e :: l) u.
Proof. intros Hu. exists e. split; [apply list_elem_of_here|done]. Qed.

Lemma registry_ok_minted (b : Blob) (r : URL.registry) :
  registry_ok r ->
  registry_ok {| URL.minted := S (URL.minted r);
                 URL.live := <[URL.nth_url (URL.minted r) := b]> (URL.live r) |}.
Proof. apply (registry_ok_mint b r). Qed.

Lemma registry_ok_deleted (u : string) (n : nat) (m : gmap string Blob) :
  registry_ok {| URL.minted := n; URL.live := m |} ->
  registry_ok {| URL.minted := n; URL.live := delete u m |}.
Proof. apply (registry_ok_revoke u {| URL.minted := n; URL.live := m |}). Qed.

(** [addEntry] in a world in which every live URL is the [audioUrl] of an
    entry in memory or the one the added entry brings. *)
Lemma addEntry_takes_over (w : World) (ok : bool) (entry : JournalEntry) :
  NoDup (id <$> all w) -> keyed (journals w) -> registry_ok (urls w) ->
  (forall u, is_Some (URL.live (urls w) !! u) ->
             referenced (all w) u \/ audioUrl entry = Some u) ->
  id entry ∉ (id <$> all w) ->
  ok = true \/ (audioUrl entry = None /\ audioBlob entry = None) ->
  hygienic (after (addEntry ok entry) w).
Proof.
  intros Hnd Hk Hr Hl Hfresh Hok. unfold hygienic, all in *.
  unfold_async.
  destruct (audioUrl entry) as [u|] eqn:Hu; [|destruct (audioBlob entry) as [b|] eqn:Hb];
    destruct ok; wsimpl;
    try (by destruct Hok as [?|[? ?]]; discriminate).
  - repeat split; auto.
    + rewrite fmap_cons. by apply NoDup_cons.
    + by apply (keyed_insert _ (with_audioUrl None (with_audioUrl (Some u) entry))).
    + intros v Hv. destruct (Hl v Hv) as [Href|[= <-]].
      * by apply referenced_cons.
      * by apply referenced_here.
  - repeat split; auto using registry_ok_minted.
    + rewrite fmap_cons. by apply NoDup_cons.
    + by apply (keyed_insert _ (with_audioUrl None (with_audioUrl _ entry))).
    + intros v Hv. destruct (decide (v = URL.nth_url (URL.minted (urls w)))) as [->|Hne].
      * by apply referenced_here.
      * rewrite lookup_insert_ne in Hv by done.
        destruct (Hl v Hv) as [Href|?]; [|discriminate].
        by apply referenced_cons.
  - repeat split; auto.
    + rewrite fmap_cons. by apply NoDup_cons.
    + by apply (keyed_insert _ (with_audioUrl None (with_audioUrl None entry))).
    + intros v Hv. destruct (Hl v Hv) as [Href|?]; [|discriminate].
      by apply referenced_cons.
  - repeat split; auto.
    intros v Hv. by destruct (Hl v Hv) as [Href|?]; [|discriminate].
Qed.

Lemma addEntry_hygienic (w : World) (ok : bool) (entry : JournalEntry) :
  hygienic w -> careful w (Add ok entry) ->
  hygienic (after (addEntry ok entry) w).
Proof.
  intros (Hnd & Hk & Hr & Hl) (Hfresh & Hu & Hok).
  apply addEntry_takes_over; auto.
  destruct Hok as [?|?]; auto.
Qed.

Lemma handleRecordingReady_hygienic (w : World)
    (response : option (option Transcription)) (uuid now : string) (ok : bool)
    (blob : Blob) (duration : number) :
  hygienic w ->
  carefulCall w (Recorded response uuid now ok blob duration) ->
  hygienic (snd (handleRecordingReady response uuid now ok blob duration w)).
Proof.
  intros Hw Hc. unfold handleRecordingReady.
  destruct response as [data|]; [|done].
  destruct Hc as [Hfresh ->]. destruct Hw as (Hnd & Hk & Hr & Hl).
  set (w1 := after (createObjectURL blob) w).
  set (url := URL.nth_url (URL.minted (urls w))).
  assert (Hrun : (url0 <- createObjectURL blob ;;
                  addEntry true (buildEntry uuid now data blob duration url0)) w
                 = addEntry true (buildEntry uuid now data blob duration url) w1).
  { reflexivity. }
  rewrite Hrun.
  assert (H1 : hygienic (after (addEntry true
                                  (buildEntry uuid now data blob duration url)) w1)).
  { apply addEntry_takes_over; auto.
    - subst w1. unfold_async. wsimpl. by apply registry_ok_minted.
    - intros v Hv. subst w1. unfold all in *. unfold_async. wsimpl.
      destruct (decide (v = url)) as [->|Hne]; [by right|].
      left. apply Hl. subst url. by rewrite lookup_insert_ne in Hv. }
  unfold after in H1.
  by destruct (addEntry true (buildEntry uuid now data blob duration url) w1)
    as [[?|?] ?].
Qed.

Lemma replace_ids (key : string) (updated : JournalEntry) (l : list JournalEntry) :
  id updated = key ->
  id <$> ((fun entry => if hasId key entry then updated else entry) <$> l) = id <$> l.
Proof.
  intros Hid. rewrite <- list_fmap_compose. apply list_fmap_ext.
  intros i e _. simpl. destruct (hasId key e) eqn:He; [|done].
  apply hasId_true in He. congruence.
Qed.

Lemma replace_elem (key : string) (updated e : JournalEntry) (l : list JournalEntry) :
  e ∈ l ->
  (if hasId key e then updated else e)
    ∈ (fun entry => if hasId key entry then updated else entry) <$> l.
Proof. intros H. by apply (list_elem_of_fmap_2 (fun entry => if hasId key entry then updated else entry)). Qed.

Lemma updateEntry_hygienic (w : World) (ok : bool) (key : string) (patch : Patch) :
  hygienic w -> careful w (Update ok key patch) ->
  hygienic (after (updateEntry ok key patch) w).
Proof.
  intros (Hnd & Hk & Hr & Hl) [Hpid Hpatch]. unfold hygienic, all in *.
  unfold_async.
  destruct (List.find (hasId key) (entries (state w))) as [existing|] eqn:Hfind;
    wsimpl; [|by auto].
  apply find_hasId in Hfind as [Hin Hid].
  assert (Hsid : id (spread existing patch) = key).
  { unfold spread. cbn [id]. by rewrite Hpid. }
  destruct (p_audioBlob patch) as [[blob|]|] eqn:Hblob; wsimpl.
  - subst ok.
    set (fresh := URL.nth_url (URL.minted (urls w))) in *.
    set (updated := with_audioUrl (Some fresh) (spread existing patch)).
    assert (Hstep : forall r : URL.registry,
              registry_ok r ->
              (forall v, is_Some (URL.live r !! v) ->
                         v = fresh \/ (is_Some (URL.live (urls w) !! v)
                                       /\ isBlobUrl existing <> Some v)) ->
              NoDup (id <$> ((fun entry => if hasId key entry then updated else entry)
                               <$> entries (state w)))
              /\ keyed (<[id (with_audioUrl None updated) := with_audioUrl None updated]>
                          (journals w))
              /\ registry_ok r
              /\ (forall v, is_Some (URL.live r !! v) ->
                    referenced ((fun entry => if hasId key entry then updated else entry)
                                  <$> entries (state w)) v)).
    { intros r Hr' Hlive. repeat split; auto.
      - by rewrite replace_ids.
      - by apply keyed_insert.
      - intros v Hv. destruct (Hlive v Hv) as [->|[Hv' Hnot]].
        + exists updated. split; [|done].
          pose proof (replace_elem key updated existing _ Hin) as H.
          by rewrite (proj2 (hasId_true key existing) Hid) in H.
        + destruct (Hl v Hv') as (e & He & Hue).
          destruct (hasId key e) eqn:Hke.
          * apply hasId_true in Hke.
            assert (e = existing) by (apply (ids_unique (entries (state w))); [done|done|done|congruence]). subst e.
            exfalso. apply Hnot. by eapply isBlobUrl_live.
          * exists e. split; [|done].
            pose proof (replace_elem key updated e _ He) as H. by rewrite Hke in H. }
    destruct (isBlobUrl existing) as [old|] eqn:Hold; wsimpl.
    + apply Hstep.
      * by apply registry_ok_deleted, registry_ok_minted.
      * intros v Hv. wsimpl. destruct (decide (old = v)) as [->|Hne];
          [by rewrite lookup_delete_eq in Hv|].
        rewrite lookup_delete_ne in Hv by done.
        destruct (decide (v = fresh)) as [->|Hne']; [by left|].
        rewrite lookup_insert_ne in Hv by done. right. split; [done|congruence].
    + apply Hstep.
      * by apply registry_ok_minted.
      * intros v Hv. wsimpl. destruct (decide (v = fresh)) as [->|Hne']; [by left|].
        rewrite lookup_insert_ne in Hv by done. right. split; [done|congruence].
  - destruct ok; wsimpl; [|by auto]. repeat split; auto.
    + by rewrite replace_ids.
    + by apply (keyed_insert _ (with_audioUrl None (spread existing patch))).
    + intros v Hv. destruct (Hl v Hv) as (e & He & Hue).
      destruct (hasId key e) eqn:Hke.
      * apply hasId_true in Hke.
        assert (e = existing) by (apply (ids_unique (entries (state w))); [done|done|done|congruence]). subst e.
        exists (spread existing patch). split.
        -- pose proof (replace_elem key (spread existing patch) existing _ Hin) as H.
           by rewrite (proj2 (hasId_true key existing) Hid) in H.
        -- unfold spread. cbn [audioUrl]. by rewrite Hpatch.
      * exists e. split; [|done].
        pose proof (replace_elem key (spread existing patch) e _ He) as H.
        by rewrite Hke in H.
  - destruct ok; wsimpl; [|by auto]. repeat split; auto.
    + by rewrite replace_ids.
    + by apply (keyed_insert _ (with_audioUrl None (spread existing patch))).
    + intros v Hv. destruct (Hl v Hv) as (e & He & Hue).
      destruct (hasId key e) eqn:Hke.
      * apply hasId_true in Hke.
        assert (e = existing) by (apply (ids_unique (entries (state w))); [done|done|done|congruence]). subst e.
        exists (spread existing patch). split.
        -- pose proof (replace_elem key (spread existing patch) existing _ Hin) as H.
           by rewrite (proj2 (hasId_true key existing) Hid) in H.
        -- unfold spread. cbn [audioUrl]. by rewrite Hpatch.
      * exists e. split; [|done].
        pose proof (replace_elem key (spread existing patch) e _ He) as H.
        by rewrite Hke in H.
Qed.

Lemma removeEntry_hygienic (w : World) (ok : bool) (key : string) :
  hygienic w -> hygienic (after (removeEntry ok key) w).
Proof.
  intros (Hnd & Hk & Hr & Hl). unfold hygienic, all in *.
  unfold_async. destruct ok; wsimpl; [|by auto].
  assert (Hnd' : NoDup (id <$> filter (fun item => id item <> key) (entries (state w)))).
  { eapply sublist_NoDup; [exact Hnd|apply fmap_sublist, sublist_filter]. }
  destruct (List.find (hasId key) (entries (state w))) as [found|] eqn:Hfind; wsimpl.
  - apply find_hasId in Hfind as [Hin Hid].
    destruct (isBlobUrl found) as [old|] eqn:Hold; wsimpl.
    + repeat split; auto using keyed_delete.
      * by apply registry_ok_deleted; destruct (urls w).
      * intros v Hv. destruct (decide (old = v)) as [->|Hne];
          [by rewrite lookup_delete_eq in Hv|].
        rewrite lookup_delete_ne in Hv by done.
        destruct (Hl v Hv) as (e & He & Hue). exists e. split; [|done].
        apply list_elem_of_filter. split; [|done]. intros Hke.
        assert (e = found) by (apply (ids_unique (entries (state w))); [done|done|done|congruence]). subst e.
        apply Hne. pose proof (isBlobUrl_live _ _ _ Hr Hue Hv). congruence.
    + repeat split; auto using keyed_delete.
      intros v Hv. destruct (Hl v Hv) as (e & He & Hue). exists e. split; [|done].
      apply list_elem_of_filter. split; [|done]. intros Hke.
      assert (e = found) by (apply (ids_unique (entries (state w))); [done|done|done|congruence]). subst e.
      pose proof (isBlobUrl_live _ _ _ Hr Hue Hv). congruence.
  - repeat split; auto using keyed_delete.
    intros v Hv. destruct (Hl v Hv) as (e & He & Hue). exists e. split; [|done].
    apply list_elem_of_filter. split; [|done].
    eapply find_hasId_none; eauto.
Qed.

Lemma revokeAll_spec (l : list JournalEntry) (w : World) :
  registry_ok (urls w) ->
  exists x w',
    mapAsync revokeAudioUrl l w = (Returns x, w')
    /\ state w' = state w /\ journals w' = journals w
    /\ registry_ok (urls w')
    /\ (forall u, is_Some (URL.live (urls w') !! u) ->
                  is_Some (URL.live (urls w) !! u)
                  /\ forall e, e ∈ l -> isBlobUrl e <> Some u).
Proof.
  revert w. induction l as [|e l IH]; intros w Hw.
  - exists [], w. repeat split; auto. intros e He. by apply elem_of_nil in He.
  - assert (H1 : exists w1, revokeAudioUrl e w = (Returns tt, w1)
                   /\ state w1 = state w /\ journals w1 = journals w
                   /\ registry_ok (urls w1)
                   /\ (forall u, is_Some (URL.live (urls w1) !! u) ->
                         is_Some (URL.live (urls w) !! u) /\ isBlobUrl e <> Some u)).
    { unfold revokeAudioUrl, revokeObjectURL, ret.
      destruct (isBlobUrl e) as [old|]; eexists; (split; [reflexivity|]); wsimpl.
      - repeat split; auto using registry_ok_revoke.
        + unfold URL.revokeObjectURL in H. wsimpl.
          destruct (decide (old = u)) as [->|Hne];
            [by rewrite lookup_delete_eq in H|].
          by rewrite lookup_delete_ne in H.
        + unfold URL.revokeObjectURL in H. wsimpl. intros [= ->].
          by rewrite lookup_delete_eq in H.
      - repeat split; auto. }
    destruct H1 as (w1 & Hr1 & Hs1 & Hj1 & Hk1 & Hl1).
    destruct (IH w1 Hk1) as (x & w2 & Hr2 & Hs2 & Hj2 & Hk2 & Hl2).
    exists (tt :: x), w2. split; [|split; [|split; [|split]]]; try congruence; auto.
    + cbn [mapAsync].
      by rewrite (bind_returns _ _ _ _ _ Hr1), (bind_returns _ _ _ _ _ Hr2).
    + intros u Hu. destruct (Hl2 u Hu) as [Hu1 Hrest].
      destruct (Hl1 u Hu1) as [Hu0 Hhead]. split; [done|].
      intros e' He'. apply elem_of_cons in He' as [->|He']; auto.
Qed.

Lemma clearAll_run (w : World) :
  exists x w1,
    mapAsync revokeAudioUrl (entries (state w))
             (logged (ClearTable true) (with_journals ∅ w)) = (Returns x, w1)
    /\ clearAll true w = (Returns tt, with_state (with_entries [] (state w1)) w1).
Proof.
  destruct (revokeAll_state (entries (state w))
              (logged (ClearTable true) (with_journals ∅ w))) as (x & w1 & Hr & _).
  exists x, w1. split; [done|].
  unfold clearAll, clearJournals, table_clear.
  erewrite bind_returns; [|reflexivity].
  erewrite bind_returns; [|reflexivity].
  erewrite bind_returns; [|exact Hr]. reflexivity.
Qed.

Lemma clearAll_hygienic (w : World) (ok : bool) :
  hygienic w -> hygienic (after (clearAll ok) w)
                /\ (ok = true -> URL.live (urls (after (clearAll ok) w)) = ∅).
Proof.
  intros (Hnd & Hk & Hr & Hl). unfold hygienic, all in *. destruct ok.
  - destruct (clearAll_run w) as (x & w1 & Hrun & Hclear).
    destruct (revokeAll_spec (entries (state w))
                (logged (ClearTable true) (with_journals ∅ w)) Hr)
      as (x' & w1' & Hrun' & Hs & Hj & Hk' & Hlive).
    rewrite Hrun in Hrun'. injection Hrun' as <- <-.
    unfold after. rewrite Hclear. wsimpl.
    assert (Hnone : forall u, URL.live (urls w1) !! u = None).
    { intros u. destruct (URL.live (urls w1) !! u) as [b|] eqn:E; [|done].
      exfalso. destruct (Hlive u (mk_is_Some _ _ E)) as [Hu Hnot].
      destruct (Hl u Hu) as (e & He & Hue).
      apply (Hnot e He). by eapply isBlobUrl_live. }
    split; [|intros _; by apply map_eq; intros u; rewrite Hnone, lookup_empty].
    repeat split; auto.
    + constructor.
    + rewrite Hj. wsimpl. apply keyed_empty.
    + intros u [b Hu]. by rewrite Hnone in Hu.
  - unfold_async. wsimpl. split; [auto|discriminate].
Qed.

Lemma records_ids (t : gmap string JournalEntry) :
  keyed t -> id <$> records t = (map_to_list t).*1.
Proof.
  intros Ht. unfold records. rewrite <- list_fmap_compose.
  apply list_fmap_ext. intros i [k r] Hkr. simpl.
  apply Ht. apply elem_of_map_to_list. eapply list_elem_of_lookup_2; eauto.
Qed.

Lemma loadedFrom_ids (w : World) (l l' : list JournalEntry) :
  Forall2 (loadedFrom w) l l' -> id <$> l' = id <$> l.
Proof.
  induction 1 as [|r e l l' [Hp _] _ IH]; [done|].
  rewrite !fmap_cons, IH. f_equal.
  change (id (persisted e) = id (persisted r)). by rewrite Hp.
Qed.

Lemma hydrate_hygienic (w : World) (ok : bool) :
  hygienic w -> careful w (Hydrate ok) -> hygienic (after (hydrate ok) w).
Proof.
  intros Hw Hc. destruct (hydrated (state w)) eqn:Hh.
  { unfold after. by rewrite hydrate_hydrated. }
  destruct Hc as [Hc|Hempty]; [congruence|].
  destruct Hw as (Hnd & Hk & Hr & Hl). unfold hygienic, all in *.
  destruct ok.
  - destruct (hydrate_loads w Hh) as (loaded & w1 & Hrun & Hhyd).
    destruct (loadRecords_spec (merge_sort indexOrder (records (journals w)))
                (logged (ToArray true) w) Hr)
      as (loaded' & w1' & Hrun' & Hm & Hfrom & Hlive).
    rewrite Hrun in Hrun'. injection Hrun' as <- <-.
    unfold after. rewrite Hhyd. wsimpl.
    destruct Hm as (Hs & Hj & Hk1 & _ & _). wsimpl.
    repeat split; auto.
    + rewrite (loadedFrom_ids _ _ _ Hfrom).
      rewrite merge_sort_Permutation, records_ids by done.
      apply NoDup_fst_map_to_list.
    + by rewrite Hj.
    + intros u Hu. destruct (Hlive u Hu) as [Hu0|H]; [|done].
      wsimpl. destruct (Hl u Hu0) as (e & He & _). rewrite Hempty in He.
      by apply elem_of_nil in He.
  - destruct (hydrate_rejected w Hh) as (_ & Hs & Hu & Hj).
    rewrite Hs, Hu, Hj. auto.
Qed.

Lemma perform_hygienic (w : World) (o : Op) :
  hygienic w -> careful w o -> hygienic (after (perform o) w).
Proof.
  destruct o; cbn [perform].
  - apply addEntry_hygienic.
  - apply updateEntry_hygienic.
  - intros. by apply removeEntry_hygienic.
  - intros. by apply clearAll_hygienic.
  - apply hydrate_hygienic.
Qed.

Lemma session_hygienic (calls : list Call) (w : World) :
  hygienic w -> throughout carefulCall calls w -> hygienic (session calls w).
Proof.
  revert w. induction calls as [|c calls IH]; intros w Hw Hcalls; [done|].
  destruct Hcalls as [Hc Hcalls]. cbn [session foldl]. apply IH; [|done].
  destruct c as [o|response uuid now ok blob duration]; cbn [call].
  - by apply perform_hygienic.
  - by apply handleRecordingReady_hygienic.
Qed.

Lemma run_hygienic (ops : list Op) (w : World) :
  hygienic w -> along careful ops w -> hygienic (run ops w).
Proof.
  revert w. induction ops as [|o ops IH]; intros w Hw Hops; [done|].
  destruct Hops as [Ho Hops]. cbn [run foldl]. apply IH; [|done].
  by apply perform_hygienic.
Qed.

Lemma boot_hygienic (t : gmap string JournalEntry) : keyed t -> hygienic (boot t).
Proof.
  intros Ht. unfold hygienic, boot, all. wsimpl. repeat split; auto.
  - constructor.
  - apply fresh_registry_ok.
  - intros u [b Hb]. cbn in Hb. by rewrite lookup_empty in Hb.
Qed.

Lemma removeEntry_releases (w : World) (key : string) (e : JournalEntry) (u : string) :
  hygienic w -> e ∈ all w -> id e = key -> audioUrl e = Some u ->
  URL.live (urls (after (removeEntry true key) w)) !! u = None.
Proof.
  intros (Hnd & Hk & Hr & Hl) He Hid Hu. unfold all in *.
  unfold_async. wsimpl.
  destruct (List.find (hasId key) (entries (state w))) as [found|] eqn:Hfind; wsimpl.
  - apply find_hasId in Hfind as [Hin Hfid].
    assert (found = e)
      by (apply (ids_unique (entries (state w))); [done|done|done|congruence]).
    subst found.
    destruct (isBlobUrl e) as [old|] eqn:Hold; wsimpl.
    + apply isBlobUrl_audioUrl in Hold.
      assert (old = u) by congruence. subst old. apply lookup_delete_eq.
    + destruct (URL.live (urls w) !! u) as [b|] eqn:E; [|done].
      pose proof (isBlobUrl_live _ _ _ Hr Hu (mk_is_Some _ _ E)). congruence.
  - exfalso. eapply find_hasId_none; eauto.
Qed.

(* ===================================================================== *)
(** * The order of the in-memory list                                     *)
(* ===================================================================== *)

Lemma StronglySorted_head (entry : JournalEntry) (l : list JournalEntry) :
  StronglySorted createdAtDesc l ->
  match l with
  | [] => True
  | newest :: _ => createdAtDesc entry newest
  end ->
  Forall (createdAtDesc entry) l.
Proof.
  intros Hs Hhead. destruct l as [|newest l]; [constructor|].
  inversion Hs as [|? ? _ Hf]; subst. constructor; [done|].
  eapply Forall_impl; [exact Hf|]. intros b Hb. exact (createdAtDesc_trans _ _ _ Hhead Hb).
Qed.

Lemma StronglySorted_filter (P : JournalEntry -> Prop)
    `{forall e, Decision (P e)} (l : list JournalEntry) :
  StronglySorted createdAtDesc l -> StronglySorted createdAtDesc (filter P l).
Proof.
  induction 1 as [|a l Hs IH Hf]; [constructor|].
  rewrite filter_cons. destruct (decide (P a)); [|done].
  constructor; [done|]. apply Forall_forall. intros b Hb.
  apply list_elem_of_filter in Hb as [_ Hb]. rewrite Forall_forall in Hf. by apply Hf.
Qed.

Lemma StronglySorted_same_createdAt (f : JournalEntry -> JournalEntry)
    (l : list JournalEntry) :
  Forall (fun e => createdAt (f e) = createdAt e) l ->
  StronglySorted createdAtDesc l -> StronglySorted createdAtDesc (f <$> l).
Proof.
  intros Hf Hs. induction Hs as [|a l Hs IH Hall]; [constructor|].
  inversion Hf as [|? ? Ha Hl]; subst. rewrite fmap_cons.
  constructor; [by apply IH|].
  apply Forall_fmap. rewrite Forall_forall in Hall, Hl. apply Forall_forall.
  intros b Hb. unfold createdAtDesc, compose in *. rewrite Ha, (Hl b Hb). by apply Hall.
Qed.

Lemma addEntry_ordered (w : World) (ok : bool) (entry : JournalEntry) :
  ordered w -> keepsOrder w (Add ok entry) -> ordered (after (addEntry ok entry) w).
Proof.
  intros (Hs & Hnd & Hk) [Hfresh Hhead]. unfold ordered, all in *.
  pose proof (StronglySorted_head entry _ Hs Hhead) as Hall.
  unfold_async.
  destruct (audioUrl entry) as [u|]; [|destruct (audioBlob entry) as [b|]];
    destruct ok; wsimpl; try (by auto).
  all: repeat split;
    [ by constructor
    | rewrite fmap_cons; by apply NoDup_cons
    | by apply (keyed_insert _ (with_audioUrl None (with_audioUrl _ entry))) ].
Qed.

Lemma updateEntry_ordered (w : World) (ok : bool) (key : string) (patch : Patch) :
  ordered w -> keepsOrder w (Update ok key patch) ->
  ordered (after (updateEntry ok key patch) w).
Proof.
  intros (Hs & Hnd & Hk) [Hpid Hpat]. unfold ordered, all in *.
  destruct (List.find (hasId key) (entries (state w))) as [existing|] eqn:Hfind.
  2:{ unfold_async. rewrite Hfind. wsimpl. auto. }
  pose proof Hfind as Hfind'. apply find_hasId in Hfind' as [Hin Hid].
  assert (Hrep : forall updated,
            id updated = key -> createdAt updated = createdAt existing ->
            StronglySorted createdAtDesc
              ((fun entry => if hasId key entry then updated else entry)
                 <$> entries (state w))
            /\ NoDup (id <$> ((fun entry => if hasId key entry then updated else entry)
                               <$> entries (state w)))
            /\ keyed (<[id (with_audioUrl None updated) := with_audioUrl None updated]>
                        (journals w))).
  { intros updated Huid Hcre. repeat split.
    - apply StronglySorted_same_createdAt; [|done].
      apply Forall_forall. intros e He. destruct (hasId key e) eqn:Hke; [|done].
      apply hasId_true in Hke.
      assert (e = existing)
        by (apply (ids_unique (entries (state w))); [done|done|done|congruence]).
      by subst e.
    - by rewrite replace_ids.
    - by apply keyed_insert. }
  assert (Hsid : id (spread existing patch) = key).
  { unfold spread. cbn [id]. by rewrite Hpid. }
  assert (Hscr : createdAt (spread existing patch) = createdAt existing).
  { unfold spread. cbn [createdAt]. by rewrite Hpat. }
  unfold_async. rewrite Hfind.
  destruct (p_audioBlob patch) as [[blob|]|]; wsimpl.
  - destruct (isBlobUrl existing); destruct ok; wsimpl; auto; by apply Hrep.
  - destruct ok; wsimpl; auto; by apply Hrep.
  - destruct ok; wsimpl; auto; by apply Hrep.
Qed.

Lemma removeEntry_ordered (w : World) (ok : bool) (key : string) :
  ordered w -> ordered (after (removeEntry ok key) w).
Proof.
  intros (Hs & Hnd & Hk). unfold ordered, all in *.
  unfold_async. destruct ok; wsimpl; [|by auto].
  assert (Hnd' : NoDup (id <$> filter (fun item => id item <> key) (entries (state w)))).
  { eapply sublist_NoDup; [exact Hnd|apply fmap_sublist, sublist_filter]. }
  destruct (List.find (hasId key) (entries (state w))) as [found|]; wsimpl;
    [destruct (isBlobUrl found); wsimpl|];
    repeat split; auto using keyed_delete, StronglySorted_filter.
Qed.

Lemma clearAll_ordered (w : World) (ok : bool) :
  ordered w -> ordered (after (clearAll ok) w).
Proof.
  intros (Hs & Hnd & Hk). unfold ordered, all in *. destruct ok.
  - destruct (clearAll_run w) as (x & w1 & Hrun & Hclear).
    destruct (revokeAll_state (entries (state w))
                (logged (ClearTable true) (with_journals ∅ w)))
      as (x' & w1' & Hrun' & _ & Hj).
    rewrite Hrun in Hrun'. injection Hrun' as <- <-.
    unfold after. rewrite Hclear. wsimpl. rewrite Hj. wsimpl.
    repeat split; [constructor|constructor|apply keyed_empty].
  - unfold_async. wsimpl. auto.
Qed.

Lemma loaded_ids (l l' : list JournalEntry) :
  persisted <$> l' = persisted <$> l -> id <$> l' = id <$> l.
Proof.
  intros H. apply (f_equal (fmap id)) in H.
  by rewrite <- !list_fmap_compose in H.
Qed.

Lemma hydrate_ordered (w : World) (ok : bool) :
  ordered w -> ordered (after (hydrate ok) w).
Proof.
  intros Hw. destruct (hydrated (state w)) eqn:Hh.
  { unfold after. by rewrite hydrate_hydrated. }
  destruct Hw as (Hs & Hnd & Hk). unfold ordered, all in *. destruct ok.
  - destruct (hydrate_loads w Hh) as (loaded & w1 & Hrun & Hhyd).
    destruct (loadRecords_persisted (merge_sort indexOrder (records (journals w)))
                (logged (ToArray true) w)) as (loaded' & w1' & Hrun' & Hp & _ & Hj).
    rewrite Hrun in Hrun'. injection Hrun' as <- <-.
    unfold after. rewrite Hhyd. wsimpl. repeat split.
    + apply (proj2 (StronglySorted_persisted _ _ createdAtDesc_persisted)).
      rewrite Hp.
      apply (proj1 (StronglySorted_persisted _ _ createdAtDesc_persisted)).
      apply toArray_createdAtDesc.
    + rewrite (loaded_ids _ _ Hp).
      rewrite merge_sort_Permutation, records_ids by done.
      apply NoDup_fst_map_to_list.
    + by rewrite Hj.
  - destruct (hydrate_rejected w Hh) as (_ & Hst & _ & Hj). rewrite Hst, Hj. auto.
Qed.

Lemma perform_ordered (w : World) (o : Op) :
  ordered w -> keepsOrder w o -> ordered (after (perform o) w).
Proof.
  destruct o; cbn [perform keepsOrder].
  - apply addEntry_ordered.
  - apply updateEntry_ordered.
  - intros. by apply removeEntry_ordered.
  - intros. by apply clearAll_ordered.
  - intros. by apply hydrate_ordered.
Qed.

Lemma run_ordered (ops : list Op) (w : World) :
  ordered w -> along keepsOrder ops w -> ordered (run ops w).
Proof.
  revert w. induction ops as [|o ops IH]; intros w Hw Hops; [done|].
  destruct Hops as [Ho Hops]. cbn [run foldl]. apply IH; [|done].
  by apply perform_ordered.
Qed.

(* ===================================================================== *)
(** * Writing an entry and reading it back                                *)
(* ===================================================================== *)

Lemma persisted_with_audioUrl (u : option string) (e : JournalEntry) :
  persisted (with_audioUrl u e) = persisted e.
Proof. reflexivity. Qed.

Lemma addEntry_journals (w : World) (entry : JournalEntry) :
  journals (after (addEntry true entry) w)
  = <[id entry := persisted entry]> (journals w).
Proof.
  unfold_async.
  destruct (audioUrl entry); [|destruct (audioBlob entry)]; wsimpl; reflexivity.
Qed.

Lemma Forall2_elem_of_l {A B} (P : A -> B -> Prop) (l : list A) (k : list B) (x : A) :
  Forall2 P l k -> x ∈ l -> exists y, y ∈ k /\ P x y.
Proof.
  induction 1 as [|a b l k Hab _ IH]; intros Hx; [by apply elem_of_nil in Hx|].
  apply elem_of_cons in Hx as [->|Hx].
  - exists b. split; [apply list_elem_of_here|done].
  - destruct (IH Hx) as (y & Hy & HP). exists y.
    split; [by apply list_elem_of_further|done].
Qed.

Lemma records_elem (t : gmap string JournalEntry) (k : string) (r : JournalEntry) :
  t !! k = Some r -> r ∈ records t.
Proof.
  intros H. unfold records.
  apply (list_elem_of_fmap_2 snd (map_to_list t) (k, r)).
  by apply elem_of_map_to_list.
Qed.

(** Reading back in a new page load whatever table was left. *)
Lemma hydrate_boot_reads (t : gmap string JournalEntry) (k : string) (r : JournalEntry) :
  t !! k = Some r ->
  let w := after (hydrate true) (boot t) in
  exists e, e ∈ all w /\ loadedFrom w r e.
Proof.
  intros Hr w.
  assert (Hh : hydrated (state (boot t)) = false) by reflexivity.
  destruct (hydrate_loads (boot t) Hh) as (loaded & w1 & Hrun & Hhyd).
  destruct (loadRecords_spec (merge_sort indexOrder (records (journals (boot t))))
              (logged (ToArray true) (boot t)) fresh_registry_ok)
    as (loaded' & w1' & Hrun' & Hm & Hfrom & _).
  rewrite Hrun in Hrun'. injection Hrun' as <- <-.
  assert (Hin : r ∈ merge_sort indexOrder (records (journals (boot t)))).
  { rewrite merge_sort_Permutation. by eapply records_elem. }
  destruct (Forall2_elem_of_l _ _ _ _ Hfrom Hin) as (e & He & Hload).
  exists e. subst w. unfold after, all. rewrite Hhyd. wsimpl.
  split; [done|]. exact Hload.
Qed.

Lemma durable_insert (t : gmap string JournalEntry) (e : JournalEntry) :
  durable t -> durable (<[id (persisted e) := persisted e]> t).
Proof.
  intros Ht k r H. destruct (decide (id (persisted e) = k)) as [<-|Hne].
  - rewrite lookup_insert_eq in H. by injection H as <-.
  - rewrite lookup_insert_ne in H by done. by eapply Ht.
Qed.

Lemma durable_delete (t : gmap string JournalEntry) (key : string) :
  durable t -> durable (delete key t).
Proof.
  intros Ht k r H. destruct (decide (key = k)) as [<-|Hne].
  - by rewrite lookup_delete_eq in H.
  - rewrite lookup_delete_ne in H by done. by eapply Ht.
Qed.

Lemma perform_durable (o : Op) (w : World) :
  durable (journals w) -> durable (journals (after (perform o) w)).
Proof.
  intros H. destruct o as [ok entry|ok key patch|ok key|ok|ok]; cbn [perform].
  - unfold_async.
    destruct (audioUrl entry); [|destruct (audioBlob entry)];
      destruct ok; wsimpl; auto; by apply (durable_insert _ (with_audioUrl _ entry)).
  - unfold_async.
    destruct (List.find (hasId key) (entries (state w))) as [existing|]; wsimpl; auto.
    destruct (p_audioBlob patch) as [[blob|]|]; wsimpl.
    + destruct (isBlobUrl existing); destruct ok; wsimpl; auto;
        by apply (durable_insert _ (with_audioUrl _ (spread existing patch))).
    + destruct ok; wsimpl; auto; by apply (durable_insert _ (spread existing patch)).
    + destruct ok; wsimpl; auto; by apply (durable_insert _ (spread existing patch)).
  - unfold_async. destruct ok; wsimpl; auto.
    destruct (List.find (hasId key) (entries (state w))) as [e|]; wsimpl;
      [destruct (isBlobUrl e); wsimpl|]; by apply durable_delete.
  - destruct ok.
    + destruct (clearAll_run w) as (x & w1 & Hrun & Hclear).
      destruct (revokeAll_state (entries (state w))
                  (logged (ClearTable true) (with_journals ∅ w)))
        as (x' & w1' & Hrun' & _ & Hj).
      rewrite Hrun in Hrun'. injection Hrun' as <- <-.
      unfold after. rewrite Hclear. wsimpl. rewrite Hj. wsimpl.
      intros k r Hk. by rewrite lookup_empty in Hk.
    + unfold_async. wsimpl. auto.
  - destruct (hydrated (state w)) eqn:Hh.
    { unfold after. by rewrite hydrate_hydrated. }
    destruct ok.
    + destruct (hydrate_loads w Hh) as (loaded & w1 & Hrun & Hhyd).
      destruct (loadRecords_persisted (merge_sort indexOrder (records (journals w)))
                  (logged (ToArray true) w)) as (loaded' & w1' & Hrun' & _ & _ & Hj).
      rewrite Hrun in Hrun'. injection Hrun' as <- <-.
      unfold after. rewrite Hhyd. wsimpl. by rewrite Hj.
    + destruct (hydrate_rejected w Hh) as (_ & _ & _ & Hj). by rewrite Hj.
Qed.

(* ===================================================================== *)
(** * Dates: the order of the strings is the order of the instants        *)
(* ===================================================================== *)

Section IsoOrder.

Import Date.
Open Scope Z_scope.

Lemma digit_range (c : ascii) (d : Z) : digit c = Some d -> isDigit d.
Proof.
  unfold digit, isDigit.
  destruct (Z.leb_spec 48 (Z.of_N (N_of_ascii c)));
    destruct (Z.leb_spec (Z.of_N (N_of_ascii c)) 57); simpl; intros [= <-]; lia.
Qed.

Lemma digit_compare (c1 c2 : ascii) (d1 d2 : Z) :
  digit c1 = Some d1 -> digit c2 = Some d2 ->
  Ascii.compare c1 c2 = (d1 ?= d2).
Proof.
  unfold digit, Ascii.compare.
  destruct ((48 <=? Z.of_N (N_of_ascii c1)) && (Z.of_N (N_of_ascii c1) <=? 57));
    [|discriminate].
  destruct ((48 <=? Z.of_N (N_of_ascii c2)) && (Z.of_N (N_of_ascii c2) <=? 57));
    [|discriminate].
  intros [= <-] [= <-]. rewrite <- N2Z.inj_compare.
  destruct (Z.compare_spec (Z.of_N (N_of_ascii c1)) (Z.of_N (N_of_ascii c2)));
    symmetry;
    [apply Z.compare_eq_iff|apply Z.compare_lt_iff|apply Z.compare_gt_iff]; lia.
Qed.

Lemma ascii_compare_refl (c : ascii) : Ascii.compare c c = Eq.
Proof. unfold Ascii.compare. apply N.compare_refl. Qed.

Lemma scan_compare (layout s1 s2 : string) (ds1 ds2 : list Z) :
  scan layout s1 = Some ds1 -> scan layout s2 = Some ds2 ->
  String.compare s1 s2 = lexZ ds1 ds2.
Proof.
  revert s1 s2 ds1 ds2.
  induction layout as [|l layout IH]; intros [|c1 s1] [|c2 s2] ds1 ds2;
    cbn [scan]; try discriminate.
  - by intros [= <-] [= <-].
  - destruct (Ascii.eqb l "d").
    + destruct (digit c1) as [d1|] eqn:H1; [|discriminate].
      destruct (scan layout s1) as [r1|] eqn:Hs1; [|discriminate].
      destruct (digit c2) as [d2|] eqn:H2; [|discriminate].
      destruct (scan layout s2) as [r2|] eqn:Hs2; [|discriminate].
      intros [= <-] [= <-]. cbn [String.compare lexZ].
      rewrite (digit_compare _ _ _ _ H1 H2), (IH _ _ _ _ Hs1 Hs2). reflexivity.
    + destruct (Ascii.eqb l c1) eqn:E1; [|discriminate].
      destruct (Ascii.eqb l c2) eqn:E2; [|discriminate].
      apply Ascii.eqb_eq in E1, E2. subst c1 c2. intros Hs1 Hs2.
      cbn [String.compare]. rewrite ascii_compare_refl. by apply IH.
Qed.

Lemma scan_digits (layout s : string) (ds : list Z) :
  scan layout s = Some ds -> Forall isDigit ds.
Proof.
  revert s ds. induction layout as [|l layout IH]; intros [|c s] ds;
    cbn [scan]; try discriminate.
  - intros [= <-]. constructor.
  - destruct (Ascii.eqb l "d").
    + destruct (digit c) as [d|] eqn:H1; [|discriminate].
      destruct (scan layout s) as [r|] eqn:Hs; [|discriminate].
      intros [= <-]. constructor; [by eapply digit_range|by eapply IH].
    + destruct (Ascii.eqb l c); [|discriminate]. apply IH.
Qed.

Lemma value_bound (ds : list Z) :
  Forall isDigit ds -> 0 <= value ds < 10 ^ Z.of_nat (length ds).
Proof.
  induction 1 as [|d ds Hd _ IH]; cbn [value length]; [simpl; lia|].
  rewrite Nat2Z.inj_succ, Z.pow_succ_r by lia. unfold isDigit in Hd. nia.
Qed.

Lemma lexZ_value (ds1 ds2 : list Z) :
  length ds1 = length ds2 -> Forall isDigit ds1 -> Forall isDigit ds2 ->
  lexZ ds1 ds2 = (value ds1 ?= value ds2).
Proof.
  revert ds2. induction ds1 as [|d1 r1 IH]; intros [|d2 r2] Hlen H1 H2;
    try discriminate; [reflexivity|].
  injection Hlen as Hlen. inversion H1; inversion H2; subst.
  cbn [lexZ value]. rewrite <- Hlen.
  pose proof (value_bound r1 ltac:(assumption)) as B1.
  pose proof (value_bound r2 ltac:(assumption)) as B2.
  rewrite <- Hlen in B2. set (P := 10 ^ Z.of_nat (length r1)) in *.
  destruct (Z.compare_spec d1 d2) as [->|Hlt|Hgt].
  - rewrite (IH r2) by assumption.
    destruct (Z.compare_spec (value r1) (value r2)); symmetry;
      [apply Z.compare_eq_iff|apply Z.compare_lt_iff|apply Z.compare_gt_iff]; lia.
  - symmetry. apply Z.compare_lt_iff. nia.
  - symmetry. apply Z.compare_gt_iff. nia.
Qed.

Lemma fields_packed (ds : list Z) (f : fields) :
  Forall isDigit ds -> fields_of_digits ds = Some f ->
  value ds = packed f /\ fieldsBounded f /\ length ds = 17%nat.
Proof.
  intros Hds Hf. unfold fields_of_digits in Hf.
  do 17 (destruct ds as [|? ds]; [discriminate|]).
  destruct ds; [|discriminate]. injection Hf as <-.
  repeat match goal with H : Forall _ (_ :: _) |- _ => inversion H; clear H; subst end.
  unfold isDigit in *. unfold packed, fieldsBounded. cbn. repeat split; lia.
Qed.

Lemma dayFromYear_succ (y : Z) :
  dayFromYear (y + 1) = dayFromYear y + 365 + leapDay y.
Proof.
  unfold dayFromYear, leapDay, isLeap.
  destruct (Z.eqb_spec (y mod 4) 0), (Z.eqb_spec (y mod 100) 0),
           (Z.eqb_spec (y mod 400) 0); cbn [andb orb negb];
    Z.div_mod_to_equations; lia.
Qed.

Lemma dayFromYear_lt (y y' : Z) :
  y < y' -> dayFromYear y + 365 + leapDay y <= dayFromYear y'.
Proof.
  intros H. rewrite <- dayFromYear_succ. unfold dayFromYear.
  Z.div_mod_to_equations. lia.
Qed.

Lemma month_cases (m : Z) :
  1 <= m <= 12 ->
  m = 1 \/ m = 2 \/ m = 3 \/ m = 4 \/ m = 5 \/ m = 6 \/ m = 7 \/ m = 8
  \/ m = 9 \/ m = 10 \/ m = 11 \/ m = 12.
Proof. lia. Qed.

Lemma month_end (y m : Z) :
  1 <= m <= 12 ->
  0 <= daysBeforeMonth y m
  /\ daysBeforeMonth y m + daysInMonth y m
     = (if m =? 12 then 365 + leapDay y else daysBeforeMonth y (m + 1)).
Proof.
  intros Hm. unfold daysBeforeMonth, daysInMonth, leapDay.
  destruct (month_cases m Hm) as [->|[->|[->|[->|[->|[->|[->|[->|[->|[->|[->| ->]]]]]]]]]]];
    destruct (isLeap y); split; now vm_compute.
Qed.

Lemma daysBeforeMonth_mono (y m m' : Z) :
  1 <= m -> m < m' -> m' <= 12 ->
  daysBeforeMonth y m + daysInMonth y m <= daysBeforeMonth y m'.
Proof.
  intros H1 H2 H3. unfold daysBeforeMonth, daysInMonth.
  destruct (month_cases m ltac:(lia)) as [->|[->|[->|[->|[->|[->|[->|[->|[->|[->|[->| ->]]]]]]]]]]];
    destruct (month_cases m' ltac:(lia)) as [->|[->|[->|[->|[->|[->|[->|[->|[->|[->|[->| ->]]]]]]]]]]];
    try lia; destruct (isLeap y); now vm_compute.
Qed.

Lemma in_range_bounds (f : fields) :
  in_range f = true ->
  1 <= month f <= 12 /\ 1 <= day f <= daysInMonth (year f) (month f)
  /\ minutes f <= 59 /\ seconds f <= 59
  /\ (hours f <= 23
      \/ (hours f = 24 /\ minutes f = 0 /\ seconds f = 0 /\ millis f = 0)).
Proof.
  unfold in_range. rewrite !andb_true_iff, orb_true_iff, !andb_true_iff.
  rewrite !Z.leb_le, !Z.eqb_eq. tauto.
Qed.

Lemma timeValue_mono (f1 f2 : fields) :
  in_range f1 = true -> in_range f2 = true ->
  fieldsBounded f1 -> fieldsBounded f2 ->
  packed f1 <= packed f2 -> timeValue f1 <= timeValue f2.
Proof.
  intros R1 R2 B1 B2 Hp.
  apply in_range_bounds in R1 as (M1 & D1 & N1 & S1 & H1).
  apply in_range_bounds in R2 as (M2 & D2 & N2 & S2 & H2).
  unfold fieldsBounded in *. unfold packed in Hp. unfold timeValue, MS_PER_DAY.
  destruct (month_end (year f1) (month f1) M1) as [E1 E1'].
  destruct (month_end (year f2) (month f2) M2) as [E2 E2'].
  assert (Hy : year f1 <= year f2) by lia.
  destruct (Z.eq_dec (year f1) (year f2)) as [Ey|Ny].
  - rewrite Ey in *.
    assert (Hm : month f1 <= month f2) by lia.
    destruct (Z.eq_dec (month f1) (month f2)) as [Em|Nm].
    + rewrite Em in *.
      assert (Hd : day f1 <= day f2) by lia.
      destruct (Z.eq_dec (day f1) (day f2)) as [Ed|Nd]; [rewrite Ed in *|]; lia.
    + pose proof (daysBeforeMonth_mono (year f2) (month f1) (month f2)
                    ltac:(lia) ltac:(lia) ltac:(lia)).
      lia.
  - pose proof (dayFromYear_lt (year f1) (year f2) ltac:(lia)) as Hyear.
    assert (daysBeforeMonth (year f1) (month f1) + daysInMonth (year f1) (month f1)
            <= 365 + leapDay (year f1)).
    { destruct (Z.eqb_spec (month f1) 12) as [E|E]; [lia|].
      rewrite E1'.
      destruct (month_end (year f1) (month f1 + 1) ltac:(lia)) as [_ E3].
      pose proof (daysBeforeMonth_mono (year f1) (month f1 + 1) 12).
      destruct (Z.eq_dec (month f1 + 1) 12) as [E12|N12].
      - rewrite E12. unfold daysBeforeMonth, leapDay.
        destruct (isLeap (year f1)); now vm_compute.
      - assert (daysBeforeMonth (year f1) 12 <= 334 + leapDay (year f1)).
        { unfold daysBeforeMonth, leapDay.
          destruct (isLeap (year f1)); now vm_compute. }
        assert (0 <= daysInMonth (year f1) (month f1 + 1)).
        { unfold daysInMonth.
          repeat match goal with |- context [if ?b then _ else _] => destruct b end; lia. }
        lia. }
    lia.
Qed.

Lemma getTime_mono (s1 s2 : string) (t1 t2 : Z) :
  getTime s1 = Some t1 -> getTime s2 = Some t2 ->
  String.leb s1 s2 = true -> t1 <= t2.
Proof.
  unfold getTime, parse_fields.
  destruct (scan ISO_LAYOUT s1) as [ds1|] eqn:Hs1; [|discriminate].
  destruct (fields_of_digits ds1) as [f1|] eqn:Hf1; [|discriminate].
  destruct (in_range f1) eqn:R1; [|discriminate].
  destruct (scan ISO_LAYOUT s2) as [ds2|] eqn:Hs2; [|discriminate].
  destruct (fields_of_digits ds2) as [f2|] eqn:Hf2; [|discriminate].
  destruct (in_range f2) eqn:R2; [|discriminate].
  intros [= <-] [= <-] Hle.
  destruct (fields_packed ds1 f1 (scan_digits _ _ _ Hs1) Hf1) as (V1 & B1 & L1).
  destruct (fields_packed ds2 f2 (scan_digits _ _ _ Hs2) Hf2) as (V2 & B2 & L2).
  apply timeValue_mono; auto. rewrite <- V1, <- V2.
  unfold String.leb in Hle. rewrite (scan_compare _ _ _ _ _ Hs1 Hs2) in Hle.
  rewrite lexZ_value in Hle by eauto using scan_digits with congruence.
  destruct (Z.compare_spec (value ds1) (value ds2)); [lia|lia|discriminate].
Qed.

End IsoOrder.

Lemma getTime_eq (e : JournalEntry) : getTime e = Date.getTime (createdAt e).
Proof. reflexivity. Qed.

Lemma createdAtDesc_notOlder (a b : JournalEntry) :
  dated a -> dated b -> createdAtDesc a b -> notOlder a b.
Proof.
  intros [ta Ha] [tb Hb] H. unfold notOlder, timeOf. rewrite Ha, Hb.
  cbn [default]. rewrite getTime_eq in Ha, Hb.
  exact (getTime_mono _ _ _ _ Hb Ha H).
Qed.

Lemma sorted_dated (l : list JournalEntry) :
  Forall dated l -> StronglySorted createdAtDesc l -> StronglySorted notOlder l.
Proof.
  intros Hd Hs. induction Hs as [|a l Hs IH Hf]; [constructor|].
  inversion Hd as [|? ? Ha Hl]; subst. constructor; [by apply IH|].
  rewrite Forall_forall in Hf, Hl. apply Forall_forall. intros b Hb.
  apply createdAtDesc_notOlder; auto.
Qed.

(* ===================================================================== *)
(** * The claims                                                          *)
(* ===================================================================== *)

(** C1 (the code departs from the claim). Two entries made one minute
    apart on the same calendar day: the calendar-day algorithm counts the
    day once, [getStreakCount] counts it twice, because its gap is the
    ceiling of the elapsed time in days and not a difference of calendar
    days. *)
Theorem getStreakCount_counts_same_day_twice :
  dayOf march3_later = dayOf march3
  /\ calendarStreak [march3_later; march3] = 1
  /\ getStreakCount {| entries := [march3_later; march3]; hydrated := true |} = 2.
Proof. by vm_compute. Qed.

(** C3. When the put or delete of the persistence store rejects,
    [addEntry], [updateEntry] and [removeEntry] throw the persistence
    error and leave the in-memory state (list and flag) and the table as
    they were; [updateEntry] of an id that is not in memory attempts no
    write and returns. The statement is about memory and table: the
    handles [updateEntry] derives and releases before its write are the
    subject of C4. *)
Theorem write_failure_leaves_memory_unchanged
    (w : World) (entry : JournalEntry) (key : string) (patch : Patch) :
  (outcome (addEntry false entry) w = Throws PersistenceError
   /\ state (after (addEntry false entry) w) = state w
   /\ journals (after (addEntry false entry) w) = journals w)
  /\ (outcome (updateEntry false key patch) w
      = match getEntry key (state w) with
        | Some _ => Throws PersistenceError
        | None => Returns tt
        end
      /\ state (after (updateEntry false key patch) w) = state w
      /\ journals (after (updateEntry false key patch) w) = journals w)
  /\ (outcome (removeEntry false key) w = Throws PersistenceError
      /\ state (after (removeEntry false key) w) = state w
      /\ journals (after (removeEntry false key) w) = journals w).
Proof.
  split; [|split].
  - apply addEntry_rejected.
  - apply updateEntry_rejected.
  - apply removeEntry_rejected.
Qed.

Lemma Forall_dated_persisted (l : list JournalEntry) :
  Forall dated l <-> Forall dated (persisted <$> l).
Proof.
  rewrite Forall_fmap. apply Forall_iff. intros e. unfold compose, dated.
  rewrite !getTime_eq. unfold persisted, with_audioUrl. cbn [createdAt].
  reflexivity.
Qed.

Lemma streak_of_times (l l' : list JournalEntry) :
  getTime <$> l = getTime <$> l' ->
  match l with [] => 0 | e0 :: rest => walk (getTime e0) rest 1 end
  = match l' with [] => 0 | e0 :: rest => walk (getTime e0) rest 1 end.
Proof.
  destruct l as [|a l], l' as [|b l']; try discriminate; [reflexivity|].
  rewrite !fmap_cons. intros [= Hab Hrest]. rewrite Hab. by apply walk_times.
Qed.

Lemma streak_of_permutation (st st' : JournalState) :
  entries st ≡ₚ entries st' ->
  Forall dated (entries st) ->
  getStreakCount st = getStreakCount st'.
Proof.
  intros Hperm Hdated. unfold getStreakCount. cbv zeta.
  apply streak_of_times. by apply sorted_times_unique.
Qed.

Lemma Arrays_getStreakCount_eq (st : JournalState) (h : Arrays.Heap) (r : nat) :
  Arrays.arrays h !! r = Some (entries st) ->
  Arrays.getStreakCount r h
  = (getStreakCount st,
     {| Arrays.arrays :=
          <[Arrays.nextRef h := Array_sort newestFirst (entries st)]>
            (Arrays.arrays h);
        Arrays.nextRef := S (Arrays.nextRef h) |}).
Proof.
  intros Hr.
  unfold Arrays.getStreakCount, Arrays.spreadCopy, Arrays.sort, Arrays.elements,
    getStreakCount.
  cbn [Arrays.arrays Arrays.nextRef]. rewrite Hr. cbn [default].
  rewrite !lookup_insert_eq, insert_insert_eq. reflexivity.
Qed.



Lemma heapOf_valid (l : list JournalEntry) : Arrays.valid (heapOf l).
Proof.
  intros r [a Ha]. unfold heapOf in *. cbn [Arrays.arrays Arrays.nextRef] in *.
  apply lookup_singleton_Some in Ha as [<- _]. lia.
Qed.


(** C6. [hydrate] on a state that is not hydrated loads every record of
    the table into memory, newest first by [createdAt] (as strings and,
    when the [createdAt] values are dates, as instants), and sets the
    flag; on a hydrated state it changes nothing, and since no operation
    resets the flag every later call is a no-op. *)
Theorem hydrate_loads_newest_first_once (w : World) :
  (hydrated (state w) = false ->
     outcome (hydrate true) w = Returns tt
     /\ hydrated (state (after (hydrate true) w)) = true
     /\ persisted <$> all (after (hydrate true) w)
        ≡ₚ persisted <$> records (journals w)
     /\ StronglySorted createdAtDesc (all (after (hydrate true) w))
     /\ (Forall dated (records (journals w)) ->
         StronglySorted notOlder (all (after (hydrate true) w))))
  /\ (hydrated (state w) = true ->
      forall (ops : list Op) (ok : bool),
        hydrate ok (run ops w) = (Returns tt, run ops w)).
Proof.
  split.
  - intros Hh.
    destruct (hydrate_loads w Hh) as (loaded & w1 & Hrun & Hhyd).
    destruct (loadRecords_persisted (merge_sort indexOrder (records (journals w)))
                (logged (ToArray true) w)) as (loaded' & w1' & Hrun' & Hp & _ & _).
    rewrite Hrun in Hrun'. injection Hrun' as <- <-.
    unfold outcome, after, all. rewrite Hhyd. wsimpl.
    assert (Hsorted : StronglySorted createdAtDesc loaded).
    { apply (proj2 (StronglySorted_persisted _ _ createdAtDesc_persisted)).
      rewrite Hp.
      apply (proj1 (StronglySorted_persisted _ _ createdAtDesc_persisted)).
      apply toArray_createdAtDesc. }
    repeat split; auto.
    + rewrite Hp. apply fmap_Permutation, merge_sort_Permutation.
    + intros Hd. apply sorted_dated; [|done].
      apply (proj2 (Forall_dated_persisted loaded)). rewrite Hp.
      apply (proj1 (Forall_dated_persisted _)). by rewrite merge_sort_Permutation.
  - intros Hh ops ok. apply hydrate_hydrated. by apply hydrated_run.
Qed.

Lemma hydrate_loads_newest_first_once_witness :
  hydrated (state (boot savedTable)) = false
  /\ StronglySorted notOlder (all (after (hydrate true) (boot savedTable)))
  /\ hydrated (state (run [Hydrate true] (boot savedTable))) = true
  /\ hydrate true (run [Add true march3_later] (run [Hydrate true] (boot savedTable)))
     = (Returns tt, run [Add true march3_later] (run [Hydrate true] (boot savedTable))).
Proof.
  assert (H0 : hydrated (state (boot savedTable)) = false) by reflexivity.
  assert (H1 : hydrated (state (run [Hydrate true] (boot savedTable))) = true)
    by (by vm_compute).
  assert (Hd : Forall dated (records (journals (boot savedTable)))).
  { apply Forall_forall. intros r Hr.
    assert (Hin : r ∈ [march2; march3]) by (vm_compute in Hr; exact Hr).
    apply elem_of_cons in Hin as [->|Hin]; [by vm_compute; eexists|].
    apply elem_of_cons in Hin as [->|Hin]; [by vm_compute; eexists|].
    by apply elem_of_nil in Hin. }
  split; [exact H0|]. split; [|split; [exact H1|]].
  - destruct (hydrate_loads_newest_first_once (boot savedTable)) as [Hload _].
    destruct (Hload H0) as (_ & _ & _ & _ & Hsorted). exact (Hsorted Hd).
  - destruct (hydrate_loads_newest_first_once (run [Hydrate true] (boot savedTable)))
      as [_ Honce].
    exact (Honce H1 [Add true march3_later] true).
Defined.

(** C7. An entry written by [addEntry] is stored without its [audioUrl]
    and with every other field as given; [hydrate] in a new page load
    over that table puts an entry in memory that has the same persisted
    fields, with an [audioUrl] that is a newly minted live URL of the
    stored blob (none when there is no blob). No operation ever leaves a
    record with an [audioUrl] in the table. *)
Theorem add_then_hydrate_round_trip (w : World) (entry : JournalEntry) :
  let w1 := after (addEntry true entry) w in
  let w2 := after (hydrate true) (boot (journals w1)) in
  journals w1 !! id entry = Some (persisted entry)
  /\ audioUrl (persisted entry) = None
  /\ (exists e,
        e ∈ all w2 /\ persisted e = persisted entry
        /\ match audioBlob entry with
           | Some b =>
               exists u, audioUrl e = Some u
                         /\ String.prefix "blob:" u = true
                         /\ URL.live (urls w2) !! u = Some b
           | None => audioUrl e = None
           end)
  /\ (forall o : Op,
        durable (journals w) -> durable (journals (after (perform o) w))).
Proof.
  intros w1 w2. subst w1 w2. rewrite addEntry_journals.
  assert (Hrec : <[id entry := persisted entry]> (journals w) !! id entry
                 = Some (persisted entry)) by apply lookup_insert_eq.
  split; [exact Hrec|]. split; [reflexivity|]. split.
  - destruct (hydrate_boot_reads _ _ _ Hrec) as (e & He & Hp & Hu).
    exists e. split; [exact He|]. split; [exact Hp|].
    change (audioUrl (persisted entry)) with (@None string) in Hu.
    change (audioBlob (persisted entry)) with (audioBlob entry) in Hu.
    destruct (audioBlob entry); exact Hu.
  - intros o. apply perform_durable.
Qed.

Lemma add_then_hydrate_round_trip_witness :
  let w1 := after (addEntry true march3) (boot ∅) in
  let w2 := after (hydrate true) (boot (journals w1)) in
  journals w1 !! "a" = Some (persisted march3)
  /\ exists e,
       e ∈ all w2 /\ persisted e = persisted march3
       /\ exists u, audioUrl e = Some u
                    /\ URL.live (urls w2) !! u = Some "first take".
Proof.
  intros w1 w2.
  pose proof (add_then_hydrate_round_trip (boot ∅) march3) as H.
  cbv zeta in H. destruct H as (Hrec & _ & (e & He & Hp & Hu) & _).
  split; [exact Hrec|]. exists e. split; [exact He|]. split; [exact Hp|].
  unfold march3 at 1, mkEntry at 1 in Hu. cbn [audioBlob] in Hu.
  destruct Hu as (u & Hu1 & _ & Hu2). exists u. split; [exact Hu1|exact Hu2].
Defined.

(** C8. Once [handleSave] has emitted a pair, the component is idle with
    no preview, the Save button is not rendered, and no sequence of
    handler calls and timer ticks without a [startRecording] emits
    again: a second [handleSave] returns at its guard. *)
Theorem save_emits_once (c : Recorder.Component) (out : Blob * number)
    (acts : list Recorder.Action) :
  Recorder.emitted (Recorder.handleSave c) = Recorder.emitted c ++ [out] ->
  forallb (fun a => negb (Recorder.isStart a)) acts = true ->
  let c1 := Recorder.handleSave c in
  out = (Recorder.Blob_of (Recorder.chunksRef c), Recorder.previewDuration c)
  /\ Recorder.status c1 = Recorder.idle
  /\ Recorder.previewUrl c1 = None
  /\ Recorder.offered c1 Recorder.Save = false
  /\ Recorder.handleSave c1 = c1
  /\ Recorder.emitted (Recorder.run acts c1) = Recorder.emitted c1.
Proof.
  intros Hemit Hacts c1.
  destruct (handleSave_emits c out Hemit) as [Htruthy Hout].
  assert (Hc1 : c1 = Recorder.resetState (Recorder.emit out c)).
  { subst c1 out. unfold Recorder.handleSave. by rewrite Htruthy. }
  destruct (resetState_settled (Recorder.emit out c)) as (Hset & Hidle & _).
  rewrite <- Hc1 in Hset, Hidle. destruct Hset as [Hprev Hrec].
  split; [exact Hout|]. split; [exact Hidle|]. split; [exact Hprev|].
  split; [|split].
  - unfold Recorder.offered. by rewrite Hidle.
  - unfold Recorder.handleSave. by rewrite Hprev.
  - by apply run_settled.
Qed.

Lemma save_emits_once_witness :
  let c := Recorder.run [Recorder.Start true; Recorder.Tick 1; Recorder.Stop "take"]
             Recorder.initial in
  Recorder.emitted (Recorder.handleSave c) = Recorder.emitted c ++ [("take", 1%float)]
  /\ Recorder.emitted
       (Recorder.run [Recorder.Save; Recorder.Pause; Recorder.Stop "more";
                      Recorder.Tick 1; Recorder.Save; Recorder.Discard; Recorder.Save]
          (Recorder.handleSave c))
     = Recorder.emitted (Recorder.handleSave c).
Proof.
  intros c.
  assert (H : Recorder.emitted (Recorder.handleSave c)
              = Recorder.emitted c ++ [("take", 1%float)]) by (by vm_compute).
  split; [exact H|].
  exact (proj2 (proj2 (proj2 (proj2 (proj2
    (save_emits_once c ("take", 1%float)
       [Recorder.Save; Recorder.Pause; Recorder.Stop "more";
        Recorder.Tick 1; Recorder.Save; Recorder.Discard; Recorder.Save]
       H eq_refl)))))).
Defined.

Lemma truthy_eqb (t : string) : truthy (Some t) = negb (String.eqb t "").
Proof. by destruct t. Qed.

(** C9. The entry built from a transcription result has the
    collaborator's transcript, or the empty string when it is missing;
    the collaborator's duration, or the locally measured one when it is
    missing; and, when the transcript is not empty, the title made of its
    first five space-separated words (the transcript up to its fifth
    space), otherwise no title. *)
Theorem buildEntry_from_transcription (uuid now : string)
    (data : option Transcription) (blob : Blob) (measured : number) (url : string) :
  let e := buildEntry uuid now data blob measured url in
  transcript e
    = match data ≫= t_transcript with Some t => t | None => "" end
  /\ duration e
     = match data ≫= t_duration with Some d => d | None => measured end
  /\ title e
     = match data ≫= t_transcript with
       | Some t => if String.eqb t "" then None else Some (upToSpace 5 t)
       | None => None
       end
  /\ (forall ws : list string,
        ws <> [] -> Forall (fun piece => isWord piece = true) ws ->
        data ≫= t_transcript = Some (join ws) ->
        title e = Some (join (take 5 ws))).
Proof.
  intros e. subst e. unfold buildEntry. cbn [transcript duration title].
  split; [by destruct (data ≫= t_transcript)|].
  split; [by destruct (data ≫= t_duration)|]. split.
  - destruct (data ≫= t_transcript) as [t|]; [|reflexivity].
    rewrite truthy_eqb. destruct (String.eqb t ""); [reflexivity|].
    cbn [negb from_option Datatypes.id]. by rewrite join_slice_split.
  - intros ws Hne Hws ->. rewrite join_words_truthy by assumption.
    cbn [from_option Datatypes.id]. unfold slice0. by rewrite split_join_words.
Qed.

Lemma buildEntry_from_transcription_witness :
  let data := Some {| t_transcript := Some "I felt more centered today after the walk";
                      t_duration := None |} in
  let e := buildEntry "uuid" "2025-11-01T10:31:00.000Z" data "audio" 87%float "blob:0" in
  title e = Some "I felt more centered today"
  /\ duration e = 87%float.
Proof.
  intros data e.
  destruct (buildEntry_from_transcription
              "uuid" "2025-11-01T10:31:00.000Z" data "audio" 87%float "blob:0")
    as (_ & Hd & _ & Hwords).
  split; [|exact Hd].
  apply (Hwords ["I"; "felt"; "more"; "centered"; "today"; "after"; "the"; "walk"]).
  - discriminate.
  - repeat (apply List.Forall_cons; [reflexivity|]). apply List.Forall_nil.
  - reflexivity.
Defined.

(** C2, as stated, fails: [addEntry] puts the entry at the head without
    sorting, so adding an older entry after a newer one leaves the list
    unsorted, by the [createdAt] strings and by the instants alike. *)
Lemma head_insertion_breaks_order :
  ~ StronglySorted createdAtDesc
      (all (run [Add true march3; Add true march2] (boot ∅)))
  /\ ~ StronglySorted notOlder
         (all (run [Add true march3; Add true march2] (boot ∅))).
Proof.
  split; intros H.
  - assert (Hl : StronglySorted createdAtDesc
                   [with_audioUrl None march2;
                    with_audioUrl (Some "blob:0") march3]) by exact H.
    inversion Hl as [|? ? _ Hf]; subst. inversion Hf as [|? ? Hd _]; subst.
    vm_compute in Hd. discriminate.
  - assert (Hl : StronglySorted notOlder
                   [with_audioUrl None march2;
                    with_audioUrl (Some "blob:0") march3]) by exact H.
    inversion Hl as [|? ? _ Hf]; subst. inversion Hf as [|? ? Hd _]; subst.
    vm_compute in Hd. by apply Hd.
Qed.

(** C2, amended. From a sorted list with unique ids, [all()] stays sorted
    by [createdAt] descending through every sequence of operations in
    which each added entry has a new id and a [createdAt] not before that
    of the current head, and no patch touches [id] or [createdAt]:
    [hydrate] takes the order from the index of the table, the other
    operations keep the order they find. When the [createdAt] values are
    dates the list is newest first as instants too. *)
Theorem all_sorted_when_adds_are_newest (w : World) (ops : list Op) :
  ordered w -> along keepsOrder ops w ->
  StronglySorted createdAtDesc (all (run ops w))
  /\ (Forall dated (all (run ops w)) ->
      StronglySorted notOlder (all (run ops w))).
Proof.
  intros Hw Hops. destruct (run_ordered ops w Hw Hops) as (Hs & _ & _).
  split; [exact Hs|]. intros Hd. by apply sorted_dated.
Qed.

Lemma keyed_savedTable : keyed savedTable.
Proof.
  intros k r H. unfold savedTable in H.
  destruct (decide (k = id march3)) as [->|H3].
  - rewrite lookup_insert_eq in H. by injection H as <-.
  - rewrite lookup_insert_ne in H by done.
    destruct (decide (k = id march2)) as [->|H2].
    + rewrite lookup_insert_eq in H. by injection H as <-.
    + rewrite lookup_insert_ne in H by done. by rewrite lookup_empty in H.
Qed.

Lemma boot_ordered (t : gmap string JournalEntry) : keyed t -> ordered (boot t).
Proof. intros Ht. repeat split; [constructor|constructor|exact Ht]. Qed.

Lemma all_sorted_when_adds_are_newest_witness :
  let ops := [Hydrate true; Add true march3_later;
              Update true "a" (newAudio "retake"); Remove true "c"] in
  ordered (boot savedTable)
  /\ along keepsOrder ops (boot savedTable)
  /\ StronglySorted createdAtDesc (all (run ops (boot savedTable))).
Proof.
  intros ops.
  assert (H0 : ordered (boot savedTable)) by apply boot_ordered, keyed_savedTable.
  assert (H1 : along keepsOrder ops (boot savedTable)).
  { subst ops. cbn [along keepsOrder]. repeat split.
    eapply bool_decide_unpack. by vm_compute. }
  split; [exact H0|]. split; [exact H1|].
  exact (proj1 (all_sorted_when_adds_are_newest (boot savedTable) ops H0 H1)).
Defined.

Lemma not_precedes_three (a b x y z : Effect) :
  a <> x -> b <> y -> b <> z -> (a = y -> b <> z) -> ~ precedes a b [x; y; z].
Proof.
  intros Hax Hby Hbz Hyz (l1 & l2 & l3 & H).
  destruct l1 as [|p1 l1]; [injection H as H1 _; congruence|].
  injection H as _ H.
  destruct l1 as [|p2 l1].
  - injection H as H1 H2. destruct l2 as [|q l2].
    + injection H2 as H2 _. by apply (Hyz (eq_sym H1)).
    + injection H2 as _ H2. destruct l2; discriminate.
  - injection H as _ H. destruct l1 as [|p3 l1].
    + injection H as _ H. destruct l2; discriminate.
    + injection H as _ H. destruct l1; discriminate.
Qed.





(** A recording whose write fails: [handleRecordingReady] minted the URL
    before it called [addEntry], the entry is not in memory, and the URL
    stays live as the [audioUrl] of no entry. Such a call is not
    careful. *)
Lemma failed_recording_write_leaves_handle :
  let w := session [Recorded (Some None) "e" "2025-03-04T08:00:00.000Z" false
                      "third take" 3%float] (boot ∅) in
  all w = []
  /\ URL.live (urls w) !! "blob:0" = Some "third take"
  /\ ~ hygienic w.
Proof.
  intros w. split; [by vm_compute|]. split; [by vm_compute|].
  intros (_ & _ & _ & Hl).
  destruct (Hl "blob:0") as (e & He & _); [by vm_compute; eexists|].
  assert (Hin : e ∈ @nil JournalEntry) by exact He.
  by apply elem_of_nil in Hin.
Qed.



(* ===================================================================== *)
(** * Further properties: the streak                                      *)
(* ===================================================================== *)

Lemma walk_bounds (c : option Z) (rest : list JournalEntry) (n : nat) :
  n <= walk c rest n <= n + length rest.
Proof.
  revert c n. induction rest as [|e rest IH]; intros c n; cbn [walk length]; [lia|].
  destruct (diffDays c (getTime e)) as [[|[p|p|]|p]|]; try lia.
  - specialize (IH c n). lia.
  - specialize (IH (getTime e) (S n)). lia.
Qed.

Lemma getStreakCount_bounds_0 (st : JournalState) :
  entries st = [] -> getStreakCount st = 0.
Proof. unfold getStreakCount. by intros ->. Qed.

(** X1. [getStreakCount] is 0 exactly when no entry is in memory; with
    entries it is at least 1 and never more than their number. *)
Theorem getStreakCount_bounds (st : JournalState) :
  (getStreakCount st = 0 <-> entries st = [])
  /\ getStreakCount st <= length (entries st).
Proof.
  unfold getStreakCount. cbv zeta.
  pose proof (Array_sort_Permutation newestFirst (entries st)) as Hp.
  destruct (Array_sort newestFirst (entries st)) as [|e0 rest] eqn:Hs.
  - apply Permutation_nil in Hp. rewrite Hp. split; [tauto|cbn; lia].
  - pose proof (walk_bounds (getTime e0) rest 1) as Hb.
    apply Permutation_length in Hp. cbn [length] in Hp. split; [|lia].
    split; [lia|]. intros He. rewrite He in Hp. discriminate.
Qed.

Lemma ceilDays_within (x : Z) :
  (0 < x <= Date.MS_PER_DAY)%Z -> Date.ceilDays x = 1%Z.
Proof.
  unfold Date.ceilDays, Date.MS_PER_DAY. intros H.
  Z.div_mod_to_equations. lia.
Qed.

Lemma ceilDays_beyond (x : Z) :
  (Date.MS_PER_DAY < x)%Z -> (2 <= Date.ceilDays x)%Z.
Proof.
  unfold Date.ceilDays, Date.MS_PER_DAY. intros H.
  Z.div_mod_to_equations. lia.
Qed.

Lemma walk_run (a : JournalEntry) (rest tail : list JournalEntry) (n : nat) :
  Forall dated (a :: rest ++ tail) ->
  withinADay (a :: rest) ->
  Forall (fun o => Forall (fun e => Date.MS_PER_DAY < timeOf e - timeOf o)%Z
                     (a :: rest)) tail ->
  walk (getTime a) (rest ++ tail) n = n + length rest.
Proof.
  revert a n. induction rest as [|b rest IH]; intros a n Hd Hw Ht.
  - cbn [app length]. rewrite Nat.add_0_r.
    destruct tail as [|o tail]; [reflexivity|]. cbn [walk].
    inversion Hd as [|? ? Ha Hd']; subst. inversion Hd' as [|? ? Ho _]; subst.
    inversion Ht as [|? ? Hgap _]; subst. inversion Hgap as [|? ? Hao _]; subst.
    rewrite (dated_getTime a Ha), (dated_getTime o Ho). cbn [diffDays].
    pose proof (ceilDays_beyond _ Hao) as Hc.
    destruct (Date.ceilDays (timeOf a - timeOf o)) as [|[p|p|]|p];
      try reflexivity; lia.
  - cbn [app length walk].
    inversion Hd as [|? ? Ha Hd']; subst.
    pose proof Hd' as Hd''. inversion Hd'' as [|? ? Hb _]; subst.
    destruct Hw as [Hab Hw].
    rewrite (dated_getTime a Ha), (dated_getTime b Hb). cbn [diffDays].
    rewrite (ceilDays_within _ Hab). rewrite <- (dated_getTime b Hb).
    rewrite (IH b (S n) Hd' Hw); [lia|].
    eapply Forall_impl; [exact Ht|]. intros o Ho. by inversion Ho.
Qed.

Lemma withinADay_sorted (l : list JournalEntry) :
  withinADay l -> StronglySorted notOlder l.
Proof.
  intros H. apply Sorted_StronglySorted; [apply _|].
  induction l as [|a l IH]; [constructor|].
  destruct l as [|b l]; [repeat constructor|].
  destruct H as [Hab H]. constructor; [by apply IH|].
  constructor. unfold notOlder. lia.
Qed.

Lemma StronglySorted_app_R {A} (R : relation A) (l k : list A) :
  StronglySorted R l -> StronglySorted R k ->
  Forall (fun y => Forall (fun x => R x y) l) k ->
  StronglySorted R (l ++ k).
Proof.
  intros Hl Hk Hlk. induction Hl as [|a l Hl IH Ha]; [exact Hk|].
  cbn [app]. constructor.
  - apply IH. eapply Forall_impl; [exact Hlk|]. intros y Hy. by inversion Hy.
  - apply Forall_app. split; [exact Ha|].
    eapply Forall_impl; [exact Hlk|]. intros y Hy. by inversion Hy.
Qed.



(* ===================================================================== *)
(** * Further properties: the store and its table                         *)
(* ===================================================================== *)


Lemma id_persisted (l : list JournalEntry) : id <$> (persisted <$> l) = id <$> l.
Proof. rewrite <- list_fmap_compose. by apply list_fmap_ext. Qed.

(** What a successful [updateEntry] of an entry in memory leaves. *)
Lemma updateEntry_done (w : World) (key : string) (patch : Patch)
    (existing : JournalEntry) :
  getEntry key (state w) = Some existing ->
  exists updated,
    updated
    = match p_audioBlob patch with
      | Some (Some _) =>
          with_audioUrl (Some (URL.nth_url (URL.minted (urls w))))
            (spread existing patch)
      | _ => spread existing patch
      end
    /\ outcome (updateEntry true key patch) w = Returns tt
    /\ state (after (updateEntry true key patch) w)
       = with_entries
           ((fun entry => if hasId key entry then updated else entry)
              <$> entries (state w))
           (state w)
    /\ journals (after (updateEntry true key patch) w)
       = <[id updated := persisted updated]> (journals w).
Proof.
  unfold getEntry. intros Hfind. eexists. split; [reflexivity|].
  unfold_async. rewrite Hfind.
  destruct (p_audioBlob patch) as [[blob|]|]; wsimpl; auto.
  destruct (isBlobUrl existing); wsimpl; auto.
Qed.

Lemma removeEntry_done (w : World) (key : string) :
  outcome (removeEntry true key) w = Returns tt
  /\ state (after (removeEntry true key) w)
     = with_entries (filter (fun item => id item <> key) (entries (state w)))
                    (state w)
  /\ journals (after (removeEntry true key) w) = delete key (journals w).
Proof.
  unfold_async. wsimpl.
  destruct (List.find (hasId key) (entries (state w))) as [e|]; wsimpl; auto.
  destruct (isBlobUrl e); wsimpl; auto.
Qed.

Lemma clearAll_done (w : World) :
  outcome (clearAll true) w = Returns tt
  /\ state (after (clearAll true) w) = with_entries [] (state w)
  /\ journals (after (clearAll true) w) = ∅.
Proof.
  destruct (clearAll_run w) as (x & w1 & Hrun & Hclear).
  destruct (revokeAll_state (entries (state w))
              (logged (ClearTable true) (with_journals ∅ w)))
    as (x' & w1' & Hrun' & Hs & Hj).
  rewrite Hrun in Hrun'. injection Hrun' as <- <-.
  unfold outcome, after. rewrite Hclear. wsimpl. rewrite Hs, Hj. auto.
Qed.

Lemma clearAll_rejected (w : World) :
  outcome (clearAll false) w = Throws PersistenceError
  /\ state (after (clearAll false) w) = state w
  /\ journals (after (clearAll false) w) = journals w
  /\ urls (after (clearAll false) w) = urls w.
Proof. unfold_async. wsimpl. auto. Qed.

Lemma hydrate_done (w : World) :
  hydrated (state w) = false ->
  exists loaded,
    persisted <$> loaded
    = persisted <$> merge_sort indexOrder (records (journals w))
    /\ outcome (hydrate true) w = Returns tt
    /\ state (after (hydrate true) w) = {| entries := loaded; hydrated := true |}
    /\ journals (after (hydrate true) w) = journals w.
Proof.
  intros Hh. destruct (hydrate_loads w Hh) as (loaded & w1 & Hrun & Hhyd).
  destruct (loadRecords_persisted (merge_sort indexOrder (records (journals w)))
              (logged (ToArray true) w)) as (loaded' & w1' & Hrun' & Hp & _ & Hj).
  rewrite Hrun in Hrun'. injection Hrun' as <- <-.
  exists loaded. unfold outcome, after. rewrite Hhyd. wsimpl. auto.
Qed.

Lemma records_lookup (t : gmap string JournalEntry) (r : JournalEntry) :
  r ∈ records t -> exists k, t !! k = Some r.
Proof.
  unfold records. intros H. apply list_elem_of_fmap in H as ([k r'] & -> & H).
  exists k. by apply elem_of_map_to_list.
Qed.

Lemma addEntry_mirrors (w : World) (ok : bool) (entry : JournalEntry) :
  mirrors w -> tidy w (Add ok entry) -> mirrors (after (addEntry ok entry) w).
Proof.
  intros (Hnd & Hk & Hm & Hh) Hnew. destruct ok.
  2:{ destruct (addEntry_rejected w entry) as (_ & Hs & Hj).
      unfold mirrors, all. rewrite Hs, Hj. auto. }
  unfold mirrors, all in *. cbn [tidy] in Hnew.
  assert (Hrun : exists u,
             state (after (addEntry true entry) w)
             = with_entries (with_audioUrl u entry :: entries (state w)) (state w)).
  { unfold_async.
    destruct (audioUrl entry); [|destruct (audioBlob entry)]; wsimpl; eauto. }
  destruct Hrun as (u & Hs). rewrite Hs, addEntry_journals. wsimpl.
  split; [|split; [|split]].
  - rewrite fmap_cons. by apply NoDup_cons.
  - by apply (keyed_insert _ (persisted entry)).
  - intros e He. apply elem_of_cons in He as [->|He].
    + change (id (with_audioUrl u entry)) with (id entry).
      by rewrite lookup_insert_eq.
    + rewrite lookup_insert_ne; [by apply Hm|].
      intros Heq. apply Hnew. rewrite Heq. by apply list_elem_of_fmap_2.
  - intros Hhyd k r Hkr. destruct (decide (id entry = k)) as [<-|Hne].
    + exists (with_audioUrl u entry). split; [apply list_elem_of_here|done].
    + rewrite lookup_insert_ne in Hkr by done.
      destruct (Hh Hhyd k r Hkr) as (e & He & Hid).
      exists e. split; [by apply list_elem_of_further|done].
Qed.

Lemma updateEntry_mirrors (w : World) (ok : bool) (key : string) (patch : Patch) :
  mirrors w -> tidy w (Update ok key patch) ->
  mirrors (after (updateEntry ok key patch) w).
Proof.
  intros (Hnd & Hk & Hm & Hh) Hid. cbn [tidy] in Hid. destruct ok.
  2:{ destruct (updateEntry_rejected w key patch) as (_ & Hs & Hj).
      unfold mirrors, all. rewrite Hs, Hj. auto. }
  destruct (getEntry key (state w)) as [existing|] eqn:Hfind.
  2:{ unfold getEntry in Hfind. unfold after, updateEntry, get, bind, ret.
      rewrite Hfind. cbn [snd]. unfold mirrors; auto. }
  destruct (updateEntry_done w key patch existing Hfind)
    as (updated & Hup & _ & Hs & Hj).
  pose proof (find_hasId _ _ _ Hfind) as [Hin Hkey].
  assert (Hidu : id updated = key).
  { rewrite Hup. destruct (p_audioBlob patch) as [[blob|]|];
      cbn [id with_audioUrl spread]; rewrite Hid; exact Hkey. }
  unfold mirrors, all in *. rewrite Hs, Hj. wsimpl.
  split; [|split; [|split]].
  - by rewrite replace_ids.
  - by apply (keyed_insert _ (persisted updated)).
  - intros e' He'. apply list_elem_of_fmap in He' as (e & -> & He).
    destruct (hasId key e) eqn:Hhas.
    + by rewrite lookup_insert_eq.
    + rewrite lookup_insert_ne; [by apply Hm|].
      rewrite Hidu. intros Heq. symmetry in Heq. apply hasId_true in Heq. congruence.
  - intros Hhyd k r Hkr. destruct (decide (id updated = k)) as [<-|Hne].
    + exists updated. split; [|done].
      pose proof (replace_elem key updated existing _ Hin) as Hr.
      apply hasId_true in Hkey. by rewrite Hkey in Hr.
    + rewrite lookup_insert_ne in Hkr by done.
      destruct (Hh Hhyd k r Hkr) as (e & He & Hke).
      exists e. split; [|done].
      pose proof (replace_elem key updated e _ He) as Hr.
      destruct (hasId key e) eqn:Hhas; [|done].
      apply hasId_true in Hhas. congruence.
Qed.

Lemma removeEntry_mirrors (w : World) (ok : bool) (key : string) :
  mirrors w -> mirrors (after (removeEntry ok key) w).
Proof.
  intros (Hnd & Hk & Hm & Hh). destruct ok.
  2:{ destruct (removeEntry_rejected w key) as (_ & Hs & Hj).
      unfold mirrors, all. rewrite Hs, Hj. auto. }
  destruct (removeEntry_done w key) as (_ & Hs & Hj).
  unfold mirrors, all in *. rewrite Hs, Hj. wsimpl.
  split; [|split; [|split]].
  - eapply sublist_NoDup; [exact Hnd|]. apply fmap_sublist, sublist_filter.
  - by apply keyed_delete.
  - intros e He. apply list_elem_of_filter in He as [Hne He].
    rewrite lookup_delete_ne by done. by apply Hm.
  - intros Hhyd k r Hkr. destruct (decide (key = k)) as [<-|Hne].
    + by rewrite lookup_delete_eq in Hkr.
    + rewrite lookup_delete_ne in Hkr by done.
      destruct (Hh Hhyd k r Hkr) as (e & He & Hid).
      exists e. split; [|done]. apply list_elem_of_filter. split; [congruence|done].
Qed.

Lemma clearAll_mirrors (w : World) (ok : bool) :
  mirrors w -> mirrors (after (clearAll ok) w).
Proof.
  intros (Hnd & Hk & Hm & Hh). destruct ok.
  2:{ destruct (clearAll_rejected w) as (_ & Hs & Hj & _).
      unfold mirrors, all. rewrite Hs, Hj. auto. }
  destruct (clearAll_done w) as (_ & Hs & Hj).
  unfold mirrors, all. rewrite Hs, Hj. wsimpl.
  split; [constructor|]. split; [apply keyed_empty|]. split.
  - intros e He. by apply elem_of_nil in He.
  - intros _ k r Hkr. by rewrite lookup_empty in Hkr.
Qed.

Lemma hydrate_mirrors (w : World) (ok : bool) :
  mirrors w -> mirrors (after (hydrate ok) w).
Proof.
  intros Hw. destruct (hydrated (state w)) eqn:Hhyd.
  { unfold after. by rewrite hydrate_hydrated. }
  destruct Hw as (Hnd & Hk & Hm & Hh). destruct ok.
  2:{ destruct (hydrate_rejected w Hhyd) as (_ & Hs & _ & Hj).
      unfold mirrors, all. rewrite Hs, Hj. auto. }
  destruct (hydrate_done w Hhyd) as (loaded & Hp & _ & Hs & Hj).
  unfold mirrors, all. rewrite Hs, Hj. wsimpl.
  split; [|split; [done|split]].
  - rewrite <- id_persisted, Hp, id_persisted.
    rewrite merge_sort_Permutation, records_ids by done.
    apply NoDup_fst_map_to_list.
  - intros e He.
    assert (Hpe : persisted e ∈ persisted <$> loaded) by (by apply list_elem_of_fmap_2).
    rewrite Hp in Hpe. apply list_elem_of_fmap in Hpe as (r & Her & Hr).
    rewrite merge_sort_Permutation in Hr.
    apply records_lookup in Hr as (k & Hkr).
    assert (id e = k).
    { rewrite <- (Hk k r Hkr).
      change (id (persisted e) = id (persisted r)). by rewrite Her. }
    subst k. by rewrite Hkr, Her.
  - intros _ k r Hkr.
    assert (Hr : persisted r ∈ persisted <$> loaded).
    { rewrite Hp. apply list_elem_of_fmap_2. rewrite merge_sort_Permutation.
      by eapply records_elem. }
    apply list_elem_of_fmap in Hr as (e & Her & He).
    exists e. split; [done|]. rewrite <- (Hk k r Hkr).
    change (id (persisted e) = id (persisted r)). by rewrite Her.
Qed.

Lemma perform_mirrors (w : World) (o : Op) :
  mirrors w -> tidy w o -> mirrors (after (perform o) w).
Proof.
  destruct o; cbn [perform].
  - apply addEntry_mirrors.
  - apply updateEntry_mirrors.
  - intros. by apply removeEntry_mirrors.
  - intros. by apply clearAll_mirrors.
  - intros. by apply hydrate_mirrors.
Qed.

Lemma run_mirrors (ops : list Op) (w : World) :
  mirrors w -> along tidy ops w -> mirrors (run ops w).
Proof.
  revert w. induction ops as [|o ops IH]; intros w Hw Hops; [done|].
  destruct Hops as [Ho Hops]. cbn [run foldl]. apply IH; [|done].
  by apply perform_mirrors.
Qed.

Lemma boot_mirrors (t : gmap string JournalEntry) : keyed t -> mirrors (boot t).
Proof.
  intros Ht. unfold mirrors, boot, all. wsimpl.
  split; [constructor|]. split; [done|]. split; [|discriminate].
  intros e He. by apply elem_of_nil in He.
Qed.

Lemma mirrors_Permutation (w : World) :
  mirrors w -> hydrated (state w) = true ->
  persisted <$> all w ≡ₚ persisted <$> records (journals w).
Proof.
  intros (Hnd & Hk & Hm & Hh) Hhyd. apply NoDup_Permutation.
  - apply (NoDup_fmap_1 id). by rewrite id_persisted.
  - apply (NoDup_fmap_1 id). rewrite id_persisted, records_ids by done.
    apply NoDup_fst_map_to_list.
  - intros x. split; intros Hx.
    + apply list_elem_of_fmap in Hx as (e & -> & He).
      specialize (Hm e He).
      destruct (journals w !! id e) as [r|] eqn:Hr; [|discriminate].
      apply (inj Some) in Hm. rewrite <- Hm.
      apply list_elem_of_fmap_2. by eapply records_elem.
    + apply list_elem_of_fmap in Hx as (r & -> & Hr).
      apply records_lookup in Hr as (k & Hkr).
      destruct (Hh Hhyd k r Hkr) as (e & He & Hid).
      specialize (Hm e He). rewrite Hid in Hm. rewrite Hkr in Hm.
      apply (inj Some) in Hm. rewrite Hm. by apply list_elem_of_fmap_2.
Qed.

(** X3. From a page load on a table keyed by id, through any sequence of
    calls in which added entries have ids that are not in memory and
    patches leave [id] alone, whether the writes and reads succeed or
    reject: ids in memory stay unique, every entry in memory is the
    record stored under its id (playback handle apart) and, once
    hydrated, the in-memory list and the table hold the same entries. *)
Theorem memory_mirrors_table (t : gmap string JournalEntry) (ops : list Op) :
  keyed t -> along tidy ops (boot t) ->
  let w := run ops (boot t) in
  mirrors w
  /\ (hydrated (state w) = true ->
      persisted <$> all w ≡ₚ persisted <$> records (journals w)).
Proof.
  intros Ht Hops w.
  assert (Hw : mirrors w) by (apply run_mirrors; [by apply boot_mirrors|done]).
  split; [done|]. by apply mirrors_Permutation.
Qed.

Lemma memory_mirrors_table_witness :
  let ops := [Add true march3_later; Hydrate false; Hydrate true;
              Update true "a" (newAudio "retake"); Remove false "c";
              Remove true "c"] in
  keyed savedTable
  /\ along tidy ops (boot savedTable)
  /\ persisted <$> all (run ops (boot savedTable))
     ≡ₚ persisted <$> records (journals (run ops (boot savedTable))).
Proof.
  intros ops.
  assert (H1 : along tidy ops (boot savedTable)).
  { subst ops. cbn [along tidy]. repeat split.
    eapply bool_decide_unpack. by vm_compute. }
  split; [exact keyed_savedTable|]. split; [exact H1|].
  apply (proj2 (memory_mirrors_table savedTable ops keyed_savedTable H1)).
  by vm_compute.
Defined.

Lemma find_filter_other (k key : string) (l : list JournalEntry) :
  k <> key ->
  List.find (hasId k) (filter (fun item => id item <> key) l)
  = List.find (hasId k) l.
Proof.
  intros Hne. induction l as [|e l IH]; [reflexivity|].
  rewrite filter_cons. destruct (decide (id e <> key)) as [Hid|Hid].
  - cbn [List.find]. by rewrite IH.
  - cbn [List.find]. rewrite IH.
    destruct (hasId k e) eqn:Hk; [|reflexivity].
    apply hasId_true in Hk. exfalso. apply Hid. congruence.
Qed.

Lemma find_filter_same (key : string) (l : list JournalEntry) :
  List.find (hasId key) (filter (fun item => id item <> key) l) = None.
Proof.
  induction l as [|e l IH]; [reflexivity|].
  rewrite filter_cons. destruct (decide (id e <> key)) as [Hid|Hid]; [|exact IH].
  cbn [List.find]. rewrite IH.
  destruct (hasId key e) eqn:Hk; [|reflexivity].
  apply hasId_true in Hk. contradiction.
Qed.

Lemma filter_none (key : string) (l : list JournalEntry) :
  List.find (hasId key) l = None ->
  filter (fun item => id item <> key) l = l.
Proof.
  induction l as [|e l IH]; [reflexivity|]. cbn [List.find].
  destruct (hasId key e) eqn:Hk; [discriminate|]. intros H.
  rewrite filter_cons. destruct (decide (id e <> key)) as [Hid|Hid].
  - by rewrite IH.
  - exfalso. apply Hid. intros Heq. apply hasId_true in Heq. congruence.
Qed.

Lemma find_replace_other (k key : string) (updated : JournalEntry)
    (l : list JournalEntry) :
  k <> key -> id updated = key ->
  List.find (hasId k)
    ((fun entry => if hasId key entry then updated else entry) <$> l)
  = List.find (hasId k) l.
Proof.
  intros Hne Hid. induction l as [|e l IH]; [reflexivity|].
  rewrite fmap_cons. cbn [List.find]. rewrite IH.
  destruct (hasId key e) eqn:Hk.
  - apply hasId_true in Hk.
    assert (H1 : hasId k updated = false).
    { apply not_true_iff_false. intros H. apply hasId_true in H. congruence. }
    assert (H2 : hasId k e = false).
    { apply not_true_iff_false. intros H. apply hasId_true in H. congruence. }
    by rewrite H1, H2.
  - reflexivity.
Qed.

Lemma find_replace_same (key : string) (updated existing : JournalEntry)
    (l : list JournalEntry) :
  List.find (hasId key) l = Some existing -> id updated = key ->
  List.find (hasId key)
    ((fun entry => if hasId key entry then updated else entry) <$> l)
  = Some updated.
Proof.
  intros Hfind Hid. induction l as [|e l IH]; [discriminate|].
  rewrite fmap_cons. cbn [List.find] in *.
  destruct (hasId key e) eqn:Hk.
  - apply hasId_true in Hid. by rewrite Hid.
  - rewrite Hk. by apply IH.
Qed.

(** X4. After a successful [addEntry] the entry is the head of the
    in-memory list, with its persisted fields as given, and [getEntry]
    finds it under its id, in front of any older entry with the same id;
    other ids are found as before. A supplied [audioUrl] is kept and no
    URL is created; without one, a URL of the blob is created and is
    live. *)
Theorem addEntry_then_getEntry (w : World) (entry : JournalEntry) :
  let w' := after (addEntry true entry) w in
  exists added,
    all w' = added :: all w
    /\ persisted added = persisted entry
    /\ getEntry (id entry) (state w') = Some added
    /\ (forall key, key <> id entry ->
          getEntry key (state w') = getEntry key (state w))
    /\ hydrated (state w') = hydrated (state w)
    /\ match audioUrl entry, audioBlob entry with
       | Some u, _ => audioUrl added = Some u /\ urls w' = urls w
       | None, Some b =>
           audioUrl added = Some (URL.nth_url (URL.minted (urls w)))
           /\ URL.live (urls w') !! URL.nth_url (URL.minted (urls w)) = Some b
       | None, None => audioUrl added = None /\ urls w' = urls w
       end.
Proof.
  intros w'. subst w'. unfold getEntry, all.
  assert (Hfind : forall u key, key <> id entry ->
            List.find (hasId key) (with_audioUrl u entry :: entries (state w))
            = List.find (hasId key) (entries (state w))).
  { intros u key Hne. cbn [List.find].
    destruct (hasId key (with_audioUrl u entry)) eqn:Hk; [|reflexivity].
    apply hasId_true in Hk. cbn [id with_audioUrl] in Hk. congruence. }
  assert (Hhere : forall u,
            List.find (hasId (id entry)) (with_audioUrl u entry :: entries (state w))
            = Some (with_audioUrl u entry)).
  { intros u. cbn [List.find].
    assert (H : hasId (id entry) (with_audioUrl u entry) = true)
      by (by apply hasId_true).
    by rewrite H. }
  unfold_async.
  destruct (audioUrl entry) as [u|] eqn:Hu; [|destruct (audioBlob entry) as [b|] eqn:Hb];
    wsimpl; eexists; (split; [reflexivity|]); (split; [reflexivity|]);
    (split; [apply Hhere|]); (split; [apply Hfind|]); (split; [reflexivity|]).
  - split; [reflexivity|]. by destruct (urls w).
  - split; [reflexivity|]. apply lookup_insert_eq.
  - split; [reflexivity|]. by destruct (urls w).
Qed.

Lemma removeEntry_effects (w : World) (ok : bool) (key : string) :
  effects (removeEntry ok key) w
  = Delete ok key
    :: (if ok
        then match getEntry key (state w) ≫= isBlobUrl with
             | Some u => [Revoked u]
             | None => []
             end
        else []).
Proof.
  apply effects_app. unfold getEntry. unfold_async. destruct ok; wsimpl; [|done].
  destruct (List.find (hasId key) (entries (state w))) as [e|]; wsimpl;
    cbn [mbind option_bind]; [|done].
  destruct (isBlobUrl e); wsimpl; [|done]. by rewrite <- app_assoc.
Qed.

(** X5. A successful [removeEntry] deletes the record of the id from the
    table and every entry with the id from memory, so that [getEntry]
    no longer finds it; other ids are found as before in memory and in
    the table. It calls [delete] once and revokes the blob URL of the
    entry it found, if it has one. *)
Theorem removeEntry_removes (w : World) (key : string) :
  let w' := after (removeEntry true key) w in
  outcome (removeEntry true key) w = Returns tt
  /\ getEntry key (state w') = None
  /\ journals w' !! key = None
  /\ (forall k, k <> key ->
        getEntry k (state w') = getEntry k (state w)
        /\ journals w' !! k = journals w !! k)
  /\ hydrated (state w') = hydrated (state w)
  /\ effects (removeEntry true key) w
     = Delete true key
       :: match getEntry key (state w) ≫= isBlobUrl with
          | Some u => [Revoked u]
          | None => []
          end.
Proof.
  intros w'. subst w'. destruct (removeEntry_done w key) as (Ho & Hs & Hj).
  rewrite Hs, Hj. unfold getEntry. wsimpl.
  split; [exact Ho|]. split; [apply find_filter_same|].
  split; [apply lookup_delete_eq|]. split; [|split; [reflexivity|]].
  - intros k Hne. split; [by apply find_filter_other|].
    by apply lookup_delete_ne.
  - apply (removeEntry_effects w true key).
Qed.

(** X6. For an id that no entry in memory has, [updateEntry] returns
    without touching anything: no write, no URL. [removeEntry] still
    calls [delete] for the id, so a record stored under it is removed
    from the table, but leaves memory and the URL store as they were. *)
Theorem unknown_id_is_left_alone (w : World) (key : string) :
  getEntry key (state w) = None ->
  (forall ok patch, updateEntry ok key patch w = (Returns tt, w))
  /\ (forall ok,
        state (after (removeEntry ok key) w) = state w
        /\ urls (after (removeEntry ok key) w) = urls w
        /\ effects (removeEntry ok key) w = [Delete ok key]
        /\ journals (after (removeEntry ok key) w)
           = if ok then delete key (journals w) else journals w).
Proof.
  intros Hfind. split.
  - intros ok patch. unfold getEntry in Hfind.
    unfold updateEntry, get, bind, ret. by rewrite Hfind.
  - intros ok. rewrite removeEntry_effects, Hfind. cbn [mbind option_bind].
    destruct ok.
    + destruct (removeEntry_done w key) as (_ & Hs & Hj). rewrite Hs, Hj.
      unfold getEntry in Hfind. rewrite (filter_none _ _ Hfind).
      split; [by destruct (state w)|]. split; [|done].
      unfold_async. wsimpl. rewrite Hfind. wsimpl. reflexivity.
    + destruct (removeEntry_rejected w key) as (_ & Hs & Hj).
      rewrite Hs, Hj. split; [done|]. split; [|done].
      unfold_async. wsimpl. reflexivity.
Qed.

(** X7. A successful [updateEntry] with a patch that leaves [id] alone
    replaces the entry by the merge of the patch over it, in place:
    [getEntry] finds the merged entry, the table holds its persisted
    fields under the id, the ids of the list are as before and other ids
    are found as before. Without a new blob in the patch no URL is
    created or revoked and the one write is the only effect. *)
Theorem updateEntry_merges (w : World) (key : string) (patch : Patch)
    (existing : JournalEntry) :
  getEntry key (state w) = Some existing ->
  p_id patch = None ->
  let w' := after (updateEntry true key patch) w in
  exists updated,
    getEntry key (state w') = Some updated
    /\ persisted updated = persisted (spread existing patch)
    /\ journals w' !! key = Some (persisted updated)
    /\ id <$> all w' = id <$> all w
    /\ (forall k, k <> key ->
          getEntry k (state w') = getEntry k (state w)
          /\ journals w' !! k = journals w !! k)
    /\ ((forall blob, p_audioBlob patch <> Some (Some blob)) ->
        audioUrl updated = default (audioUrl existing) (p_audioUrl patch)
        /\ urls w' = urls w
        /\ effects (updateEntry true key patch) w = [Put true (persisted updated)]).
Proof.
  intros Hfind Hid w'. subst w'.
  destruct (updateEntry_done w key patch existing Hfind)
    as (updated & Hup & _ & Hs & Hj).
  pose proof (find_hasId _ _ _ Hfind) as [Hin Hkey].
  assert (Hidu : id updated = key).
  { rewrite Hup. destruct (p_audioBlob patch) as [[blob|]|];
      cbn [id with_audioUrl spread]; rewrite Hid; exact Hkey. }
  exists updated. unfold getEntry, all in *. rewrite Hs, Hj. wsimpl.
  split; [by eapply find_replace_same|].
  split; [rewrite Hup; by destruct (p_audioBlob patch) as [[blob|]|]|].
  split; [rewrite Hidu; apply lookup_insert_eq|].
  split; [by apply replace_ids|]. split.
  - intros k Hne. split; [by apply find_replace_other|].
    rewrite Hidu. by apply lookup_insert_ne.
  - intros Hnoblob.
    assert (Hsp : updated = spread existing patch).
    { rewrite Hup. destruct (p_audioBlob patch) as [[blob|]|]; [|done|done].
      by destruct (Hnoblob blob). }
    split; [by rewrite Hsp|]. rewrite Hsp.
    split.
    + unfold_async. rewrite Hfind.
      destruct (p_audioBlob patch) as [[blob|]|]; wsimpl; [|done|done].
      by destruct (Hnoblob blob).
    + apply effects_app. unfold_async. rewrite Hfind.
      destruct (p_audioBlob patch) as [[blob|]|]; wsimpl; [|done|done].
      by destruct (Hnoblob blob).
Qed.

Lemma unknown_id_is_left_alone_witness :
  getEntry "a" (state (boot savedTable)) = None
  /\ updateEntry true "a" (newAudio "retake") (boot savedTable)
     = (Returns tt, boot savedTable)
  /\ journals (after (removeEntry true "a") (boot savedTable))
     = delete "a" savedTable.
Proof.
  assert (H : getEntry "a" (state (boot savedTable)) = None) by reflexivity.
  destruct (unknown_id_is_left_alone (boot savedTable) "a" H) as [Hup Hrm].
  split; [exact H|]. split; [apply Hup|].
  exact (proj2 (proj2 (proj2 (Hrm true)))).
Defined.

Lemma updateEntry_merges_witness :
  let w := run [Hydrate true] (boot savedTable) in
  getEntry "c" (state w) = Some march2
  /\ exists updated,
       getEntry "c" (state (after (updateEntry true "c" (retitled "Walk")) w))
       = Some updated
       /\ persisted updated = persisted (spread march2 (retitled "Walk")).
Proof.
  intros w.
  assert (H : getEntry "c" (state w) = Some march2) by (by vm_compute).
  split; [exact H|].
  destruct (updateEntry_merges w "c" (retitled "Walk") march2 H eq_refl)
    as (updated & Hget & Hp & _).
  exists updated. split; [exact Hget|exact Hp].
Defined.

(** X8. When the store rejects, [clearAll] and [hydrate] throw and
    leave memory, the table and the URL store as they were. The flag
    stays unset after a failed [hydrate], so the next call reads again
    and loads every record. *)
Theorem failed_clear_and_hydrate_change_nothing (w : World) :
  (outcome (clearAll false) w = Throws PersistenceError
   /\ state (after (clearAll false) w) = state w
   /\ journals (after (clearAll false) w) = journals w
   /\ urls (after (clearAll false) w) = urls w)
  /\ (hydrated (state w) = false ->
      outcome (hydrate false) w = Throws PersistenceError
      /\ state (after (hydrate false) w) = state w
      /\ journals (after (hydrate false) w) = journals w
      /\ urls (after (hydrate false) w) = urls w
      /\ let w' := after (hydrate true) (after (hydrate false) w) in
         outcome (hydrate true) (after (hydrate false) w) = Returns tt
         /\ hydrated (state w') = true
         /\ persisted <$> all w' ≡ₚ persisted <$> records (journals w)).
Proof.
  split; [apply clearAll_rejected|]. intros Hh.
  destruct (hydrate_rejected w Hh) as (Ho & Hs & Hu & Hj).
  split; [done|]. split; [done|]. split; [done|]. split; [done|].
  assert (Hh' : hydrated (state (after (hydrate false) w)) = false) by (by rewrite Hs).
  destruct (hydrate_done _ Hh') as (loaded & Hp & Ho' & Hs' & Hj').
  cbv zeta. unfold all. rewrite Hs'. wsimpl.
  split; [done|]. split; [done|]. rewrite Hp, Hj.
  apply fmap_Permutation, merge_sort_Permutation.
Qed.

Lemma revokeAll_live (l : list JournalEntry) (w : World) :
  exists x w',
    mapAsync revokeAudioUrl l w = (Returns x, w')
    /\ URL.minted (urls w') = URL.minted (urls w)
    /\ (forall u b, URL.live (urls w') !! u = Some b ->
                    URL.live (urls w) !! u = Some b)
    /\ (forall e u, e ∈ l -> isBlobUrl e = Some u ->
                    URL.live (urls w') !! u = None)
    /\ (forall u, (forall e, e ∈ l -> isBlobUrl e <> Some u) ->
                  URL.live (urls w') !! u = URL.live (urls w) !! u).
Proof.
  revert w. induction l as [|e l IH]; intros w.
  - exists [], w. repeat split; auto. intros e u He. by apply elem_of_nil in He.
  - assert (H1 : exists w1, revokeAudioUrl e w = (Returns tt, w1)
                   /\ URL.minted (urls w1) = URL.minted (urls w)
                   /\ URL.live (urls w1)
                      = match isBlobUrl e with
                        | Some old => delete old (URL.live (urls w))
                        | None => URL.live (urls w)
                        end).
    { unfold revokeAudioUrl, revokeObjectURL, ret, URL.revokeObjectURL.
      destruct (isBlobUrl e) as [old|]; eexists; (split; [reflexivity|]);
        wsimpl; auto. }
    destruct H1 as (w1 & Hr1 & Hm1 & Hl1).
    destruct (IH w1) as (x & w2 & Hr2 & Hm2 & Hsub & Hgone & Hkept).
    exists (tt :: x), w2. split.
    { cbn [mapAsync].
      by rewrite (bind_returns _ _ _ _ _ Hr1), (bind_returns _ _ _ _ _ Hr2). }
    split; [congruence|].
    assert (Hsub1 : forall u b, URL.live (urls w1) !! u = Some b ->
                      URL.live (urls w) !! u = Some b).
    { intros u b. rewrite Hl1. destruct (isBlobUrl e) as [old|]; [|done].
      intros H. apply lookup_delete_Some in H. tauto. }
    split; [|split].
    + intros u b H. by apply Hsub1, Hsub.
    + intros e' u He' Hu. apply elem_of_cons in He' as [->|He']; [|by eapply Hgone].
      destruct (URL.live (urls w2) !! u) as [b|] eqn:E; [|done].
      apply Hsub in E. rewrite Hl1, Hu, lookup_delete_eq in E. discriminate.
    + intros u Hnone.
      rewrite Hkept by (intros e' He'; apply Hnone; by apply list_elem_of_further).
      rewrite Hl1. specialize (Hnone e (list_elem_of_here _ _)).
      destruct (isBlobUrl e) as [old|]; [|done].
      apply lookup_delete_ne. congruence.
Qed.

(** X9. A successful [clearAll] leaves no entry in memory and no record
    in the table, keeps the [hydrated] flag, and revokes the blob URL of
    every entry that was in memory while leaving every other URL as it
    was. The streak is then 0, and a new page load finds nothing. *)
Theorem clearAll_empties_memory_and_table (w : World) :
  let w' := after (clearAll true) w in
  outcome (clearAll true) w = Returns tt
  /\ all w' = [] /\ journals w' = ∅
  /\ hydrated (state w') = hydrated (state w)
  /\ getStreakCount (state w') = 0
  /\ (forall e u, e ∈ all w -> isBlobUrl e = Some u ->
                  URL.live (urls w') !! u = None)
  /\ (forall u, (forall e, e ∈ all w -> isBlobUrl e <> Some u) ->
                URL.live (urls w') !! u = URL.live (urls w) !! u)
  /\ all (after (hydrate true) (boot (journals w'))) = [].
Proof.
  intros w'. subst w'. destruct (clearAll_done w) as (Ho & Hs & Hj).
  unfold all. rewrite Hs, Hj. wsimpl.
  split; [done|]. split; [done|]. split; [done|]. split; [done|].
  split; [reflexivity|].
  destruct (clearAll_run w) as (x & w1 & Hrun & Hclear).
  destruct (revokeAll_live (entries (state w))
              (logged (ClearTable true) (with_journals ∅ w)))
    as (x' & w1' & Hrun' & _ & _ & Hgone & Hkept).
  rewrite Hrun in Hrun'. injection Hrun' as <- <-.
  unfold after. rewrite Hclear. wsimpl.
  split; [exact Hgone|]. split; [exact Hkept|]. by vm_compute.
Qed.

Lemma hydrate_boot_mirrors (t : gmap string JournalEntry) :
  keyed t ->
  let w := after (hydrate true) (boot t) in
  mirrors w /\ hydrated (state w) = true /\ journals w = t.
Proof.
  intros Ht w. subst w.
  assert (Hh : hydrated (state (boot t)) = false) by reflexivity.
  split; [apply hydrate_mirrors; by apply boot_mirrors|].
  destruct (hydrate_done _ Hh) as (loaded & _ & _ & Hs & Hj).
  rewrite Hs, Hj. auto.
Qed.

Lemma hydrate_boot_lookup (t : gmap string JournalEntry) (k : string) :
  keyed t ->
  persisted <$> getEntry k (state (after (hydrate true) (boot t)))
  = persisted <$> t !! k.
Proof.
  intros Ht. destruct (hydrate_boot_mirrors t Ht) as ((_ & _ & Hm & Hh) & Hhyd & Hj).
  unfold getEntry, all in *. rewrite Hj in Hm, Hh.
  destruct (List.find (hasId k) _) as [e|] eqn:Hfind.
  - apply find_hasId in Hfind as [He Hid]. specialize (Hm e He).
    rewrite Hid in Hm. by rewrite Hm.
  - destruct (t !! k) as [r|] eqn:Hr; [|done].
    destruct (Hh Hhyd k r Hr) as (e & He & Hid).
    exfalso. by eapply find_hasId_none.
Qed.

(** X10. After a page load over a table keyed by id, [hydrate] leaves
    in memory exactly one entry per record: [getEntry] finds under every
    id what the table holds under it (playback handle apart) and nothing
    under an id the table does not hold; the table is not written. *)
Theorem reload_finds_the_stored_records (t : gmap string JournalEntry) :
  keyed t ->
  let w := after (hydrate true) (boot t) in
  (forall k, persisted <$> getEntry k (state w) = persisted <$> t !! k)
  /\ length (all w) = size t
  /\ journals w = t.
Proof.
  intros Ht w. subst w. split; [intros k; by apply hydrate_boot_lookup|].
  assert (Hh : hydrated (state (boot t)) = false) by reflexivity.
  destruct (hydrate_done _ Hh) as (loaded & Hp & _ & Hs & Hj).
  unfold all. rewrite Hs, Hj. wsimpl. split; [|done].
  apply (f_equal length) in Hp. rewrite !length_fmap in Hp. rewrite Hp.
  rewrite merge_sort_Permutation. unfold records.
  by rewrite length_fmap, length_map_to_list.
Qed.

(** X11. An entry removed by a successful [removeEntry] does not come
    back: after the next page load, [hydrate] finds no entry under its
    id, and finds every other record as the table held it before. *)
Theorem removed_entry_stays_removed (w : World) (key : string) :
  keyed (journals w) ->
  let w1 := after (removeEntry true key) w in
  let w2 := after (hydrate true) (boot (journals w1)) in
  getEntry key (state w2) = None
  /\ (forall k, k <> key ->
        persisted <$> getEntry k (state w2) = persisted <$> journals w !! k).
Proof.
  intros Hk w1 w2. subst w1 w2.
  destruct (removeEntry_done w key) as (_ & _ & Hj). rewrite Hj.
  assert (Hkd : keyed (delete key (journals w))) by (by apply keyed_delete).
  split.
  - pose proof (hydrate_boot_lookup _ key Hkd) as H.
    rewrite lookup_delete_eq in H.
    by destruct (getEntry key _).
  - intros k Hne. rewrite (hydrate_boot_lookup _ k Hkd).
    by rewrite lookup_delete_ne.
Qed.

Lemma reload_finds_the_stored_records_witness :
  keyed savedTable
  /\ persisted <$> getEntry "a" (state (after (hydrate true) (boot savedTable)))
     = Some (persisted march3)
  /\ getEntry "b" (state (after (hydrate true) (boot savedTable))) = None.
Proof.
  destruct (reload_finds_the_stored_records savedTable keyed_savedTable)
    as (H & _).
  split; [exact keyed_savedTable|]. split.
  - rewrite H. by vm_compute.
  - pose proof (H "b") as Hb.
    destruct (getEntry "b" (state (after (hydrate true) (boot savedTable))));
      [by vm_compute in Hb|done].
Defined.

Lemma removed_entry_stays_removed_witness :
  keyed (journals (boot savedTable))
  /\ getEntry "a"
       (state (after (hydrate true)
                 (boot (journals (after (removeEntry true "a") (boot savedTable))))))
     = None.
Proof.
  split; [exact keyed_savedTable|].
  exact (proj1 (removed_entry_stays_removed (boot savedTable) "a" keyed_savedTable)).
Defined.

Lemma loadRecords_urls (l : list JournalEntry) (w : World) :
  Forall (fun r => audioUrl r = None) l ->
  exists l' w',
    mapAsync loadRecord l w = (Returns l', w')
    /\ omap audioUrl l'
       = URL.nth_url <$> seq (URL.minted (urls w)) (length (List.filter hasAudio l))
    /\ URL.minted (urls w')
       = URL.minted (urls w) + length (List.filter hasAudio l).
Proof.
  revert w. induction l as [|r l IH]; intros w Hl.
  - exists [], w. cbn. auto.
  - inversion Hl as [|? ? Hr Hl']; subst.
    assert (H1 : exists e w1, loadRecord r w = (Returns e, w1)
                   /\ (if hasAudio r
                       then audioUrl e = Some (URL.nth_url (URL.minted (urls w)))
                            /\ URL.minted (urls w1) = S (URL.minted (urls w))
                       else audioUrl e = None
                            /\ URL.minted (urls w1) = URL.minted (urls w))).
    { unfold loadRecord, audioUrlOrDerived, hasAudio. rewrite Hr.
      destruct (audioBlob r) as [b|]; eexists _, _; unfold_async; wsimpl; auto. }
    destruct H1 as (e & w1 & Hrun1 & H1).
    destruct (IH w1 Hl') as (l' & w2 & Hrun2 & Hu2 & Hm2).
    exists (e :: l'), w2. split.
    { cbn [mapAsync].
      by rewrite (bind_returns _ _ _ _ _ Hrun1), (bind_returns _ _ _ _ _ Hrun2). }
    cbn [List.filter omap list_omap]. destruct (hasAudio r); destruct H1 as [He Hm1].
    + rewrite He, Hu2, Hm2, Hm1. cbn [length seq fmap list_fmap].
      split; [reflexivity|lia].
    + rewrite He, Hu2, Hm2, Hm1. split; reflexivity.
Qed.

Lemma List_filter_Permutation {A} (f : A -> bool) (l l' : list A) :
  l ≡ₚ l' -> List.filter f l ≡ₚ List.filter f l'.
Proof.
  induction 1 as [|x l l' _ IH|x y l|l1 l2 l3 _ IH1 _ IH2]; cbn [List.filter].
  - reflexivity.
  - destruct (f x); [by apply perm_skip|done].
  - destruct (f x), (f y); try reflexivity. apply perm_swap.
  - by etransitivity.
Qed.

Lemma persisted_durable (r : JournalEntry) : audioUrl r = None -> persisted r = r.
Proof. destruct r. cbn. by intros ->. Qed.

Lemma Forall_durable_records (t : gmap string JournalEntry) :
  durable t -> Forall (fun r => audioUrl r = None) (records t).
Proof.
  intros Ht. apply Forall_forall. intros r Hr.
  apply records_lookup in Hr as (k & Hkr). by eapply Ht.
Qed.

(** X12. Over a table whose records hold no playback handle (as every
    record written by [saveJournal]), [hydrate] after a page load
    creates exactly one blob URL for each record that has a recording
    and none for the others: every loaded entry is its record with, for
    a recording, a live URL of its blob, and no two entries share a
    URL. *)
Theorem hydrate_gives_each_recording_its_own_handle (t : gmap string JournalEntry) :
  durable t ->
  let w := after (hydrate true) (boot t) in
  let n := length (List.filter hasAudio (records t)) in
  URL.minted (urls w) = n
  /\ omap audioUrl (all w) = URL.nth_url <$> seq 0 n
  /\ NoDup (omap audioUrl (all w))
  /\ (forall k r, t !! k = Some r ->
        exists e, e ∈ all w /\ persisted e = r
          /\ match audioBlob r with
             | Some b => exists u, audioUrl e = Some u
                                   /\ URL.live (urls w) !! u = Some b
             | None => audioUrl e = None
             end).
Proof.
  intros Ht w n.
  assert (Hh : hydrated (state (boot t)) = false) by reflexivity.
  destruct (hydrate_loads (boot t) Hh) as (loaded & w1 & Hrun & Hhyd).
  assert (Hd : Forall (fun r => audioUrl r = None)
                 (merge_sort indexOrder (records (journals (boot t))))).
  { rewrite merge_sort_Permutation. by apply Forall_durable_records. }
  destruct (loadRecords_urls _ (logged (ToArray true) (boot t)) Hd)
    as (loaded' & w1' & Hrun' & Hu & Hm).
  rewrite Hrun in Hrun'. injection Hrun' as <- <-.
  assert (Hn : length (List.filter hasAudio
                 (merge_sort indexOrder (records (journals (boot t))))) = n).
  { subst n. apply Permutation_length, List_filter_Permutation.
    apply merge_sort_Permutation. }
  rewrite Hn in Hu, Hm.
  assert (Hw : all w = loaded /\ urls w = urls w1).
  { subst w. unfold after, all. rewrite Hhyd. wsimpl. auto. }
  destruct Hw as [Hall Hurls]. rewrite Hall, Hurls.
  split; [exact Hm|]. split; [exact Hu|]. split.
  - rewrite Hu. apply NoDup_fmap_2; [|apply NoDup_seq].
    intros j k. apply nth_url_inj.
  - intros k r Hkr. destruct (hydrate_boot_reads t k r Hkr) as (e & He & Hp & Hl).
    fold w in He, Hl. rewrite Hall in He. rewrite Hurls in Hl.
    exists e. split; [done|]. pose proof (Ht k r Hkr) as Hl0. rewrite Hl0 in Hl.
    split.
    + (* the record holds no handle *)
      apply persisted_durable in Hl0. congruence.
    + destruct (audioBlob r) as [b|]; [|done].
      destruct Hl as (u & H1 & _ & H2). eauto.
Qed.

Lemma durable_savedTable : durable savedTable.
Proof.
  intros k r H. unfold savedTable in H.
  destruct (decide (k = id march3)) as [->|H3].
  - rewrite lookup_insert_eq in H. by injection H as <-.
  - rewrite lookup_insert_ne in H by done.
    destruct (decide (k = id march2)) as [->|H2].
    + rewrite lookup_insert_eq in H. by injection H as <-.
    + rewrite lookup_insert_ne in H by done. by rewrite lookup_empty in H.
Qed.

Lemma hydrate_gives_each_recording_its_own_handle_witness :
  durable savedTable
  /\ URL.minted (urls (after (hydrate true) (boot savedTable))) = 1
  /\ omap audioUrl (all (after (hydrate true) (boot savedTable))) = ["blob:0"].
Proof.
  destruct (hydrate_gives_each_recording_its_own_handle savedTable durable_savedTable)
    as (Hm & Hu & _).
  split; [exact durable_savedTable|]. split.
  - rewrite Hm. by vm_compute.
  - rewrite Hu. by vm_compute.
Defined.

(* ===================================================================== *)
(** * Further properties: the recorder                                    *)
(* ===================================================================== *)

Section RecorderRuns.

Import Recorder.

Ltac rsimpl :=
  cbn [status elapsed errorMessage previewUrl previewDuration mediaRecorderRef
       streamRef chunksRef timerRef elapsedRef urls intervals nextInterval
       openStreams nextStream emitted URL.minted URL.live
       URL.createObjectURL URL.revokeObjectURL
       from_option Datatypes.id negb] in *.

Lemma clearInterval_only (t : nat) : clearInterval t [t] = [].
Proof. unfold clearInterval. cbn. by rewrite Nat.eqb_refl. Qed.

Lemma nth_url_truthy (k : nat) : truthy (Some (URL.nth_url k)) = true.
Proof.
  pose proof (nth_url_blob k) as H.
  destruct (URL.nth_url k); [discriminate|reflexivity].
Qed.

Lemma tick_idle (t : nat) (c : Component) : intervals c = [] -> tick t c = c.
Proof. unfold tick. by intros ->. Qed.

Lemma initial_wellFormed : wellFormed initial.
Proof. unfold wellFormed, quiet, initial. rsimpl. auto 10. Qed.

Lemma act_wellFormed (a : Action) (c : Component) :
  wellFormed c ->
  match a with Tick _ => True | _ => offered c a = true end ->
  wellFormed (act a c).
Proof.
  intros [Hel Hc] Ha. destruct a as [g| |data| | |t|f]; cbn [act].
  - (* Start *)
    unfold offered in Ha. destruct (status c) eqn:Hst; try discriminate.
    destruct Hc as ((Hm & Hs & Ht & Hi & Ho) & Hp & Hl & He0).
    unfold wellFormed, quiet, startRecording, startTimer.
    destruct g; rsimpl; rewrite ?Hi, ?Ho; eauto 15.
  - (* Pause *)
    unfold offered in Ha. destruct (status c) eqn:Hst; try discriminate.
    + destruct Hc as (Hm & (s & Hs & Ho) & (t & Ht & Hi) & Hp & Hl).
      unfold wellFormed, handlePause, with_recorder, with_intervals.
      rewrite Hm, Ht. rsimpl. rewrite Hi, clearInterval_only. eauto 15.
    + destruct Hc as (Hm & (s & Hs & Ho) & Hi & Hp & Hl).
      unfold wellFormed, handlePause, with_recorder, startTimer.
      rewrite Hm. rsimpl. rewrite Hi. eauto 15.
  - (* Stop *)
    unfold offered in Ha. destruct (status c) eqn:Hst; try discriminate.
    destruct Hc as (Hm & (s & Hs & Ho) & (t & Ht & Hi) & Hp & Hl).
    unfold handleStop. rewrite Hm.
    unfold wellFormed, quiet, onstop, stopTracks, ondataavailable. destruct (String.eqb data EmptyString); rsimpl;
      rewrite ?Hs, ?Ht, ?Hi, ?Ho, ?clearInterval_only, ?Hl; rsimpl;
      cbn [List.filter]; rewrite ?Nat.eqb_refl; cbn [negb];
      (split; [done|]); (split; [auto 10|]); (split; [|done]);
      eexists; (split; [reflexivity|]); (split; [apply nth_url_truthy|]);
      apply insert_empty.
  - (* Discard *)
    unfold offered in Ha. destruct (status c) eqn:Hst; try discriminate.
    destruct Hc as ((Hm & Hs & Ht & Hi & Ho) & (u & Hp & Htr & Hl) & Hd).
    unfold wellFormed, quiet, handleDiscard, resetState, stopTracks.
    rsimpl. rewrite Hs, Ht, Hi, Ho, Hp, Htr. rsimpl.
    rewrite Hl, delete_singleton_eq. auto 15.
  - (* Save *)
    unfold offered in Ha. destruct (status c) eqn:Hst; try discriminate.
    destruct Hc as ((Hm & Hs & Ht & Hi & Ho) & (u & Hp & Htr & Hl) & Hd).
    unfold handleSave. rewrite Hp, Htr. cbn [negb].
    unfold wellFormed, quiet, resetState, stopTracks, emit. rsimpl. rewrite Hs, Ht, Hi, Ho, Hp, Htr. rsimpl.
    rewrite Hl, delete_singleton_eq. auto 15.
  - (* Tick *)
    unfold tick. destruct (existsb (Nat.eqb t) (intervals c)) eqn:Ht;
      [|by split].
    unfold wellFormed, quiet in *. rsimpl. split; [done|].
    destruct (status c); try exact Hc.
    all: destruct Hc as ((_ & _ & _ & Hi & _) & _); rewrite Hi in Ht;
      discriminate.
  - (* a start that throws *)
    unfold offered in Ha. destruct (status c) eqn:Hst; try discriminate.
    destruct Hc as ((Hm & Hs & Ht & Hi & Ho) & Hp & Hl & He0).
    unfold wellFormed, quiet, startRecording.
    destruct f; rsimpl; rewrite ?Ho; (split; [congruence|]); eauto 15.
Qed.

Lemma run_wellFormed (acts : list Action) (c : Component) :
  wellFormed c -> clickable acts c -> wellFormed (Recorder.run acts c).
Proof.
  revert c. induction acts as [|a acts IH]; intros c Hc Hacts; [done|].
  destruct Hacts as [Ha Hacts]. cbn [Recorder.run foldl]. apply IH; [|done].
  by apply act_wellFormed.
Qed.


Lemma act_pending (a : Action) (c : Component) :
  pending (act a c) <= pending c + grantedStarts [a].
Proof.
  unfold pending, grantedStarts.
  destruct a as [g| |data| | |t|f]; cbn [act List.filter length].
  - unfold startRecording, startTimer. destruct g; rsimpl; cbn [length].
    + destruct (mediaRecorderRef c) as [[| |]|]; lia.
    + lia.
  - unfold handlePause, with_recorder, with_intervals, startTimer.
    destruct (mediaRecorderRef c) as [[| |]|] eqn:Hm; rsimpl; rewrite ?Hm; try lia.
    destruct (timerRef c); rsimpl; lia.
  - unfold handleStop.
    destruct (mediaRecorderRef c) as [[| |]|] eqn:Hm; rewrite ?Hm; try lia.
    all: unfold onstop, stopTracks, ondataavailable;
      destruct (String.eqb data EmptyString); rsimpl;
      rewrite ?nth_url_truthy; destruct (truthy (previewUrl c)); lia.
  - unfold handleDiscard, resetState, stopTracks. rsimpl. cbn [truthy]. lia.
  - unfold handleSave. destruct (truthy (previewUrl c)) eqn:Hp; cbn [negb]; [|rewrite Hp; lia].
    unfold resetState, stopTracks, emit. rsimpl. cbn [truthy].
    rewrite length_app. cbn [length].
    destruct (mediaRecorderRef c) as [[| |]|]; lia.
  - unfold tick. destruct (existsb (Nat.eqb t) (intervals c)); rsimpl; lia.
  - unfold startRecording. destruct f; rsimpl;
      destruct (mediaRecorderRef c) as [[| |]|]; lia.
Qed.

Lemma grantedStarts_cons (a : Action) (acts : list Action) :
  grantedStarts (a :: acts) = grantedStarts [a] + grantedStarts acts.
Proof.
  unfold grantedStarts. cbn [List.filter]. by destruct a as [[|]| | | | | |].
Qed.

Lemma run_pending (acts : list Action) (c : Component) :
  pending (Recorder.run acts c) <= pending c + grantedStarts acts.
Proof.
  revert c. induction acts as [|a acts IH]; intros c.
  - cbn [Recorder.run foldl]. unfold grantedStarts. cbn [List.filter length]. lia.
  - change (Recorder.run (a :: acts) c) with (Recorder.run acts (act a c)).
    rewrite grantedStarts_cons.
    specialize (IH (act a c)). pose proof (act_pending a c). lia.
Qed.

Lemma error_stays (acts : list Action) (c : Component) :
  wellFormed c -> status c = error -> clickable acts c -> Recorder.run acts c = c.
Proof.
  intros Hc Hst. induction acts as [|a acts IH]; [done|].
  intros [Ha Hacts]. cbn [Recorder.run foldl].
  assert (Hact : act a c = c).
  { destruct a as [g| |data| | |t|f];
      try (unfold offered in Ha; rewrite Hst in Ha; discriminate).
    cbn [act]. apply tick_idle. destruct Hc as [_ Hc]. rewrite Hst in Hc.
    by destruct Hc as (_ & Hi & _). }
  rewrite Hact in *. by apply IH.
Qed.

End RecorderRuns.

(** X17. In every state the recorder reaches from its initial state by
    clicks on the buttons it shows (and timer ticks), exactly one
    microphone stream is open while it is recording or paused, and none
    while it is idle or shows a preview: Stop, Save and Discard leave no
    stream open and no recorder held. In the error status no stream is
    open after a denied start, but the stream of a start that threw after
    the microphone was granted is still open: from an idle state such a
    start leads to the error status with its stream open, and nothing the
    component shows there stops it. *)
Theorem microphone_stream_in_each_status (acts : list Recorder.Action) :
  clickable acts Recorder.initial ->
  let c := Recorder.run acts Recorder.initial in
  match Recorder.status c with
  | Recorder.recording | Recorder.paused =>
      exists s, Recorder.streamRef c = Some s /\ Recorder.openStreams c = [s]
  | Recorder.preview =>
      Recorder.streamRef c = None /\ Recorder.openStreams c = []
      /\ Recorder.mediaRecorderRef c = None
  | Recorder.idle =>
      Recorder.streamRef c = None /\ Recorder.openStreams c = []
      /\ Recorder.mediaRecorderRef c = None
      /\ (let denied := Recorder.act (Recorder.Start false) c in
          Recorder.status denied = Recorder.error
          /\ Recorder.openStreams denied = [])
      /\ (forall thrown more,
            let failed := Recorder.act (Recorder.StartThrows thrown) c in
            Recorder.status failed = Recorder.error
            /\ Recorder.openStreams failed = [Recorder.nextStream c]
            /\ (clickable more failed ->
                Recorder.openStreams (Recorder.run more failed)
                = [Recorder.nextStream c]))
  | Recorder.error =>
      (Recorder.streamRef c = None /\ Recorder.openStreams c = []
       /\ Recorder.mediaRecorderRef c = None)
      \/ (exists s, Recorder.streamRef c = Some s
                    /\ Recorder.openStreams c = [s])
  end.
Proof.
  intros Hacts c.
  pose proof (run_wellFormed acts _ initial_wellFormed Hacts) as Hw.
  fold c in Hw. pose proof Hw as [_ Hc]. unfold quiet in Hc.
  destruct (Recorder.status c) eqn:Hst; try tauto.
  destruct Hc as ((Hm & Hs & Ht & Hi & Ho) & _).
  split; [done|]. split; [done|]. split; [done|]. split.
  - cbn [Recorder.act]. unfold Recorder.startRecording.
    cbn [Recorder.status Recorder.openStreams]. by split.
  - intros thrown more failed.
    assert (Hst' : Recorder.status failed = Recorder.error)
      by (by destruct thrown).
    assert (Ho' : Recorder.openStreams failed = [Recorder.nextStream c]).
    { unfold failed. cbn [Recorder.act]. unfold Recorder.startRecording.
      destruct thrown; cbn [Recorder.openStreams]; by rewrite Ho. }
    split; [done|]. split; [done|]. intros Hmore.
    rewrite (error_stays more failed); [done| |done|done].
    apply act_wellFormed; [done|]. unfold Recorder.offered. by rewrite Hst.
Qed.

(** X18. In every state the recorder reaches from its initial state by
    clicks on the buttons it shows (and timer ticks), the displayed time
    equals the time kept for the recording; while recording exactly one
    interval timer is active and a tick adds one second; in every other
    status (paused, preview, idle, error) no timer is active and a tick
    changes nothing. *)
Theorem timer_runs_only_while_recording (acts : list Recorder.Action) :
  clickable acts Recorder.initial ->
  let c := Recorder.run acts Recorder.initial in
  Recorder.elapsed c = Recorder.elapsedRef c
  /\ (Recorder.status c = Recorder.recording ->
      exists t, Recorder.timerRef c = Some t /\ Recorder.intervals c = [t]
                /\ Recorder.elapsed (Recorder.tick t c)
                   = (Recorder.elapsed c + 1)%float)
  /\ (Recorder.status c <> Recorder.recording ->
      Recorder.intervals c = []
      /\ forall t, Recorder.tick t c = c).
Proof.
  intros Hacts c.
  pose proof (run_wellFormed acts _ initial_wellFormed Hacts) as [Hel Hc].
  fold c in Hc, Hel. unfold quiet in Hc. split; [exact Hel|]. split.
  - intros Hst. rewrite Hst in Hc. destruct Hc as (_ & _ & (t & Ht & Hi) & _).
    exists t. split; [done|]. split; [done|].
    unfold Recorder.tick. rewrite Hi. cbn [existsb]. by rewrite Nat.eqb_refl.
  - intros Hst.
    assert (Hi : Recorder.intervals c = []).
    { destruct (Recorder.status c); try tauto. }
    split; [exact Hi|]. intros t. by apply tick_idle.
Qed.

(** X19. In every state the recorder reaches from its initial state by
    clicks on the buttons it shows (and timer ticks), it keeps at most
    one object URL alive: in preview exactly the preview URL, which
    holds the recorded chunks, and none in any other status; Save and
    Discard revoke it. *)
Theorem preview_url_is_the_only_object_url (acts : list Recorder.Action) :
  clickable acts Recorder.initial ->
  let c := Recorder.run acts Recorder.initial in
  match Recorder.status c with
  | Recorder.preview =>
      exists u, Recorder.previewUrl c = Some u
                /\ URL.live (Recorder.urls c)
                   = {[u := Recorder.Blob_of (Recorder.chunksRef c)]}
                /\ URL.live (Recorder.urls (Recorder.handleSave c)) = ∅
                /\ URL.live (Recorder.urls (Recorder.handleDiscard c)) = ∅
  | _ => Recorder.previewUrl c = None /\ URL.live (Recorder.urls c) = ∅
  end.
Proof.
  intros Hacts c.
  pose proof (run_wellFormed acts _ initial_wellFormed Hacts) as Hw.
  fold c in Hw. pose proof Hw as [_ Hc].
  destruct (Recorder.status c) eqn:Hst; try tauto.
  destruct Hc as (_ & (u & Hp & Htr & Hl) & _).
  exists u. split; [done|]. split; [done|].
  assert (Hoff : forall a, Recorder.offered c a = true ->
            Recorder.status (Recorder.act a c) = Recorder.idle ->
            URL.live (Recorder.urls (Recorder.act a c)) = ∅).
  { intros a Ha Hidle.
    assert (Hw' : wellFormed (Recorder.act a c)).
    { apply act_wellFormed; [done|]. by destruct a. }
    destruct Hw' as [_ Hc']. rewrite Hidle in Hc'. tauto. }
  split.
  - apply (Hoff Recorder.Save).
    + unfold Recorder.offered. by rewrite Hst, Hp.
    + cbn [Recorder.act]. unfold Recorder.handleSave. rewrite Hp, Htr. reflexivity.
  - apply (Hoff Recorder.Discard).
    + unfold Recorder.offered. by rewrite Hst, Hp.
    + reflexivity.
Qed.

(** X20. In a preview that the recorder reaches from its initial state
    by clicks on the buttons it shows (and timer ticks), Save hands
    [onRecordingReady] exactly the blob the preview URL plays, with the
    time the clock showed when the recording stopped; Discard hands on
    nothing. *)
Theorem save_hands_on_what_the_preview_plays (acts : list Recorder.Action) :
  clickable acts Recorder.initial ->
  let c := Recorder.run acts Recorder.initial in
  Recorder.status c = Recorder.preview ->
  exists u blob,
    Recorder.previewUrl c = Some u
    /\ URL.live (Recorder.urls c) !! u = Some blob
    /\ Recorder.emitted (Recorder.handleSave c)
       = Recorder.emitted c ++ [(blob, Recorder.elapsed c)]
    /\ Recorder.emitted (Recorder.handleDiscard c) = Recorder.emitted c.
Proof.
  intros Hacts c Hst.
  pose proof (run_wellFormed acts _ initial_wellFormed Hacts) as [Hel Hc].
  fold c in Hc, Hel. rewrite Hst in Hc.
  destruct Hc as (_ & (u & Hp & Htr & Hl) & Hd).
  exists u, (Recorder.Blob_of (Recorder.chunksRef c)).
  split; [done|]. split; [by rewrite Hl, lookup_singleton_eq|]. split.
  - unfold Recorder.handleSave. rewrite Hp, Htr. cbn [negb].
    by rewrite Hd, <- Hel.
  - reflexivity.
Qed.

(** X21. Once the microphone was denied (in a state reached from the
    initial state by clicks on the buttons shown) the recorder shows no
    button: no handler can be called from the component, and it stays in
    the error status unchanged. *)
Theorem denied_microphone_is_a_dead_end (acts more : list Recorder.Action) :
  clickable acts Recorder.initial ->
  let c := Recorder.run acts Recorder.initial in
  Recorder.status c = Recorder.error ->
  (forall a, Recorder.offered c a = false)
  /\ (clickable more c -> Recorder.run more c = c).
Proof.
  intros Hacts c Hst. split.
  - intros a. unfold Recorder.offered. by rewrite Hst.
  - apply error_stays; [|done].
    by apply run_wellFormed; [apply initial_wellFormed|].
Qed.

(** X22. Whatever handlers are called in whatever order, the recorder
    never calls [onRecordingReady] more often than [startRecording] was
    granted the microphone: every emitted recording has a start of its
    own. *)
Theorem one_emission_per_granted_start (acts : list Recorder.Action) :
  length (Recorder.emitted (Recorder.run acts Recorder.initial)) <= grantedStarts acts.
Proof.
  pose proof (run_pending acts Recorder.initial) as H.
  unfold pending in H. cbn in H. lia.
Qed.

Lemma oneSecondTake_clickable : clickable oneSecondTake Recorder.initial.
Proof. vm_compute. repeat split. Qed.

Lemma oneSecondTake_preview :
  Recorder.status (Recorder.run oneSecondTake Recorder.initial) = Recorder.preview.
Proof. by vm_compute. Qed.

Lemma discardedTake_clickable : clickable discardedTake Recorder.initial.
Proof. vm_compute. repeat split. Qed.

Lemma discardedTake_idle :
  Recorder.status (Recorder.run discardedTake Recorder.initial) = Recorder.idle.
Proof. by vm_compute. Qed.

Lemma discardedTake_nextStream :
  Recorder.nextStream (Recorder.run discardedTake Recorder.initial) = 1.
Proof. by vm_compute. Qed.

Lemma microphone_stream_in_each_status_witness :
  clickable discardedTake Recorder.initial
  /\ Recorder.openStreams (Recorder.run discardedTake Recorder.initial) = []
  /\ Recorder.openStreams
       (Recorder.act (Recorder.StartThrows Recorder.inStart)
          (Recorder.run discardedTake Recorder.initial)) = [1].
Proof.
  split; [exact discardedTake_clickable|].
  pose proof (microphone_stream_in_each_status discardedTake
                discardedTake_clickable) as H.
  cbv zeta in H. rewrite discardedTake_idle in H.
  destruct H as (_ & Ho & _ & _ & Hthrown).
  split; [exact Ho|].
  destruct (Hthrown Recorder.inStart []) as (_ & Ho' & _).
  rewrite Ho', discardedTake_nextStream. reflexivity.
Defined.

Lemma timer_runs_only_while_recording_witness :
  clickable oneSecondTake Recorder.initial
  /\ Recorder.intervals (Recorder.run oneSecondTake Recorder.initial) = []
  /\ Recorder.elapsed (Recorder.run oneSecondTake Recorder.initial) = 1%float.
Proof.
  split; [exact oneSecondTake_clickable|].
  destruct (timer_runs_only_while_recording oneSecondTake oneSecondTake_clickable)
    as (_ & _ & Hidle).
  split; [|by vm_compute].
  apply Hidle. by vm_compute.
Defined.

Lemma preview_url_is_the_only_object_url_witness :
  clickable oneSecondTake Recorder.initial
  /\ exists u,
       Recorder.previewUrl (Recorder.run oneSecondTake Recorder.initial) = Some u
       /\ URL.live (Recorder.urls
                      (Recorder.handleSave
                         (Recorder.run oneSecondTake Recorder.initial))) = ∅.
Proof.
  split; [exact oneSecondTake_clickable|].
  pose proof (preview_url_is_the_only_object_url oneSecondTake
                oneSecondTake_clickable) as H.
  cbv zeta in H. rewrite oneSecondTake_preview in H.
  destruct H as (u & Hp & _ & Hsave & _). exists u. split; [exact Hp|exact Hsave].
Defined.

Lemma save_hands_on_what_the_preview_plays_witness :
  clickable oneSecondTake Recorder.initial
  /\ Recorder.status (Recorder.run oneSecondTake Recorder.initial) = Recorder.preview
  /\ exists u blob,
       URL.live (Recorder.urls (Recorder.run oneSecondTake Recorder.initial)) !! u
       = Some blob
       /\ Recorder.emitted
            (Recorder.handleSave (Recorder.run oneSecondTake Recorder.initial))
          = [(blob, 1%float)].
Proof.
  pose proof oneSecondTake_preview as Hst.
  split; [exact oneSecondTake_clickable|]. split; [exact Hst|].
  destruct (save_hands_on_what_the_preview_plays oneSecondTake
              oneSecondTake_clickable Hst) as (u & blob & _ & Hlive & Hsave & _).
  exists u, blob. split; [exact Hlive|exact Hsave].
Defined.

Lemma denied_microphone_is_a_dead_end_witness :
  clickable [Recorder.Start false] Recorder.initial
  /\ Recorder.status (Recorder.run [Recorder.Start false] Recorder.initial)
     = Recorder.error
  /\ Recorder.offered (Recorder.run [Recorder.Start false] Recorder.initial)
       (Recorder.Start true) = false
  /\ Recorder.run [Recorder.Tick 1; Recorder.Tick 2]
       (Recorder.run [Recorder.Start false] Recorder.initial)
     = Recorder.run [Recorder.Start false] Recorder.initial.
Proof.
  assert (Hc : clickable [Recorder.Start false] Recorder.initial)
    by (vm_compute; repeat split).
  assert (Hst : Recorder.status (Recorder.run [Recorder.Start false] Recorder.initial)
                = Recorder.error) by (by vm_compute).
  split; [exact Hc|]. split; [exact Hst|].
  destruct (denied_microphone_is_a_dead_end [Recorder.Start false]
              [Recorder.Tick 1; Recorder.Tick 2] Hc Hst) as [Hoff Hrun].
  split; [apply Hoff|]. apply Hrun. vm_compute. repeat split.
Defined.

(* ===================================================================== *)
(** * Further properties: the clock                                       *)
(* ===================================================================== *)


Section FormatTime.

Open Scope N_scope.

Lemma pretty_units (n : N) :
  n < 10 -> pretty n = String (digitChar n) EmptyString.
Proof.
  intros Hn. unfold pretty, pretty_N. destruct (decide (n = 0)) as [->|Hne]; [done|].
  rewrite pretty_N_go_step by lia.
  rewrite (N.div_small n 10), (N.mod_small n 10) by lia. by rewrite pretty_N_go_0.
Qed.

Lemma pretty_tens (n : N) :
  10 <= n < 100 ->
  pretty n = String (digitChar (n / 10)) (String (digitChar (n mod 10)) EmptyString).
Proof.
  intros Hn. unfold pretty, pretty_N. destruct (decide (n = 0)) as [->|Hne]; [lia|].
  assert (H1 : 0 < n / 10 < 10).
  { split; [apply N.div_str_pos; lia|apply N.Div0.div_lt_upper_bound; lia]. }
  rewrite pretty_N_go_step by lia. rewrite pretty_N_go_step by lia.
  rewrite (N.div_small (n / 10) 10), (N.mod_small (n / 10) 10) by lia.
  by rewrite pretty_N_go_0.
Qed.

Lemma pretty_N_go_length (x : N) (s : string) :
  (String.length s <= String.length (pretty_N_go x s))%nat.
Proof.
  revert s. induction (N.lt_wf_0 x) as [x _ IH]; intros s.
  destruct (decide (x = 0)) as [->|Hne]; [by rewrite pretty_N_go_0|].
  rewrite pretty_N_go_step by lia.
  etransitivity; [|apply IH; apply N.div_lt; lia]. cbn [String.length]. lia.
Qed.

Lemma pretty_hundreds (n : N) :
  100 <= n -> (3 <= String.length (pretty n))%nat.
Proof.
  intros Hn. unfold pretty, pretty_N. destruct (decide (n = 0)) as [->|Hne]; [lia|].
  assert (H1 : 10 <= n / 10) by (apply N.div_le_lower_bound; lia).
  assert (H2 : 1 <= n / 10 / 10) by (apply N.div_le_lower_bound; lia).
  rewrite pretty_N_go_step by lia. rewrite pretty_N_go_step by lia.
  rewrite pretty_N_go_step by lia.
  etransitivity; [|apply pretty_N_go_length]. cbn [String.length]. lia.
Qed.

Lemma padStart_units (n : N) :
  n < 10 -> padStart 2 (pretty n) = String "0" (String (digitChar n) EmptyString).
Proof. intros Hn. by rewrite pretty_units. Qed.

Lemma padStart_tens (n : N) :
  10 <= n -> padStart 2 (pretty n) = pretty n.
Proof.
  intros Hn. unfold padStart.
  assert (H : (2 <= String.length (pretty n))%nat).
  { destruct (decide (n < 100)) as [Hlt|Hge].
    - rewrite pretty_tens by lia. cbn [String.length]. lia.
    - pose proof (pretty_hundreds n). lia. }
  replace (2 - String.length (pretty n))%nat with 0%nat by lia. reflexivity.
Qed.

Lemma digitChar_zero (d : N) : d < 10 -> digitChar d = "0"%char -> d = 0.
Proof.
  intros Hd H. apply (pretty_N_char_inj d 0); [lia|lia|exact H].
Qed.

Lemma padStart_pretty_inj (a b : N) :
  padStart 2 (pretty a) = padStart 2 (pretty b) -> a = b.
Proof.
  assert (Hmix : forall x y, x < 10 -> 10 <= y ->
            padStart 2 (pretty x) = padStart 2 (pretty y) -> False).
  { intros x y Hx Hy H. rewrite padStart_units, padStart_tens in H by lia.
    destruct (decide (y < 100)) as [Hlt|Hge].
    - rewrite pretty_tens in H by lia. injection H as H _.
      symmetry in H. apply digitChar_zero in H.
      + apply N.div_small_iff in H; lia.
      + apply N.Div0.div_lt_upper_bound. lia.
    - pose proof (pretty_hundreds y ltac:(lia)) as Hl. rewrite <- H in Hl.
      cbn [String.length] in Hl. lia. }
  intros H. destruct (decide (a < 10)) as [Ha|Ha], (decide (b < 10)) as [Hb|Hb].
  - rewrite !padStart_units in H by done. injection H as H.
    by apply (pretty_N_char_inj a b).
  - exfalso. apply (Hmix a b); [lia|lia|done].
  - exfalso. apply (Hmix b a); [lia|lia|done].
  - rewrite !padStart_tens in H by lia. by apply (inj pretty).
Qed.

Lemma length_append (s t : string) :
  String.length (s +:+ t) = (String.length s + String.length t)%nat.
Proof.
  induction s as [|c s IH]; [reflexivity|].
  change (String c s +:+ t) with (String c (s +:+ t)).
  cbn [String.length]. by rewrite IH.
Qed.

Lemma append_inj_length (s1 s2 t1 t2 : string) :
  String.length t1 = String.length t2 ->
  s1 +:+ t1 = s2 +:+ t2 -> s1 = s2 /\ t1 = t2.
Proof.
  intros Hlen. revert s2. induction s1 as [|c s1 IH]; intros [|d s2] H.
  - done.
  - exfalso. apply (f_equal String.length) in H.
    rewrite !length_append in H. cbn [String.length] in H. lia.
  - exfalso. apply (f_equal String.length) in H.
    rewrite !length_append in H. cbn [String.length] in H. lia.
  - change (String c (s1 +:+ t1) = String d (s2 +:+ t2)) in H.
    injection H as -> H. destruct (IH _ H) as [-> ->]. done.
Qed.

Lemma remaining_length (r : N) :
  r < 60 -> String.length (padStart 2 (pretty r)) = 2%nat.
Proof.
  intros Hr. destruct (decide (r < 10)).
  - by rewrite padStart_units.
  - rewrite padStart_tens, pretty_tens by lia. reflexivity.
Qed.

End FormatTime.

(** X28. For a whole number of seconds below 6000 (100 minutes)
    [formatTime] writes two digits of minutes, a colon and two digits of
    seconds; from 6000 seconds on the minutes take more digits and the
    text is longer. The text is never shorter than five characters, and
    two different times are never written the same. *)
Theorem formatTime_is_minutes_and_seconds (seconds : N) :
  (seconds < 6000 ->
   formatTime seconds
   = String (digitChar (seconds / 600))
       (String (digitChar (seconds / 60 mod 10))
          (String ":"
             (String (digitChar (seconds mod 60 / 10))
                (String (digitChar (seconds mod 10)) EmptyString)))))%N
  /\ (5 <= String.length (formatTime seconds))
  /\ ((6000 <= seconds)%N -> 6 <= String.length (formatTime seconds))
  /\ (forall other, formatTime seconds = formatTime other -> seconds = other).
Proof.
  unfold formatTime. cbv zeta. split; [|split; [|split]].
  - intros Hs.
    assert (Hq : (seconds / 60 < 100)%N) by (apply N.Div0.div_lt_upper_bound; lia).
    assert (Hr : (seconds mod 60 < 60)%N) by (apply N.mod_lt; lia).
    assert (Hm10 : (seconds mod 60 mod 10 = seconds mod 10)%N).
    { rewrite (N.div_mod seconds 60) at 2 by lia.
      replace (60 * (seconds / 60))%N with ((6 * (seconds / 60)) * 10)%N by lia.
      rewrite N.add_comm, N.Div0.mod_add. reflexivity. }
    assert (Hq10 : (seconds / 60 / 10 = seconds / 600)%N).
    { rewrite N.Div0.div_div. reflexivity. }
    destruct (decide (seconds / 60 < 10)%N) as [Hq1|Hq1];
      destruct (decide (seconds mod 60 < 10)%N) as [Hr1|Hr1].
    + rewrite !padStart_units by done.
      rewrite <- Hq10, <- Hm10.
      rewrite (N.div_small (seconds / 60) 10), (N.mod_small (seconds / 60) 10) by done.
      rewrite (N.div_small (seconds mod 60) 10), (N.mod_small (seconds mod 60) 10) by done.
      reflexivity.
    + rewrite padStart_units by done. rewrite padStart_tens, pretty_tens by lia.
      rewrite <- Hq10, <- Hm10.
      rewrite (N.div_small (seconds / 60) 10), (N.mod_small (seconds / 60) 10) by done.
      reflexivity.
    + rewrite padStart_tens, pretty_tens by lia. rewrite padStart_units by done.
      rewrite <- Hq10, <- Hm10.
      rewrite (N.div_small (seconds mod 60) 10), (N.mod_small (seconds mod 60) 10) by done.
      reflexivity.
    + rewrite !padStart_tens, !pretty_tens by lia.
      rewrite <- Hq10, <- Hm10. reflexivity.
  - rewrite !length_append.
    rewrite (remaining_length (seconds mod 60)) by (apply N.mod_lt; lia).
    cbn [String.length].
    assert (2 <= String.length (padStart 2 (pretty (seconds / 60)%N))).
    { destruct (decide (seconds / 60 < 10)%N).
      - by rewrite padStart_units.
      - rewrite padStart_tens by lia.
        destruct (decide (seconds / 60 < 100)%N).
        + rewrite pretty_tens by lia. cbn [String.length]. lia.
        + pose proof (pretty_hundreds (seconds / 60)%N). lia. }
    lia.
  - intros Hs. rewrite !length_append.
    rewrite (remaining_length (seconds mod 60)) by (apply N.mod_lt; lia).
    cbn [String.length].
    assert (Hq : (100 <= seconds / 60)%N) by (apply N.div_le_lower_bound; lia).
    rewrite padStart_tens by lia.
    pose proof (pretty_hundreds (seconds / 60)%N Hq). lia.
  - intros other H.
    apply append_inj_length in H.
    2:{ rewrite !length_append.
        rewrite (remaining_length (seconds mod 60)) by (apply N.mod_lt; lia).
        rewrite (remaining_length (other mod 60)) by (apply N.mod_lt; lia).
        reflexivity. }
    destruct H as [Hm Hr]. apply String.app_inj in Hr.
    apply padStart_pretty_inj in Hm, Hr.
    rewrite (N.div_mod seconds 60), (N.div_mod other 60) by lia. lia.
Qed.

(* ===================================================================== *)
(** * Further properties: the pages and the detail view                   *)
(* ===================================================================== *)


Lemma join_split (s : string) : join (split s) = s.
Proof.
  induction s as [|c s IH]; [reflexivity|]. cbn [split].
  destruct (Ascii.eqb c " ") eqn:Hc.
  - apply Ascii.eqb_eq in Hc. subst c.
    destruct (split s) as [|piece pieces] eqn:Hs;
      [exfalso; eapply split_nonempty; eauto|].
    change (join (EmptyString :: piece :: pieces))
      with (String " " (join (piece :: pieces))).
    by rewrite IH.
  - destruct (split s) as [|piece pieces] eqn:Hs;
      [exfalso; eapply split_nonempty; eauto|].
    rewrite join_cons_char. by rewrite IH.
Qed.

Lemma prefix_cons (c : ascii) (a b : string) :
  String.prefix (String c a) (String c b) = String.prefix a b.
Proof. cbn [String.prefix]. by destruct (ascii_dec c c). Qed.

Lemma upToSpace_prefix (n : nat) (s : string) :
  String.prefix (upToSpace n s) s = true.
Proof.
  revert n. induction s as [|c s IH]; intros n; [reflexivity|]. cbn [upToSpace].
  destruct (Ascii.eqb c " ").
  - destruct n as [|[|n]]; [reflexivity|reflexivity|].
    by rewrite prefix_cons.
  - by rewrite prefix_cons.
Qed.

Lemma upToSpace_nonempty (n : nat) (s : string) :
  s <> EmptyString -> upToSpace (S (S n)) s <> EmptyString.
Proof.
  destruct s as [|c s]; [done|]. intros _. cbn [upToSpace].
  by destruct (Ascii.eqb c " ").
Qed.

Lemma first_words_prefix (n : nat) (s : string) :
  String.prefix (join (slice0 n (split s))) s = true.
Proof.
  destruct n as [|n]; [unfold slice0; rewrite take_0; by destruct s|].
  rewrite join_slice_split. apply upToSpace_prefix.
Qed.

(** X14. [s.split(" ").slice(0, n).join(" ")], which makes the title
    (n = 5), the card title and the quoted words of a check-in (n = 6),
    is always a prefix of [s], of at most [n] pieces; it is [s] itself
    when [s] has no more than [n] pieces, and joining all pieces gives
    [s] back. *)
Theorem first_words_are_a_prefix (n : nat) (s : string) :
  join (split s) = s
  /\ String.prefix (join (slice0 n (split s))) s = true
  /\ (length (split s) <= n -> join (slice0 n (split s)) = s)
  /\ length (slice0 n (split s)) <= n.
Proof.
  split; [apply join_split|]. split; [|split].
  - apply first_words_prefix.
  - intros Hn. unfold slice0. rewrite take_ge by done. apply join_split.
  - unfold slice0. rewrite length_take. lia.
Qed.

(** X15. A card shows the stored title when there is one; otherwise the
    first five words of the transcript, and the date when the transcript
    is empty. The title shown is never empty (given a non-empty date
    text), and for an entry built by [handleRecordingReady] it is the
    first five words of the transcript, or the date when the
    transcription came back empty. *)
Theorem cardTitle_falls_back (entry : JournalEntry) (localeString : string) :
  (truthy (title entry) = true -> cardTitle entry localeString = default EmptyString (title entry))
  /\ (truthy (title entry) = false ->
      cardTitle entry localeString
      = if String.eqb (transcript entry) EmptyString then localeString
        else upToSpace 5 (transcript entry))
  /\ (localeString <> EmptyString -> cardTitle entry localeString <> EmptyString)
  /\ (forall uuid now data blob measured url,
        cardTitle (buildEntry uuid now data blob measured url) localeString
        = match data ≫= t_transcript with
          | Some t => if String.eqb t EmptyString then localeString else upToSpace 5 t
          | None => localeString
          end).
Proof.
  assert (Hfall : truthy (title entry) = false ->
            cardTitle entry localeString
            = if String.eqb (transcript entry) EmptyString then localeString
              else upToSpace 5 (transcript entry)).
  { intros Ht. unfold cardTitle. rewrite Ht. cbv zeta. rewrite join_slice_split.
    destruct (String.eqb_spec (transcript entry) EmptyString) as [->|Hne];
      [reflexivity|].
    pose proof (upToSpace_nonempty 3 _ Hne) as Hn.
    destruct (upToSpace 5 (transcript entry)); [done|reflexivity]. }
  split; [|split; [exact Hfall|split]].
  - intros Ht. unfold cardTitle. by rewrite Ht.
  - intros Hloc. destruct (truthy (title entry)) eqn:Ht.
    + unfold cardTitle. rewrite Ht.
      by destruct (title entry) as [[|c t]|].
    + rewrite (Hfall eq_refl).
      destruct (String.eqb_spec (transcript entry) EmptyString) as [He|Hne]; [done|].
      by apply upToSpace_nonempty.
  - intros uuid now data blob measured url. unfold cardTitle, buildEntry.
    cbn [title transcript].
    destruct (data ≫= t_transcript) as [t|]; cbn [truthy from_option Datatypes.id].
    + destruct t as [|c t]; [reflexivity|]. cbn [truthy String.eqb].
      rewrite join_slice_split.
      pose proof (upToSpace_nonempty 3 (String c t)) as Hn.
      destruct (upToSpace 5 (String c t)) eqn:E; [by destruct Hn|].
      cbn [truthy from_option Datatypes.id]. reflexivity.
    + reflexivity.
Qed.

Lemma StronglySorted_take_drop {A} (R : relation A) (n : nat) (l : list A) (x y : A) :
  StronglySorted R l -> x ∈ take n l -> y ∈ drop n l -> R x y.
Proof.
  intros Hs. revert n. induction Hs as [|a l Hs IH Ha]; intros n Hx Hy.
  - rewrite take_nil in Hx. by apply elem_of_nil in Hx.
  - destruct n as [|n]; [by apply elem_of_nil in Hx|].
    cbn [take drop] in *. apply elem_of_cons in Hx as [->|Hx].
    + rewrite Forall_forall in Ha. apply Ha.
      eapply elem_of_sublist; [exact Hy|apply sublist_drop].
    + by eapply IH.
Qed.

(** X16. The "Recent check-ins" list shows the first ten entries of the
    in-memory list, in its order, each with a prefix of its transcript;
    when the list is sorted newest first, every entry shown is at least
    as new as every entry left out. *)
Theorem recent_check_ins_are_the_first_ten (st : JournalState) :
  length (recentCheckIns st) <= 10
  /\ fst <$> recentCheckIns st = take 10 (entries st)
  /\ (forall e words, (e, words) ∈ recentCheckIns st ->
        String.prefix words (transcript e) = true)
  /\ (StronglySorted createdAtDesc (entries st) ->
      forall shown hidden,
        shown ∈ (fst <$> recentCheckIns st) ->
        hidden ∈ drop 10 (entries st) ->
        createdAtDesc shown hidden).
Proof.
  assert (Hfst : fst <$> recentCheckIns st = take 10 (entries st)).
  { unfold recentCheckIns, slice0. rewrite <- list_fmap_compose.
    rewrite <- (list_fmap_id (take 10 (entries st))) at 2.
    by apply list_fmap_ext. }
  split; [|split; [exact Hfst|split]].
  - unfold recentCheckIns, slice0. rewrite length_fmap, length_take. lia.
  - intros e words H. unfold recentCheckIns in H.
    apply list_elem_of_fmap in H as (e' & [= -> ->] & _).
    apply (first_words_prefix 6).
  - intros Hs shown hidden Hshown Hhidden. rewrite Hfst in Hshown.
    by eapply StronglySorted_take_drop.
Qed.



Lemma mint_revoke (blob : Blob) (r : URL.registry) :
  registry_ok r ->
  URL.live (URL.revokeObjectURL (URL.createObjectURL blob r).1
              (URL.createObjectURL blob r).2)
  = URL.live r.
Proof.
  intros Hr. unfold URL.createObjectURL, URL.revokeObjectURL. cbn [fst snd URL.live].
  rewrite delete_insert_eq. apply delete_id. by apply next_url_not_live.
Qed.

Lemma downloadBlob_spec (blob : Blob) (filename : string) (br : Browser) :
  registry_ok (objectUrls br) ->
  URL.live (objectUrls (downloadBlob blob filename br)) = URL.live (objectUrls br)
  /\ saved (downloadBlob blob filename br) = saved br ++ [(filename, blob)].
Proof.
  intros Hr. unfold downloadBlob.
  pose proof (mint_revoke blob _ Hr) as Hm.
  unfold URL.createObjectURL in *. cbn [fst snd objectUrls saved URL.live] in *.
  split; [exact Hm|]. by rewrite lookup_insert_eq.
Qed.

(** X23. The downloads of the detail view leave the object URLs as they
    were: each creates one URL, saves what it holds and revokes it.
    "Export Transcript" saves the transcript as [<id>.txt]; "Download
    Audio" saves the stored blob as [<id>.webm], or what the entry's
    live URL holds when no blob is stored, and does nothing for an entry
    with neither. *)
Theorem downloads_leave_no_object_url (net : string -> option Blob)
    (entry : JournalEntry) (br : Browser) :
  registry_ok (objectUrls br) ->
  (URL.live (objectUrls (handleExportTranscript entry br)) = URL.live (objectUrls br)
   /\ saved (handleExportTranscript entry br)
      = saved br ++ [(id entry +:+ ".txt", transcript entry)])
  /\ URL.live (objectUrls (handleDownloadAudio net entry br)) = URL.live (objectUrls br)
  /\ (forall blob, audioBlob entry = Some blob ->
        saved (handleDownloadAudio net entry br)
        = saved br ++ [(id entry +:+ ".webm", blob)])
  /\ (forall u blob, audioBlob entry = None -> audioUrl entry = Some u ->
        URL.live (objectUrls br) !! u = Some blob ->
        saved (handleDownloadAudio net entry br)
        = saved br ++ [(id entry +:+ ".webm", blob)])
  /\ (audioBlob entry = None -> audioUrl entry = None ->
        handleDownloadAudio net entry br = br).
Proof.
  intros Hr. split; [apply downloadBlob_spec; exact Hr|].
  unfold handleDownloadAudio. split; [|split; [|split]].
  - destruct (audioBlob entry) as [blob|]; [by apply downloadBlob_spec|].
    destruct (truthy (audioUrl entry)); [|done].
    destruct (fetchBlob net _ br); [by apply downloadBlob_spec|done].
  - intros blob ->. by apply downloadBlob_spec.
  - intros u blob -> Hu Hlive. rewrite Hu. cbn [from_option Datatypes.id].
    assert (Hpre : String.prefix "blob:" u = true)
      by (eapply live_prefix; [exact Hr|by rewrite Hlive]).
    assert (Htr : truthy (Some u) = true) by (by destruct u).
    rewrite Htr. unfold fetchBlob. rewrite Hpre, Hlive.
    by apply downloadBlob_spec.
  - by intros -> ->.
Qed.

(** X24. The audio source of the detail view is the entry's [audioUrl]
    when it has one, and no URL is created; otherwise a new URL of the
    blob, which the cleanup of the effect revokes, so that effect and
    cleanup together leave the object URLs as they were; without blob
    and URL there is no source. *)
Theorem audio_source_effect_cleans_up (entry : JournalEntry) (registry : URL.registry) :
  registry_ok registry ->
  let '(src, registry', revoke) := audioSrcEffect entry registry in
  URL.live (cleanup revoke registry') = URL.live registry
  /\ (truthy (audioUrl entry) = true ->
      src = audioUrl entry /\ registry' = registry)
  /\ (truthy (audioUrl entry) = false ->
      match audioBlob entry with
      | Some blob => exists u, src = Some u /\ URL.live registry' !! u = Some blob
                               /\ URL.live registry !! u = None
      | None => src = None /\ registry' = registry
      end).
Proof.
  intros Hr. unfold audioSrcEffect.
  destruct (truthy (audioUrl entry)) eqn:Ht; [by auto|].
  destruct (audioBlob entry) as [blob|]; [|by auto].
  pose proof (mint_revoke blob _ Hr) as Hm.
  unfold URL.createObjectURL in *. cbn [fst snd cleanup] in *.
  split; [exact Hm|]. split; [discriminate|]. intros _.
  eexists. split; [reflexivity|]. cbn [URL.live].
  split; [apply lookup_insert_eq|by apply next_url_not_live].
Qed.




Lemma loadRecords_audio (l : list JournalEntry) (w : World) :
  Forall (fun r => audioUrl r = None) l ->
  exists l' w',
    mapAsync loadRecord l w = (Returns l', w')
    /\ Forall (fun e => match audioBlob e with
                        | Some _ => truthy (audioUrl e) = true
                        | None => audioUrl e = None
                        end) l'.
Proof.
  revert w. induction l as [|r l IH]; intros w Hl.
  - exists [], w. split; [reflexivity|constructor].
  - inversion Hl as [|? ? Hr Hl']; subst.
    assert (H1 : exists e w1, loadRecord r w = (Returns e, w1)
                   /\ match audioBlob e with
                      | Some _ => truthy (audioUrl e) = true
                      | None => audioUrl e = None
                      end).
    { unfold loadRecord, audioUrlOrDerived. rewrite Hr.
      destruct (audioBlob r) as [b|] eqn:Hb; eexists _, _; unfold_async;
        (split; [reflexivity|]); cbn [audioBlob audioUrl with_audioUrl];
        rewrite Hb; [apply nth_url_truthy|reflexivity]. }
    destruct H1 as (e & w1 & Hrun1 & He).
    destruct (IH w1 Hl') as (l' & w2 & Hrun2 & Hl2).
    exists (e :: l'), w2. split; [|by constructor].
    cbn [mapAsync].
    by rewrite (bind_returns _ _ _ _ _ Hrun1), (bind_returns _ _ _ _ _ Hrun2).
Qed.

(** X25. For every entry that [hydrate] loaded from a table written by
    the store, the detail view plays the URL the store derived and
    creates none of its own. *)
Theorem hydrated_entries_play_the_store_handle (t : gmap string JournalEntry)
    (e : JournalEntry) (registry : URL.registry) :
  durable t ->
  e ∈ all (after (hydrate true) (boot t)) ->
  audioSrcEffect e registry = (audioUrl e, registry, None).
Proof.
  intros Ht He.
  assert (Hh : hydrated (state (boot t)) = false) by reflexivity.
  destruct (hydrate_loads (boot t) Hh) as (loaded & w1 & Hrun & Hhyd).
  assert (Hd : Forall (fun r => audioUrl r = None)
                 (merge_sort indexOrder (records (journals (boot t))))).
  { rewrite merge_sort_Permutation. by apply Forall_durable_records. }
  destruct (loadRecords_audio _ (logged (ToArray true) (boot t)) Hd)
    as (loaded' & w1' & Hrun' & Hall).
  rewrite Hrun in Hrun'. injection Hrun' as <- <-.
  unfold after, all in He. rewrite Hhyd in He. wsimpl.
  rewrite Forall_forall in Hall. specialize (Hall e He).
  unfold audioSrcEffect. destruct (audioBlob e) as [b|].
  - by rewrite Hall.
  - by rewrite Hall.
Qed.

(** X26. The Settings page shows "All journals cleared." only when
    [clearAll] succeeded, and then memory and table are empty; when the
    store rejects, no message is shown and nothing was changed. In both
    cases the button is enabled again. *)
Theorem handleClear_reports_what_happened (ok : bool) (w : World) :
  let '(result, w', view) := handleClear ok w in
  isClearing view = false
  /\ (if ok
      then result = Returns tt
           /\ message view = Some "All journals cleared."
           /\ all w' = [] /\ journals w' = ∅
      else result = Throws PersistenceError
           /\ message view = None
           /\ state w' = state w /\ journals w' = journals w
           /\ urls w' = urls w).
Proof.
  unfold handleClear. destruct ok.
  - destruct (clearAll_done w) as (Ho & Hs & Hj).
    unfold outcome, after, all in *.
    destruct (clearAll true w) as [[[]|err] w']; cbn [fst snd] in *; [|discriminate].
    rewrite Hs, Hj. auto 10.
  - destruct (clearAll_rejected w) as (Ho & Hs & Hj & Hu).
    unfold outcome, after in *.
    destruct (clearAll false w) as [[[]|err] w']; cbn [fst snd] in *; [discriminate|].
    destruct err. auto 10.
Qed.

(** X27. The detail page navigates back to the list only after
    [removeEntry] succeeded, when the entry is gone from memory and from
    the table; when the store rejects it stays, and nothing was
    changed. *)
Theorem handleDelete_navigates_after_removal (ok : bool) (entryId : string)
    (w : World) :
  let '(result, w', route) := handleDelete ok entryId w in
  if ok
  then result = Returns tt /\ route = Some "/journals"
       /\ getEntry entryId (state w') = None
       /\ journals w' !! entryId = None
  else result = Throws PersistenceError /\ route = None
       /\ state w' = state w /\ journals w' = journals w.
Proof.
  unfold handleDelete. destruct ok.
  - destruct (removeEntry_done w entryId) as (Ho & Hs & Hj).
    unfold outcome, after in *.
    destruct (removeEntry true entryId w) as [[[]|err] w']; cbn [fst snd] in *;
      [|discriminate].
    unfold getEntry. rewrite Hs, Hj. wsimpl.
    split; [done|]. split; [done|].
    split; [apply find_filter_same|apply lookup_delete_eq].
  - destruct (removeEntry_rejected w entryId) as (Ho & Hs & Hj).
    unfold outcome, after in *.
    destruct (removeEntry false entryId w) as [[[]|err] w']; cbn [fst snd] in *;
      [discriminate|].
    destruct err. auto 10.
Qed.

(** X13. [handleRecordingReady] shows its error message exactly when the
    transcription request or the write of the entry fails. A failed
    request changes nothing. Otherwise one object URL of the recording
    is created; on success the built entry, holding that URL, is the
    head of the in-memory list and its persisted fields are in the
    table; when the write fails memory and table are unchanged and the
    URL stays live. *)
Theorem handleRecordingReady_outcomes (uuid now : string) (blob : Blob)
    (duration : number) (w : World) :
  (forall ok,
     handleRecordingReady None uuid now ok blob duration w
     = (Some "Transcription failed. Try again or check the backend logs.", w))
  /\ (forall data ok,
        let url := URL.nth_url (URL.minted (urls w)) in
        let entry := buildEntry uuid now data blob duration url in
        let result := handleRecordingReady (Some data) uuid now ok blob duration w in
        URL.live (urls result.2) !! url = Some blob
        /\ URL.minted (urls result.2) = S (URL.minted (urls w))
        /\ if ok
           then result.1 = None
                /\ all result.2 = entry :: all w
                /\ journals result.2 = <[uuid := persisted entry]> (journals w)
           else result.1
                = Some "Transcription failed. Try again or check the backend logs."
                /\ state result.2 = state w
                /\ journals result.2 = journals w).
Proof.
  split; [reflexivity|]. intros data ok url entry result.
  subst result entry url. unfold handleRecordingReady, all.
  unfold_async. cbn [audioUrl buildEntry].
  destruct ok; wsimpl; cbn [fst snd]; wsimpl.
  - split; [apply lookup_insert_eq|]. auto.
  - split; [apply lookup_insert_eq|]. auto.
Qed.

Lemma downloads_leave_no_object_url_witness :
  registry_ok (objectUrls newBrowser)
  /\ saved (handleExportTranscript march3 newBrowser) = [("a.txt", "")]
  /\ URL.live (objectUrls (handleDownloadAudio (fun _ => None) march3 newBrowser))
     = ∅
  /\ saved (handleDownloadAudio (fun _ => None) march3 newBrowser)
     = [("a.webm", "first take")].
Proof.
  destruct (downloads_leave_no_object_url (fun _ => None) march3 newBrowser
              fresh_registry_ok) as ((_ & Htxt) & Hlive & Hblob & _).
  split; [exact fresh_registry_ok|]. split; [exact Htxt|].
  split; [exact Hlive|]. exact (Hblob "first take" eq_refl).
Defined.

Lemma audio_source_effect_cleans_up_witness :
  registry_ok URL.fresh
  /\ URL.live (cleanup (audioSrcEffect march3 URL.fresh).2
                 (audioSrcEffect march3 URL.fresh).1.2)
     = ∅.
Proof.
  split; [exact fresh_registry_ok|].
  pose proof (audio_source_effect_cleans_up march3 URL.fresh fresh_registry_ok) as H.
  destruct (audioSrcEffect march3 URL.fresh) as [[src registry'] revoke].
  exact (proj1 H).
Defined.

Lemma hydrated_entries_play_the_store_handle_witness :
  durable savedTable
  /\ with_audioUrl (Some "blob:0") march3 ∈ all (after (hydrate true) (boot savedTable))
  /\ audioSrcEffect (with_audioUrl (Some "blob:0") march3) URL.fresh
     = (Some "blob:0", URL.fresh, None).
Proof.
  assert (H : with_audioUrl (Some "blob:0") march3
              ∈ all (after (hydrate true) (boot savedTable))).
  { assert (Hall : all (after (hydrate true) (boot savedTable))
                   = [with_audioUrl (Some "blob:0") march3; march2])
      by (by vm_compute).
    rewrite Hall. apply list_elem_of_here. }
  split; [exact durable_savedTable|]. split; [exact H|].
  exact (hydrated_entries_play_the_store_handle savedTable _ URL.fresh
           durable_savedTable H).
Defined.

(* ===================================================================== *)
(** * Further properties: leaving the recorder, the empty list            *)
(* ===================================================================== *)

(** X29. When the recorder is unmounted, in whatever state it reached
    from its initial state by clicks on the buttons it shows (and timer
    ticks), its cleanup stops the microphone stream and the interval
    timer and drops the recorder; nothing is handed on. *)
Theorem unmount_stops_microphone_and_timer (acts : list Recorder.Action) :
  clickable acts Recorder.initial ->
  let c := Recorder.run acts Recorder.initial in
  Recorder.openStreams (unmount c) = []
  /\ Recorder.streamRef (unmount c) = None
  /\ Recorder.intervals (unmount c) = []
  /\ Recorder.timerRef (unmount c) = None
  /\ Recorder.mediaRecorderRef (unmount c) = None
  /\ Recorder.emitted (unmount c) = Recorder.emitted c.
Proof.
  intros Hacts c.
  pose proof (run_wellFormed acts _ initial_wellFormed Hacts) as [_ Hc].
  fold c in Hc. unfold unmount, Recorder.stopTracks, quiet in *.
  cbn [Recorder.openStreams Recorder.streamRef Recorder.intervals
       Recorder.timerRef Recorder.mediaRecorderRef Recorder.emitted].
  assert (Hheld :
    (match Recorder.timerRef c with
     | Some t => Recorder.clearInterval t (Recorder.intervals c)
     | None => Recorder.intervals c
     end = [])
    /\ (match Recorder.streamRef c with
        | Some s => List.filter (fun s' => negb (Nat.eqb s' s)) (Recorder.openStreams c)
        | None => Recorder.openStreams c
        end = [])).
  { destruct (Recorder.status c).
    - destruct Hc as ((_ & Hs & Ht & Hi & Ho) & _). by rewrite Hs, Ht, Hi, Ho.
    - destruct Hc as (_ & (s & Hs & Ho) & (t & Ht & Hi) & _).
      rewrite Hs, Ht, Hi, Ho, clearInterval_only. cbn [List.filter].
      by rewrite Nat.eqb_refl.
    - destruct Hc as (_ & (s & Hs & Ho) & Hi & _).
      rewrite Hs, Hi, Ho. cbn [List.filter]. rewrite Nat.eqb_refl. cbn [negb].
      split; [|done]. by destruct (Recorder.timerRef c).
    - destruct Hc as ((_ & Hs & Ht & Hi & Ho) & _). by rewrite Hs, Ht, Hi, Ho.
    - destruct Hc as (Ht & Hi & _ & _ & _ & [(Hs & Ho & _)|(s & Hs & Ho)]);
        rewrite Hs, Ht, Hi, Ho; [done|].
      cbn [List.filter]. by rewrite Nat.eqb_refl. }
  destruct Hheld as [Hi Ho]. auto 10.
Qed.

Lemma unmount_stops_microphone_and_timer_witness :
  clickable [Recorder.Start true; Recorder.Tick 1] Recorder.initial
  /\ Recorder.openStreams
       (Recorder.run [Recorder.Start true; Recorder.Tick 1] Recorder.initial) = [0]
  /\ Recorder.openStreams
       (unmount (Recorder.run [Recorder.Start true; Recorder.Tick 1] Recorder.initial))
     = [].
Proof.
  assert (Hc : clickable [Recorder.Start true; Recorder.Tick 1] Recorder.initial)
    by (vm_compute; repeat split).
  split; [exact Hc|]. split; [by vm_compute|].
  exact (proj1 (unmount_stops_microphone_and_timer _ Hc)).
Defined.

Lemma mirrors_empty (w : World) :
  mirrors w -> hydrated (state w) = true ->
  (all w = [] <-> journals w = ∅).
Proof.
  intros (_ & _ & Hm & Hh) Hhyd. split.
  - intros Hall. apply map_eq. intros k. rewrite lookup_empty.
    destruct (journals w !! k) as [r|] eqn:Hr; [|done].
    destruct (Hh Hhyd k r Hr) as (e & He & _). rewrite Hall in He.
    by apply elem_of_nil in He.
  - intros Hj. destruct (all w) as [|e l] eqn:Hall; [done|].
    specialize (Hm e (list_elem_of_here _ _)).
    rewrite Hj, lookup_empty in Hm. discriminate.
Qed.

(** X30. From a page load on a table keyed by id, through calls in which
    added entries have ids that are not in memory and patches leave [id]
    alone: the Journals page never says "No journals yet" before
    [hydrate] has loaded the table, and afterwards says it exactly when
    the table holds no record; the streak is then 0. *)
Theorem no_journals_yet_means_an_empty_table (t : gmap string JournalEntry)
    (ops : list Op) :
  keyed t -> along tidy ops (boot t) ->
  let w := run ops (boot t) in
  (hydrated (state w) = false -> showsNoJournalsYet (state w) = false)
  /\ (hydrated (state w) = true ->
      (showsNoJournalsYet (state w) = true <-> journals w = ∅))
  /\ (showsNoJournalsYet (state w) = true -> getStreakCount (state w) = 0).
Proof.
  intros Ht Hops w.
  assert (Hw : mirrors w) by (apply run_mirrors; [by apply boot_mirrors|done]).
  unfold showsNoJournalsYet. split; [|split].
  - intros ->. apply andb_false_r.
  - intros Hhyd. rewrite Hhyd, andb_true_r, <- (mirrors_empty w Hw Hhyd).
    unfold all. rewrite Nat.eqb_eq. apply length_zero_iff_nil.
  - intros H. apply andb_prop in H as [H _]. apply Nat.eqb_eq in H.
    apply length_zero_iff_nil in H. by apply getStreakCount_bounds_0.
Qed.

Lemma no_journals_yet_means_an_empty_table_witness :
  let ops := [Hydrate true; Remove true "a"; Remove true "c"] in
  keyed savedTable
  /\ along tidy ops (boot savedTable)
  /\ showsNoJournalsYet (state (run ops (boot savedTable))) = true
  /\ journals (run ops (boot savedTable)) = ∅.
Proof.
  intros ops.
  assert (H1 : along tidy ops (boot savedTable)) by (subst ops; cbn; auto).
  assert (H2 : showsNoJournalsYet (state (run ops (boot savedTable))) = true)
    by (by vm_compute).
  split; [exact keyed_savedTable|]. split; [exact H1|]. split; [exact H2|].
  destruct (no_journals_yet_means_an_empty_table savedTable ops keyed_savedTable H1)
    as (_ & Hiff & _).
  apply Hiff; [by vm_compute|exact H2].
Defined.
